(** * Arkanoid: the simulation core of [Arkanoid.c] / [Draft1.c]

    A shallow embedding of the per-frame game logic ([init_game],
    [spawn_powerup], [apply_powerup], [reset_balls], [update_game]) with the
    process-wide globals gathered in one record that every function threads
    explicitly, and of the drawing ([draw_game] and the functions it calls,
    [update_draw_frame], [main]) as the list of the calls made to raylib.

    Modelling conventions.
    - The two source files are one program up to three constants (launch
      speed, bounce factor), gathered in [t_tuning].
    - The C [float] fields are rationals ([Q]) kept in lowest terms, so that
      equal values are equal terms.  Every constant of the program and every
      paddle coordinate is an integer, which binary32 holds exactly, and on
      such values the exact sums, differences and products of [F] are those
      of binary32. The paddle bounce divides by half the paddle width and
      leaves a value that is no integer: its operations round to binary32
      ([F32]) as the program's do. The sums that move a ball after such a
      bounce are exact, where the program rounds them, and so is the
      count-down of the expansion timer. Division by zero gives 0 in [Q];
      the program divides by half the paddle width, which is 70 or 105 once
      [init_game] has run.
    - The C [int] globals ([life], [score], [ballsCount]) are [Z]; they stay
      far from the limits of [int] (a round has 50 bricks).
    - The fixed-size arrays are lists updated in place by index; a loop over
      an array is a fold over its indices, a loop left by [break] a
      recursion that stops.
    - Keyboard state and frame time are the per-frame [Input]; the two random
      generators ([rand], [GetRandomValue]) read one oracle stream that is
      part of the state, as the generators' hidden state is in C.
    - raylib's two collision tests are not part of the repository and follow
      the description of section 4.1 of the specification.
    - raylib's [MeasureText] and [TextFormat] are parameters of the drawing
      functions, and so is the colour of a background stripe, which the
      program computes in binary32 and converts to an integer. *)

From Stdlib Require Import ZArith QArith Qreduction Qabs Qpower Lia Lqa Bool List.
From stdpp Require Import base list strings.
Import ListNotations.

Local Open Scope Z_scope.

(** ** Arithmetic on [float] values *)

Module F.
Definition add (a b : Q) : Q := Qred (a + b).
Definition sub (a b : Q) : Q := Qred (a - b).
Definition mul (a b : Q) : Q := Qred (a * b).
Definition div (a b : Q) : Q := Qred (a / b).
Definition leb (a b : Q) : bool := Qle_bool a b.
Definition ltb (a b : Q) : bool := negb (Qle_bool b a).
Definition of_int (z : Z) : Q := inject_Z z.
End F.

(** ** Rounding to binary32

    The paddle bounce divides by half the paddle width, and the quotient is
    in general no binary32 value. Its operations round as IEEE 754 asks for
    binary32 (24 significant bits, the smallest exponent -126, to the
    nearest value, to the even one of two that are as near). There is no
    infinity in [Q]: a value of 2^128 or beyond is rounded to 24 bits like
    the others. *)

Module F32.

(** [2 ^ e] for an exponent of either sign. *)
Definition pow2 (e : Z) : Q :=
  match e with
  | Z0 => 1%Q
  | Zpos p => inject_Z (2 ^ Zpos p)
  | Zneg p => (1 # Z.to_pos (2 ^ Zpos p))%Q
  end.

(** The integer nearest to [n / d], the even one of two that are as near. *)
Definition nearest_even (n : Z) (d : positive) : Z :=
  let q := n / Zpos d in
  let r := n mod Zpos d in
  match 2 * r ?= Zpos d with
  | Lt => q
  | Gt => q + 1
  | Eq => if Z.even q then q else q + 1
  end.

(** The exponent [e] of a positive [n / d]: [2 ^ e <= n / d < 2 ^ (e + 1)]. *)
Definition exponent (n : Z) (d : positive) : Z :=
  let e := Z.log2 n - Z.log2 (Zpos d) in
  if (if 0 <=? e then Zpos d * 2 ^ e <=? n else Zpos d <=? n * 2 ^ (- e))
  then e else e - 1.

(** The exponent of the last of the 24 bits of a positive [a]; values below
    [2 ^ -126] are subnormal and share the exponent -149. *)
Definition ulp (a : Q) : Z := Z.max (exponent (Qnum a) (Qden a)) (-126) - 23.

(** The binary32 value nearest to [q]. *)
Definition round (q : Q) : Q :=
  let q := Qred q in
  match Qnum q with
  | Z0 => 0%Q
  | _ =>
      let a := Qabs q in
      let E := ulp a in
      let m := Qred (a / pow2 E) in
      let r := Qred (inject_Z (nearest_even (Qnum m) (Qden m)) * pow2 E) in
      if Qnum q <? 0 then Qred (- r) else r
  end.

Definition add (a b : Q) : Q := round (a + b).
Definition sub (a b : Q) : Q := round (a - b).
Definition mul (a b : Q) : Q := round (a * b).
Definition div (a b : Q) : Q := round (a / b).

End F32.

(** The conversion [(float)z] of an [int]. *)
Abbreviation flt := F.of_int.

Declare Scope float_scope.
Delimit Scope float_scope with F.
Infix "+." := F.add (at level 50, left associativity) : float_scope.
Infix "-." := F.sub (at level 50, left associativity) : float_scope.
Infix "*." := F.mul (at level 40, left associativity) : float_scope.
Infix "/." := F.div (at level 40, left associativity) : float_scope.
Notation "a <=. b" := (F.leb a b) (at level 70, no associativity) : float_scope.
Notation "a <. b" := (F.ltb a b) (at level 70, no associativity) : float_scope.
Notation "a >=. b" := (F.leb b a) (at level 70, no associativity) : float_scope.
Notation "a >. b" := (F.ltb b a) (at level 70, no associativity) : float_scope.
Local Open Scope float_scope.

(** ** Defines *)

Definition PLAYER_MAX_LIFE : Z := 3.
Definition LINES_OF_BRICKS : nat := 5.
Definition BRICKS_PER_LINE : nat := 10.
Definition BALLS_MAX : nat := 5.
Definition POWERUPS_MAX : nat := 10.

Definition screenWidth : Z := 960.
Definition screenHeight : Z := 720.

(** The two source files differ in three constants only. *)
Record t_tuning := mk_tuning {
  launch_spd_x : Z;      (* |spd.x| of a launched ball *)
  launch_spd_y : Z;      (* spd.y of a launched ball *)
  bounce_factor : Z      (* factor of hitPos on a paddle bounce *)
}.

Definition Arkanoid_c : t_tuning := mk_tuning 7 (-7) 6.
Definition Draft1_c : t_tuning := mk_tuning 3 (-4) 4.

(** ** Enumerations *)

Inductive t_gamestate := GAME_TITLE | GAME_PLAYING | GAME_OVER | GAME_WIN.

Inductive t_powerup_type :=
  POWERUP_NONE | POWERUP_EXPAND | POWERUP_EXTRA_LIFE | POWERUP_MULTI_BALL.

#[export] Instance gamestate_eq_dec : EqDecision t_gamestate.
Proof. solve_decision. Defined.

#[export] Instance powerup_type_eq_dec : EqDecision t_powerup_type.
Proof. solve_decision. Defined.

(** ** Structures *)

Module Vector2.
Record t := mk { x : Q; y : Q }.
Definition zero : t := mk 0 0.
Definition set_x (v : Q) (p : t) : t := mk v (y p).
Definition set_y (v : Q) (p : t) : t := mk (x p) v.
End Vector2.

Module Rectangle.
Record t := mk { x : Q; y : Q; width : Q; height : Q }.
Definition zero : t := mk 0 0 0 0.
End Rectangle.

Module Player.
Record t := mk {
    pos : Vector2.t;
    size : Vector2.t;
    life : Z;
    speed : Q;
    expanded : bool;
    expand_timer : Q
  }.
Definition zero : t := mk Vector2.zero Vector2.zero 0 0 false 0.
Definition set_pos v p := mk v (size p) (life p) (speed p) (expanded p) (expand_timer p).
Definition set_size v p := mk (pos p) v (life p) (speed p) (expanded p) (expand_timer p).
Definition set_life v p := mk (pos p) (size p) v (speed p) (expanded p) (expand_timer p).
Definition set_speed v p := mk (pos p) (size p) (life p) v (expanded p) (expand_timer p).
Definition set_expanded v p := mk (pos p) (size p) (life p) (speed p) v (expand_timer p).
Definition set_expand_timer v p := mk (pos p) (size p) (life p) (speed p) (expanded p) v.
End Player.

Module Ball.
Record t := mk {
    pos : Vector2.t;
    spd : Vector2.t;
    radius : Q;
    active : bool
  }.
Definition zero : t := mk Vector2.zero Vector2.zero 0 false.
Definition set_pos v b := mk v (spd b) (radius b) (active b).
Definition set_spd v b := mk (pos b) v (radius b) (active b).
Definition set_radius v b := mk (pos b) (spd b) v (active b).
Definition set_active v b := mk (pos b) (spd b) (radius b) v.
End Ball.

Module Brick.
Record t := mk {
    rect : Rectangle.t;
    active : bool
  }.
Definition zero : t := mk Rectangle.zero false.
Definition set_active v b := mk (rect b) v.
End Brick.

Module Powerup.
Record t := mk {
    pos : Vector2.t;
    spd : Vector2.t;
    type : t_powerup_type;
    active : bool
  }.
Definition zero : t := mk Vector2.zero Vector2.zero POWERUP_NONE false.
Definition set_pos v p := mk v (spd p) (type p) (active p).
Definition set_active v p := mk (pos p) (spd p) (type p) v.
End Powerup.

#[export] Instance ball_inhabited : Inhabited Ball.t := populate Ball.zero.
#[export] Instance brick_inhabited : Inhabited Brick.t := populate Brick.zero.
#[export] Instance powerup_inhabited : Inhabited Powerup.t := populate Powerup.zero.

(** ** Global variables *)

Record Game := mkGame {
  player : Player.t;
  balls : list Ball.t;                 (* t_ball balls[BALLS_MAX] *)
  ballsCount : Z;
  bricks : list (list Brick.t);        (* bricks[LINES_OF_BRICKS][BRICKS_PER_LINE] *)
  brickSize : Vector2.t;
  gameState : t_gamestate;
  pause : bool;
  score : Z;
  powerups : list Powerup.t;           (* t_powerup powerups[POWERUPS_MAX] *)
  waiting_for_launch : bool;
  rnd : nat -> Z;                      (* what the generators will return *)
  rnd_pos : nat                        (* how many draws were made *)
}.

Definition set_player v g := mkGame v (balls g) (ballsCount g) (bricks g) (brickSize g)
  (gameState g) (pause g) (score g) (powerups g) (waiting_for_launch g) (rnd g) (rnd_pos g).
Definition set_balls v g := mkGame (player g) v (ballsCount g) (bricks g) (brickSize g)
  (gameState g) (pause g) (score g) (powerups g) (waiting_for_launch g) (rnd g) (rnd_pos g).
Definition set_ballsCount v g := mkGame (player g) (balls g) v (bricks g) (brickSize g)
  (gameState g) (pause g) (score g) (powerups g) (waiting_for_launch g) (rnd g) (rnd_pos g).
Definition set_bricks v g := mkGame (player g) (balls g) (ballsCount g) v (brickSize g)
  (gameState g) (pause g) (score g) (powerups g) (waiting_for_launch g) (rnd g) (rnd_pos g).
Definition set_brickSize v g := mkGame (player g) (balls g) (ballsCount g) (bricks g) v
  (gameState g) (pause g) (score g) (powerups g) (waiting_for_launch g) (rnd g) (rnd_pos g).
Definition set_gameState v g := mkGame (player g) (balls g) (ballsCount g) (bricks g) (brickSize g)
  v (pause g) (score g) (powerups g) (waiting_for_launch g) (rnd g) (rnd_pos g).
Definition set_pause v g := mkGame (player g) (balls g) (ballsCount g) (bricks g) (brickSize g)
  (gameState g) v (score g) (powerups g) (waiting_for_launch g) (rnd g) (rnd_pos g).
Definition set_score v g := mkGame (player g) (balls g) (ballsCount g) (bricks g) (brickSize g)
  (gameState g) (pause g) v (powerups g) (waiting_for_launch g) (rnd g) (rnd_pos g).
Definition set_powerups v g := mkGame (player g) (balls g) (ballsCount g) (bricks g) (brickSize g)
  (gameState g) (pause g) (score g) v (waiting_for_launch g) (rnd g) (rnd_pos g).
Definition set_waiting_for_launch v g := mkGame (player g) (balls g) (ballsCount g) (bricks g)
  (brickSize g) (gameState g) (pause g) (score g) (powerups g) v (rnd g) (rnd_pos g).
Definition set_rnd_pos v g := mkGame (player g) (balls g) (ballsCount g) (bricks g)
  (brickSize g) (gameState g) (pause g) (score g) (powerups g) (waiting_for_launch g) (rnd g) v.

(** Array cells: [balls[i]], [bricks[y][x]], [powerups[i]]. *)

Definition ball (g : Game) (i : nat) : Ball.t := balls g !!! i.
Definition set_ball (i : nat) (b : Ball.t) (g : Game) : Game :=
  set_balls (<[i := b]> (balls g)) g.

Definition brick (g : Game) (yy xx : nat) : Brick.t := (bricks g !!! yy) !!! xx.
Definition set_brick (yy xx : nat) (b : Brick.t) (g : Game) : Game :=
  set_bricks (<[yy := <[xx := b]> (bricks g !!! yy)]> (bricks g)) g.

Definition powerup (g : Game) (i : nat) : Powerup.t := powerups g !!! i.
Definition set_powerup (i : nat) (p : Powerup.t) (g : Game) : Game :=
  set_powerups (<[i := p]> (powerups g)) g.

(** The globals as the C initialisers leave them, before [main] runs. *)
Definition boot (r : nat -> Z) : Game := {|
  player := Player.zero;
  balls := replicate BALLS_MAX Ball.zero;
  ballsCount := 1;
  bricks := replicate LINES_OF_BRICKS (replicate BRICKS_PER_LINE Brick.zero);
  brickSize := Vector2.zero;
  gameState := GAME_TITLE;
  pause := false;
  score := 0;
  powerups := replicate POWERUPS_MAX Powerup.zero;
  waiting_for_launch := true;
  rnd := r;
  rnd_pos := 0
|}.

(** ** The host: input, random numbers, collision tests *)

Record Input := mkInput {
  key_space : bool;      (* IsKeyPressed(KEY_SPACE) *)
  key_enter : bool;      (* IsKeyPressed(KEY_ENTER) *)
  key_p : bool;          (* IsKeyPressed(KEY_P) *)
  key_left : bool;       (* IsKeyDown(KEY_LEFT) *)
  key_right : bool;      (* IsKeyDown(KEY_RIGHT) *)
  frame_time : Q         (* GetFrameTime() *)
}.

Definition RAND_MAX : Z := 2147483647.

(** [rand()]: the next draw, in [0, RAND_MAX]. *)
Definition rand (g : Game) : Z * Game :=
  (rnd g (rnd_pos g) mod (RAND_MAX + 1), set_rnd_pos (S (rnd_pos g)) g).

(** [GetRandomValue(min, max)]: the next draw, in [min, max]. *)
Definition GetRandomValue (min max : Z) (g : Game) : Z * Game :=
  (min + rnd g (rnd_pos g) mod (max - min + 1), set_rnd_pos (S (rnd_pos g)) g).

Definition clamp (v lo hi : Q) : Q :=
  if v <. lo then lo else if v >. hi then hi else v.

(** Modelled from the spec: raylib's [CheckCollisionCircleRec] is not part of
    the repository; section 4.1 asks for the closest-point distance test with
    inclusive bounds. *)
Definition CheckCollisionCircleRec (center : Vector2.t) (radius : Q) (rec : Rectangle.t) : bool :=
  let cx := clamp (Vector2.x center) (Rectangle.x rec) (Rectangle.x rec +. Rectangle.width rec) in
  let cy := clamp (Vector2.y center) (Rectangle.y rec) (Rectangle.y rec +. Rectangle.height rec) in
  let dx := Vector2.x center -. cx in
  let dy := Vector2.y center -. cy in
  dx *. dx +. dy *. dy <=. radius *. radius.

(** Modelled from the spec: raylib's [CheckCollisionRecs] is not part of the
    repository; section 4.1 asks for the AABB overlap test in which touching
    edges overlap. *)
Definition CheckCollisionRecs (a b : Rectangle.t) : bool :=
  (Rectangle.x a <=. Rectangle.x b +. Rectangle.width b) &&
  (Rectangle.x b <=. Rectangle.x a +. Rectangle.width a) &&
  (Rectangle.y a <=. Rectangle.y b +. Rectangle.height b) &&
  (Rectangle.y b <=. Rectangle.y a +. Rectangle.height a).

(** ** init_game *)

Definition init_player (g : Game) : Game :=
  let g := set_player (Player.set_size (Vector2.mk 140 22) (player g)) g in
  let g := set_player (Player.set_pos
             (Vector2.mk (flt screenWidth /. 2 -. Vector2.x (Player.size (player g)) /. 2)
                         (flt (screenHeight - 50))) (player g)) g in
  let g := set_player (Player.set_life PLAYER_MAX_LIFE (player g)) g in
  let g := set_player (Player.set_speed 8 (player g)) g in
  let g := set_player (Player.set_expanded false (player g)) g in
  set_player (Player.set_expand_timer 0 (player g)) g.

(** Where a ball waiting for launch sits: centred on the paddle, 2 above it. *)
Definition above_paddle (g : Game) : Vector2.t :=
  Vector2.mk (Vector2.x (Player.pos (player g)) +. Vector2.x (Player.size (player g)) /. 2)
             (Vector2.y (Player.pos (player g)) -. Ball.radius (ball g 0) -. 2).

Definition init_balls (g : Game) : Game :=
  let g := fold_left (fun g i => set_ball i (Ball.set_active false (ball g i)) g)
                     (seq 0 BALLS_MAX) g in
  let g := set_ballsCount 1 g in
  let g := set_ball 0 (Ball.set_radius 12 (ball g 0)) g in
  let g := set_ball 0 (Ball.set_pos (above_paddle g) (ball g 0)) g in
  let g := set_ball 0 (Ball.set_spd (Vector2.mk 0 0) (ball g 0)) g in
  set_ball 0 (Ball.set_active false (ball g 0)) g.

Definition init_brick (yy xx : nat) (g : Game) : Game :=
  set_brick yy xx
    (Brick.mk (Rectangle.mk (flt (Z.of_nat xx) *. Vector2.x (brickSize g) +. 7)
                            (flt (Z.of_nat yy) *. Vector2.y (brickSize g) +. 70)
                            (Vector2.x (brickSize g) -. 12)
                            (Vector2.y (brickSize g) -. 10))
              true) g.

Definition init_bricks (g : Game) : Game :=
  fold_left (fun g yy => fold_left (fun g xx => init_brick yy xx g) (seq 0 BRICKS_PER_LINE) g)
            (seq 0 LINES_OF_BRICKS) g.

Definition init_powerups (g : Game) : Game :=
  fold_left (fun g i => set_powerup i (Powerup.set_active false (powerup g i)) g)
            (seq 0 POWERUPS_MAX) g.

Definition init_game (g : Game) : Game :=
  let g := set_brickSize (Vector2.mk (flt screenWidth /. flt (Z.of_nat BRICKS_PER_LINE)) 38) g in
  let g := init_player g in
  let g := init_balls g in
  let g := init_bricks g in
  let g := init_powerups g in
  let g := set_score 0 g in
  let g := set_pause false g in
  set_waiting_for_launch true g.

(** ** spawn_powerup *)

Definition powerup_of_roll (r : Z) : t_powerup_type :=
  if r <? 40 then POWERUP_EXPAND
  else if r <? 70 then POWERUP_EXTRA_LIFE
  else POWERUP_MULTI_BALL.

(** The slot loop of [spawn_powerup]: the first inactive slot is filled and
    the loop is left. *)
Fixpoint spawn_slot (slots : list nat) (pos : Vector2.t) (type : t_powerup_type)
    (g : Game) : Game :=
  match slots with
  | [] => g
  | i :: rest =>
      if negb (Powerup.active (powerup g i))
      then set_powerup i (Powerup.mk pos (Vector2.mk 0 2) type true) g
      else spawn_slot rest pos type g
  end.

Definition spawn_powerup (pos : Vector2.t) (g : Game) : Game :=
  let '(r0, g) := rand g in
  let r := Z.rem r0 100 in
  spawn_slot (seq 0 POWERUPS_MAX) pos (powerup_of_roll r) g.

(** ** apply_powerup *)

Definition clone_ball (i j : nat) (g : Game) : Game :=
  let g := set_ball j (ball g i) g in
  let g := set_ball j (Ball.set_spd (Vector2.set_x (Vector2.x (Ball.spd (ball g j)) *. flt (-1))
                                       (Ball.spd (ball g j))) (ball g j)) g in
  let '(r, g) := GetRandomValue 0 1 g in
  let g := set_ball j (Ball.set_spd (Vector2.set_y
                         (Vector2.y (Ball.spd (ball g j)) *. flt (if r =? 0 then 1 else -1))
                         (Ball.spd (ball g j))) (ball g j)) g in
  let g := set_ball j (Ball.set_active true (ball g j)) g in
  set_ballsCount (ballsCount g + 1) g.

(** Inner loop of the multi-ball case: the first inactive slot receives the
    clone of ball [i]. *)
Fixpoint multi_ball_slot (i : nat) (slots : list nat) (g : Game) : Game :=
  match slots with
  | [] => g
  | j :: rest =>
      if negb (Ball.active (ball g j)) then clone_ball i j g
      else multi_ball_slot i rest g
  end.

(** Outer loop: [for (i = 0; i < BALLS_MAX && ballsCount < 3; i++)]. *)
Fixpoint multi_ball (idxs : list nat) (g : Game) : Game :=
  match idxs with
  | [] => g
  | i :: rest =>
      if ballsCount g <? 3
      then multi_ball rest
             (if Ball.active (ball g i) then multi_ball_slot i (seq 0 BALLS_MAX) g else g)
      else g
  end.

Definition apply_powerup (type : t_powerup_type) (g : Game) : Game :=
  match type with
  | POWERUP_EXPAND =>
      let g := set_player (Player.set_expanded true (player g)) g in
      let g := set_player (Player.set_expand_timer 10 (player g)) g in
      set_player (Player.set_size (Vector2.set_x 210 (Player.size (player g))) (player g)) g
  | POWERUP_EXTRA_LIFE =>
      set_player (Player.set_life (Player.life (player g) + 1) (player g)) g
  | POWERUP_MULTI_BALL => multi_ball (seq 0 BALLS_MAX) g
  | POWERUP_NONE => g
  end.

(** ** reset_balls *)

Definition reset_balls (pos : Vector2.t) (g : Game) : Game :=
  let g := fold_left (fun g i => set_ball i (Ball.set_active false (ball g i)) g)
                     (seq 0 BALLS_MAX) g in
  let g := set_ballsCount 1 g in
  let g := set_ball 0 (Ball.set_radius 12 (ball g 0)) g in
  let g := set_ball 0 (Ball.set_pos pos (ball g 0)) g in
  let g := set_ball 0 (Ball.set_spd (Vector2.mk 0 0) (ball g 0)) g in
  set_ball 0 (Ball.set_active false (ball g 0)) g.

(** ** update_game *)

Definition paddleRect (g : Game) : Rectangle.t :=
  Rectangle.mk (Vector2.x (Player.pos (player g))) (Vector2.y (Player.pos (player g)))
               (Vector2.x (Player.size (player g))) (Vector2.y (Player.size (player g))).

Definition set_player_x (v : Q) (g : Game) : Game :=
  set_player (Player.set_pos (Vector2.set_x v (Player.pos (player g))) (player g)) g.

Definition set_ball_spd_x (b : nat) (v : Q) (g : Game) : Game :=
  set_ball b (Ball.set_spd (Vector2.set_x v (Ball.spd (ball g b))) (ball g b)) g.

Definition set_ball_spd_y (b : nat) (v : Q) (g : Game) : Game :=
  set_ball b (Ball.set_spd (Vector2.set_y v (Ball.spd (ball g b))) (ball g b)) g.

Definition set_ball_pos_x (b : nat) (v : Q) (g : Game) : Game :=
  set_ball b (Ball.set_pos (Vector2.set_x v (Ball.pos (ball g b))) (ball g b)) g.

Definition set_ball_pos_y (b : nat) (v : Q) (g : Game) : Game :=
  set_ball b (Ball.set_pos (Vector2.set_y v (Ball.pos (ball g b))) (ball g b)) g.

(** Player movement and the two clamps. *)
Definition move_player (inp : Input) (g : Game) : Game :=
  let px g := Vector2.x (Player.pos (player g)) in
  let g := if key_left inp then set_player_x (px g -. Player.speed (player g)) g else g in
  let g := if key_right inp then set_player_x (px g +. Player.speed (player g)) g else g in
  let g := if px g <. 0 then set_player_x 0 g else g in
  if px g +. Vector2.x (Player.size (player g)) >. flt screenWidth
  then set_player_x (flt screenWidth -. Vector2.x (Player.size (player g))) g
  else g.

(** The expanded paddle shrinks back when its timer runs out. *)
Definition expand_decay (inp : Input) (g : Game) : Game :=
  if Player.expanded (player g) then
    let g := set_player (Player.set_expand_timer
               (Player.expand_timer (player g) -. frame_time inp) (player g)) g in
    if Player.expand_timer (player g) <=. 0 then
      let g := set_player (Player.set_expanded false (player g)) g in
      set_player (Player.set_size (Vector2.set_x 140 (Player.size (player g))) (player g)) g
    else g
  else g.

(** Bottom-boundary loss of ball [b]. *)
Definition ball_lost (b : nat) (g : Game) : Game :=
  if Vector2.y (Ball.pos (ball g b)) -. Ball.radius (ball g b) >. flt screenHeight then
    let g := set_ball b (Ball.set_active false (ball g b)) g in
    set_ballsCount (ballsCount g - 1) g
  else g.

(** One cell of the brick scan for ball [b]. *)
Definition hit_brick (b yy xx : nat) (g : Game) : Game :=
  if Brick.active (brick g yy xx) &&
     CheckCollisionCircleRec (Ball.pos (ball g b)) (Ball.radius (ball g b))
                             (Brick.rect (brick g yy xx))
  then
    let g := set_brick yy xx (Brick.set_active false (brick g yy xx)) g in
    let g := set_ball_spd_y b (Vector2.y (Ball.spd (ball g b)) *. flt (-1)) g in
    let g := set_score (score g + 100) g in
    let '(r, g) := GetRandomValue 1 100 g in
    if r <=? 22 then
      spawn_powerup
        (Vector2.mk (Rectangle.x (Brick.rect (brick g yy xx)) +. Vector2.x (brickSize g) /. 2)
                    (Rectangle.y (Brick.rect (brick g yy xx)) +. Vector2.y (brickSize g) /. 2))
        g
    else g
  else g.

(** The brick scan of ball [b]: rows top to bottom, columns left to right. *)
Definition ball_bricks (b : nat) (g : Game) : Game :=
  fold_left (fun g yy => fold_left (fun g xx => hit_brick b yy xx g) (seq 0 BRICKS_PER_LINE) g)
            (seq 0 LINES_OF_BRICKS) g.

(** Euler step of ball [b]. *)
Definition ball_move (b : nat) (g : Game) : Game :=
  let g := set_ball_pos_x b (Vector2.x (Ball.pos (ball g b)) +. Vector2.x (Ball.spd (ball g b))) g in
  set_ball_pos_y b (Vector2.y (Ball.pos (ball g b)) +. Vector2.y (Ball.spd (ball g b))) g.

(** Left/right walls, then the top wall. *)
Definition ball_walls (b : nat) (g : Game) : Game :=
  let g :=
    if (Vector2.x (Ball.pos (ball g b)) -. Ball.radius (ball g b) <=. 0) ||
       (Vector2.x (Ball.pos (ball g b)) +. Ball.radius (ball g b) >=. flt screenWidth)
    then set_ball_spd_x b (Vector2.x (Ball.spd (ball g b)) *. flt (-1)) g
    else g in
  if Vector2.y (Ball.pos (ball g b)) -. Ball.radius (ball g b) <=. 0
  then set_ball_spd_y b (Vector2.y (Ball.spd (ball g b)) *. flt (-1)) g
  else g.

(** Life loss once every ball is gone after a launch. *)
Definition lose_life (g : Game) : Game :=
  let anyBallActive :=
    fold_left (fun any b => if Ball.active (ball g b) then true else any)
              (seq 0 BALLS_MAX) false in
  if negb anyBallActive && negb (waiting_for_launch g) then
    let g := set_player (Player.set_life (Player.life (player g) - 1) (player g)) g in
    if Player.life (player g) <=? 0 then set_gameState GAME_OVER g
    else
      let g := reset_balls (above_paddle g) g in
      set_waiting_for_launch true g
  else g.

(** One falling powerup. *)
Definition update_powerup (i : nat) (g : Game) : Game :=
  if negb (Powerup.active (powerup g i)) then g else
  let g := set_powerup i (Powerup.set_pos
             (Vector2.set_y (Vector2.y (Powerup.pos (powerup g i)) +.
                             Vector2.y (Powerup.spd (powerup g i)))
                            (Powerup.pos (powerup g i))) (powerup g i)) g in
  let puRect := Rectangle.mk (Vector2.x (Powerup.pos (powerup g i)) -. 14)
                             (Vector2.y (Powerup.pos (powerup g i)) -. 14) 28 28 in
  let g :=
    if CheckCollisionRecs (paddleRect g) puRect then
      let g := apply_powerup (Powerup.type (powerup g i)) g in
      set_powerup i (Powerup.set_active false (powerup g i)) g
    else g in
  if Vector2.y (Powerup.pos (powerup g i)) >. flt screenHeight
  then set_powerup i (Powerup.set_active false (powerup g i)) g
  else g.

Definition update_powerups (g : Game) : Game :=
  fold_left (fun g i => update_powerup i g) (seq 0 POWERUPS_MAX) g.

(** Win once no brick is left. *)
Definition check_win (g : Game) : Game :=
  let bricksLeft :=
    fold_left (fun left yy =>
                 fold_left (fun left xx => if Brick.active (brick g yy xx) then true else left)
                           (seq 0 BRICKS_PER_LINE) left)
              (seq 0 LINES_OF_BRICKS) false in
  if negb bricksLeft then set_gameState GAME_WIN g else g.

Section Simulation.

Variable tune : t_tuning.

(** The ball in slot 0 sticks to the paddle until SPACE launches it. *)
Definition launch_ball (inp : Input) (g : Game) : Game :=
  if negb (Ball.active (ball g 0)) then
    let g := set_ball_pos_x 0 (Vector2.x (Player.pos (player g)) +.
                               Vector2.x (Player.size (player g)) /. 2) g in
    let g := set_ball_pos_y 0 (Vector2.y (Player.pos (player g)) -.
                               Ball.radius (ball g 0) -. 2) g in
    if key_space inp then
      let g := set_ball 0 (Ball.set_active true (ball g 0)) g in
      let '(r, g) := GetRandomValue 0 1 g in
      let g := set_ball 0 (Ball.set_spd
                 (Vector2.mk (flt (launch_spd_x tune * (if r =? 0 then -1 else 1)))
                             (flt (launch_spd_y tune))) (ball g 0)) g in
      set_waiting_for_launch false g
    else g
  else g.

(** Paddle bounce of ball [b]; [hitPos] and the new [spd.x] are computed in
    binary32. *)
Definition ball_paddle (b : nat) (g : Game) : Game :=
  if CheckCollisionCircleRec (Ball.pos (ball g b)) (Ball.radius (ball g b)) (paddleRect g) then
    let g := set_ball_spd_y b (Vector2.y (Ball.spd (ball g b)) *. flt (-1)) g in
    let hitPos :=
      F32.div
        (F32.sub (Vector2.x (Ball.pos (ball g b)))
           (F32.add (Vector2.x (Player.pos (player g)))
              (F32.div (Vector2.x (Player.size (player g))) 2)))
        (F32.div (Vector2.x (Player.size (player g))) 2) in
    set_ball_spd_x b (F32.mul (flt (bounce_factor tune)) hitPos) g
  else g.

(** Body of the loop over the balls. *)
Definition update_ball (b : nat) (g : Game) : Game :=
  if negb (Ball.active (ball g b)) then g else
  let g := ball_move b g in
  let g := ball_walls b g in
  let g := ball_paddle b g in
  let g := ball_lost b g in
  ball_bricks b g.

Definition update_balls (g : Game) : Game :=
  fold_left (fun g b => update_ball b g) (seq 0 BALLS_MAX) g.

(** The un-paused part of a frame in [GAME_PLAYING]. *)
Definition simulate (inp : Input) (g : Game) : Game :=
  let g := move_player inp g in
  let g := expand_decay inp g in
  let g := launch_ball inp g in
  let g := update_balls g in
  let g := lose_life g in
  let g := update_powerups g in
  check_win g.

Definition update_game (inp : Input) (g : Game) : Game :=
  match gameState g with
  | GAME_TITLE =>
      if key_space inp || key_enter inp
      then set_gameState GAME_PLAYING (init_game g)
      else g
  | GAME_PLAYING =>
      let g := if key_p inp then set_pause (negb (pause g)) g else g in
      if negb (pause g) then simulate inp g else g
  | GAME_OVER | GAME_WIN =>
      if key_enter inp || key_space inp
      then set_gameState GAME_TITLE g
      else g
  end.

(** The frames of a run, oldest first. *)
Definition run (inps : list Input) (g : Game) : Game :=
  fold_left (fun g inp => update_game inp g) inps g.

(** [main]: the globals are initialised once, then one update per frame. *)
Inductive reachable : Game -> Prop :=
| reach_main r : reachable (init_game (boot r))
| reach_frame inp g : reachable g -> reachable (update_game inp g).

End Simulation.

(** ** Drawing *)

(** The colours the program names, and [(Color){ r, g, b, a }]. *)
Inductive Color :=
  LIGHTGRAY | GRAY | DARKGRAY | YELLOW | ORANGE | RED | MAROON | DARKGREEN | DARKBLUE
| WHITE | BLACK | RAYWHITE
| RGBA (r g b a : Z).

(** The calls of raylib's drawing functions: a picture is the list of the
    calls that draw it, first call first. *)
Inductive t_draw :=
| DrawRectangle (posX posY width height : Z) (color : Color)
| DrawRectangleLines (posX posY width height : Z) (color : Color)
| DrawRectangleV (position size : Vector2.t) (color : Color)
| DrawRectangleRec (rec : Rectangle.t) (color : Color)
| DrawCircle (centerX centerY : Z) (radius : Q) (color : Color)
| DrawCircleV (center : Vector2.t) (radius : Q) (color : Color)
| DrawText (text : string) (posX posY fontSize : Z) (color : Color)
| BeginDrawing
| EndDrawing.

(** The conversion [(int)v] of a [float]: towards zero. *)
Definition to_int (v : Q) : Z := Z.quot (Qnum v) (Z.pos (Qden v)).

Definition draw_powerup_icon (type : t_powerup_type) (pos : Vector2.t) : list t_draw :=
  match type with
  | POWERUP_EXPAND =>
      [DrawRectangle (to_int (Vector2.x pos) - 12) (to_int (Vector2.y pos) - 7) 24 14 YELLOW;
       DrawRectangleLines (to_int (Vector2.x pos) - 12) (to_int (Vector2.y pos) - 7) 24 14 BLACK;
       DrawText "E" (to_int (Vector2.x pos) - 6) (to_int (Vector2.y pos) - 7) 16 BLACK]
  | POWERUP_EXTRA_LIFE =>
      [DrawCircle (to_int (Vector2.x pos)) (to_int (Vector2.y pos)) 12 RED;
       DrawText "+" (to_int (Vector2.x pos) - 6) (to_int (Vector2.y pos) - 12) 22 WHITE]
  | POWERUP_MULTI_BALL =>
      [DrawCircle (to_int (Vector2.x pos) - 7) (to_int (Vector2.y pos)) 7 MAROON;
       DrawCircle (to_int (Vector2.x pos) + 7) (to_int (Vector2.y pos)) 7 MAROON;
       DrawCircle (to_int (Vector2.x pos)) (to_int (Vector2.y pos)) 7 MAROON]
  | POWERUP_NONE => []
  end.

(** The lines of the title screen below the title. *)
Definition instructions : list string :=
  ["Press SPACE or ENTER to start";
   "Move paddle: LEFT / RIGHT arrow keys";
   "Launch ball: SPACE";
   "Pause/Resume: P";
   "Clear all bricks to win!";
   "";
   "Powerups:";
   "   E = Expand Paddle,   + = Extra Life,   Three Balls = Multi-ball"].

Section Drawing.

(** The host: the width of a text in a font size, and [TextFormat] with one
    [int] argument. *)
Variable MeasureText : string -> Z -> Z.
Variable TextFormat : string -> Z -> string.

(** The colour of the background stripe at height [i]. The program mixes
    two colours in binary32 and converts each channel to an integer; at some
    heights the exact value is an integer and the rounding of binary32
    decides on which side of it the result falls, so that the exact
    arithmetic that stands for [float] elsewhere would not give the colours
    of the program. The colour is left open. *)
Variable stripe : Z -> Color.

(** The colour of the score: [YELLOW] in [Arkanoid.c], [DARKGRAY] in
    [Draft1.c]. *)
Variable score_color : Color.

(** [for (i = 0; i < screenHeight; i += 4)]: 180 stripes. *)
Definition draw_background : list t_draw :=
  fold_left (fun pic k => let i := 4 * Z.of_nat k in
                          pic ++ [DrawRectangle 0 i screenWidth 4 (stripe i)])
            (seq 0 (Z.to_nat ((screenHeight + 3) / 4))) [].

Definition draw_title_screen : list t_draw :=
  let pic := draw_background in
  let arkanoidFontSize := 110 in
  let arkanoidWidth := MeasureText "Arkanoid" arkanoidFontSize in
  let pic := pic ++ [DrawText "Arkanoid" (Z.quot screenWidth 2 - Z.quot arkanoidWidth 2) 120
                              arkanoidFontSize (RGBA 255 180 60 255)] in
  let versionStr := "version 1"%string in
  let versionW := MeasureText versionStr 28 in
  let pic := pic ++ [DrawText versionStr (screenWidth - versionW - 24) (screenHeight - 44)
                              28 LIGHTGRAY] in
  let instrStartY := 290 in
  fold_left (fun pic i =>
               let instrW := MeasureText (nth i instructions ""%string) 26 in
               pic ++ [DrawText (nth i instructions ""%string)
                                (Z.quot screenWidth 2 - Z.quot instrW 2)
                                (instrStartY + Z.of_nat i * 32) 26 RAYWHITE])
            (seq 0 8) pic.

(** The colour of the brick of row [yy] and column [xx]:
    [(y + x) % 2 ? GRAY : ORANGE]. *)
Definition brick_color (yy xx : nat) : Color :=
  if Z.rem (Z.of_nat yy + Z.of_nat xx) 2 =? 0 then ORANGE else GRAY.

(** The [GAME_PLAYING] branch of [draw_game]: the paddle, one bar for each
    life, the balls, the bricks and the powerups that are active, the score
    and, while the game is paused, the banner. *)
Definition draw_playing (g : Game) : list t_draw :=
  let pic := [DrawRectangleV (Player.pos (player g)) (Player.size (player g))
                             (if Player.expanded (player g) then YELLOW else DARKBLUE)] in
  let pic := fold_left (fun pic i =>
                          pic ++ [DrawRectangle (20 + 44 * Z.of_nat i) (screenHeight - 30)
                                                36 11 LIGHTGRAY])
                       (seq 0 (Z.to_nat (Player.life (player g)))) pic in
  let pic := fold_left (fun pic b =>
                          if Ball.active (ball g b)
                          then pic ++ [DrawCircleV (Ball.pos (ball g b))
                                                   (Ball.radius (ball g b)) MAROON]
                          else pic)
                       (seq 0 BALLS_MAX) pic in
  let pic := fold_left (fun pic yy =>
                          fold_left (fun pic xx =>
                                       if Brick.active (brick g yy xx)
                                       then pic ++ [DrawRectangleRec (Brick.rect (brick g yy xx))
                                                                     (brick_color yy xx)]
                                       else pic)
                                    (seq 0 BRICKS_PER_LINE) pic)
                       (seq 0 LINES_OF_BRICKS) pic in
  let pic := fold_left (fun pic i =>
                          if Powerup.active (powerup g i)
                          then pic ++ draw_powerup_icon (Powerup.type (powerup g i))
                                                        (Powerup.pos (powerup g i))
                          else pic)
                       (seq 0 POWERUPS_MAX) pic in
  let pic := pic ++ [DrawText (TextFormat "SCORE: %04i" (score g)) (screenWidth - 170) 20 28
                              score_color] in
  if pause g
  then pic ++ [DrawText "GAME PAUSED"
                        (Z.quot screenWidth 2 - Z.quot (MeasureText "GAME PAUSED" 48) 2)
                        (Z.quot screenHeight 2 - 48) 48 GRAY]
  else pic.

Definition draw_game (g : Game) : list t_draw :=
  let pic := draw_background in
  match gameState g with
  | GAME_TITLE => pic ++ draw_title_screen
  | GAME_PLAYING => pic ++ draw_playing g
  | GAME_OVER =>
      pic ++
      [DrawText "GAME OVER"
                (Z.quot screenWidth 2 - Z.quot (MeasureText "GAME OVER" 56) 2)
                (Z.quot screenHeight 2 - 80) 56 RED;
       DrawText (TextFormat "FINAL SCORE: %i" (score g))
                (Z.quot screenWidth 2 - Z.quot (MeasureText "FINAL SCORE: 0000" 32) 2)
                (Z.quot screenHeight 2) 32 MAROON;
       DrawText "PRESS [ENTER] TO RETURN TO TITLE"
                (Z.quot screenWidth 2 -
                 Z.quot (MeasureText "PRESS [ENTER] TO RETURN TO TITLE" 26) 2)
                (Z.quot screenHeight 2 + 72) 26 DARKGRAY]
  | GAME_WIN =>
      pic ++
      [DrawText "VICTORY!"
                (Z.quot screenWidth 2 - Z.quot (MeasureText "VICTORY!" 64) 2)
                (Z.quot screenHeight 2 - 96) 64 DARKGREEN;
       DrawText (TextFormat "FINAL SCORE: %i" (score g))
                (Z.quot screenWidth 2 - Z.quot (MeasureText "FINAL SCORE: 0000" 34) 2)
                (Z.quot screenHeight 2) 34 MAROON;
       DrawText "YOU CLEARED ALL THE BRICKS!"
                (Z.quot screenWidth 2 -
                 Z.quot (MeasureText "YOU CLEARED ALL THE BRICKS!" 28) 2)
                (Z.quot screenHeight 2 + 48) 28 ORANGE;
       DrawText "PRESS [ENTER] TO RETURN TO TITLE"
                (Z.quot screenWidth 2 -
                 Z.quot (MeasureText "PRESS [ENTER] TO RETURN TO TITLE" 26) 2)
                (Z.quot screenHeight 2 + 96) 26 DARKGRAY]
  end.

Variable tune : t_tuning.

(** [update_draw_frame]: the update, then the picture of the state that the
    update leaves. *)
Definition update_draw_frame (inp : Input) (g : Game) : Game * list t_draw :=
  let g := update_game tune inp g in
  (g, [BeginDrawing] ++ draw_game g ++ [EndDrawing]).

(** Nothing is loaded, nothing to unload. *)
Definition unload_game (g : Game) : Game := g.

(** [main]: the globals are set up once, then a frame is updated and drawn
    for as long as the window stays open. [r] is the random stream that the
    seed selects, [inps] are the inputs of the frames up to the one in which
    the window is closed; the result is the exit code with the last state
    and the pictures drawn. *)
Definition main (r : nat -> Z) (inps : list Input) : Z * Game * list (list t_draw) :=
  let g := init_game (boot r) in
  let '(g, pics) :=
    fold_left (fun '(g, pics) inp =>
                 let '(g, pic) := update_draw_frame inp g in (g, pics ++ [pic]))
              inps (g, []) in
  let g := unload_game g in
  (0, g, pics).

End Drawing.

(** * Specification vocabulary *)

(** ** Views of a frame in progress *)

(** The state when the loop over the balls reaches ball [b], the state after
    the wall handling of ball [b], and the state in which its brick scan
    starts. *)
Definition before_ball (tune : t_tuning) (b : nat) (inp : Input) (g : Game) : Game :=
  fold_left (fun g b => update_ball tune b g) (seq 0 b)
            (launch_ball tune inp (expand_decay inp (move_player inp g))).

Definition after_walls (tune : t_tuning) (b : nat) (inp : Input) (g : Game) : Game :=
  ball_walls b (ball_move b (before_ball tune b inp g)).

Definition before_bricks (tune : t_tuning) (b : nat) (inp : Input) (g : Game) : Game :=
  ball_lost b (ball_paddle tune b (after_walls tune b inp g)).

(** ** The grid, the pools and their counts *)

(** The cells of the grid in the order of the two nested loops. *)
Definition scan_order : list (nat * nat) :=
  yy ← seq 0 LINES_OF_BRICKS; xx ← seq 0 BRICKS_PER_LINE; [(yy, xx)].

(** Ball [b] touches the still-active brick of cell [c]. *)
Definition overlaps (b : nat) (g : Game) (c : nat * nat) : bool :=
  Brick.active (brick g c.1 c.2) &&
  CheckCollisionCircleRec (Ball.pos (ball g b)) (Ball.radius (ball g b))
                          (Brick.rect (brick g c.1 c.2)).

(** The cells among [cells] whose brick ball [b] touches. *)
Definition hits (b : nat) (g : Game) (cells : list (nat * nat)) : list (nat * nat) :=
  filter (fun c => overlaps b g c = true) cells.

(** [spd.y *= -1]. *)
Definition flip (v : Q) : Q := v *. flt (-1).

Definition active_bricks (g : Game) : nat :=
  length (filter (fun c => Brick.active (brick g c.1 c.2) = true) scan_order).

Definition active_balls (g : Game) : nat :=
  length (filter (fun b => Ball.active b = true) (balls g)).

(** The arrays have their declared sizes. *)
Definition well_formed (g : Game) : Prop :=
  length (balls g) = BALLS_MAX /\
  length (powerups g) = POWERUPS_MAX /\
  length <$> bricks g = replicate LINES_OF_BRICKS BRICKS_PER_LINE.

(** The paddle rectangle lies within the width of the screen. *)
Definition paddle_on_screen (g : Game) : Prop :=
  (0 <= Vector2.x (Player.pos (player g)))%Q /\
  (Vector2.x (Player.pos (player g)) + Vector2.x (Player.size (player g))
     <= inject_Z screenWidth)%Q.

(** Cell [c] exists in the grid of [g]. *)
Definition in_grid (g : Game) (c : nat * nat) : Prop :=
  (c.1 < length (bricks g))%nat /\ (c.2 < length (bricks g !!! c.1))%nat.

(** ** What the simulation leaves alone *)

(** From [g] to [g']: the arrays keep their sizes, the bricks their
    rectangles, the paddle its vertical placement and height; a brick can go
    from active to inactive only. *)
Record frame (g g' : Game) : Prop := mk_frame {
  fr_balls : length (balls g') = length (balls g);
  fr_powerups : length (powerups g') = length (powerups g);
  fr_bricks : length <$> bricks g' = length <$> bricks g;
  fr_rect : forall y x, Brick.rect (brick g' y x) = Brick.rect (brick g y x);
  fr_active : forall y x,
    Brick.active (brick g' y x) = true -> Brick.active (brick g y x) = true;
  fr_pos_y : Vector2.y (Player.pos (player g')) = Vector2.y (Player.pos (player g));
  fr_size_y : Vector2.y (Player.size (player g')) = Vector2.y (Player.size (player g));
  fr_brickSize : brickSize g' = brickSize g
}.

(** The same, and the phase is kept too. *)
Definition sframe (g g' : Game) : Prop :=
  frame g g' /\ gameState g' = gameState g.

(** What holds of every state [main] can reach. *)
Definition invariant (g : Game) : Prop :=
  well_formed g /\
  Vector2.y (Player.pos (player g)) = 670%Q /\
  Vector2.y (Player.size (player g)) = 22%Q /\
  (gameState g = GAME_PLAYING -> active_bricks g <> 0%nat).

(** ** A game as [init_game] sets it up *)

Definition fresh_bricks : list (list Brick.t) :=
  Eval vm_compute in bricks (init_game (boot (fun _ => 0))).

Definition fresh_player : Player.t :=
  Player.mk (Vector2.mk 410 670) (Vector2.mk 140 22) 3 8 false 0.

Definition fresh_ball : Ball.t :=
  Ball.mk (Vector2.mk 480 656) (Vector2.mk 0 0) 12 false.

(** ** Inputs *)

(** A key that starts a game or leaves the end screens was pressed. *)
Definition confirms (inp : Input) : bool := key_space inp || key_enter inp.

(** One frame at 60 frames per second with one key (or none, or SPACE and
    LEFT) down. No run below presses the same key in two frames in a row:
    [IsKeyPressed] reports the frame in which a key goes down. *)
Definition idle : Input := mkInput false false false false false (1 # 60).
Definition press_enter : Input := mkInput false true false false false (1 # 60).
Definition press_space : Input := mkInput true false false false false (1 # 60).
Definition hold_left : Input := mkInput false false false true false (1 # 60).
Definition hold_right : Input := mkInput false false false false true (1 # 60).
Definition space_left : Input := mkInput true false false true false (1 # 60).
Definition press_p : Input := mkInput false false true false false (1 # 60).

(** A random stream given by its first draws; the draws after them are 99,
    which as a spawn roll spawns nothing. *)
Definition draws (l : list Z) : nat -> Z := fun n => nth n l 99.

(** The state in which [main] enters its loop. *)
Definition fresh (l : list Z) : Game := init_game (boot (draws l)).

(** ** Concrete runs of [Arkanoid.c] *)

(** The paddle moves two frames right, then the ball is launched to the left:
    in the 60th frame it reaches the gap between the two leftmost bricks of
    the bottom row. *)
Definition gap_run : list Input :=
  press_enter :: hold_right :: hold_right :: press_space :: replicate 55 idle.

Definition gap_state : Game :=
  before_bricks Arkanoid_c 0 idle (run Arkanoid_c gap_run (fresh [0])).

(** The ball is launched to the right and knocks an Expand powerup out of the
    bottom-right brick; the paddle waits for it at the right wall. *)
Definition expand_run : list Input :=
  press_enter :: press_space :: replicate 263 hold_right.

Definition expand_state : Game := run Arkanoid_c expand_run (fresh [1; 0; 0]).

(** Two MultiBall powerups are collected, and the ball of slot 0 is lost and
    launched again twice while a clone is still in flight. *)
Definition relaunch_run : list Input :=
  [press_enter; press_space; idle] ++
  replicate 6 hold_left ++ [idle] ++ replicate 7 hold_left ++ [idle] ++
  replicate 7 hold_left ++ [idle] ++ replicate 7 hold_left ++ [idle] ++
  replicate 7 hold_left ++ [idle] ++ replicate 7 hold_left ++ [idle] ++
  replicate 7 hold_left ++ [idle] ++ replicate 195 hold_left ++ [space_left] ++
  replicate 22 hold_left ++ replicate 4 idle ++ [hold_right] ++
  replicate 13 idle ++ [hold_right] ++ replicate 12 idle ++ [hold_right] ++
  replicate 12 idle ++ [hold_right] ++ replicate 13 idle ++ [hold_right] ++
  replicate 12 idle ++ [hold_right] ++ replicate 12 idle ++ [hold_right] ++
  replicate 13 idle ++ [hold_right] ++ replicate 3 idle ++ [press_space] ++
  replicate 8 idle ++ [hold_right] ++ replicate 6 idle ++
  replicate 14 hold_right ++ replicate 27 idle ++ replicate 19 hold_right ++
  [idle] ++ replicate 7 hold_right ++ [idle] ++ replicate 7 hold_right ++
  [idle] ++ replicate 7 hold_right ++ [idle] ++ replicate 7 hold_right ++
  [idle] ++ replicate 16 hold_left ++ [space_left] ++ replicate 12 hold_left.

Definition relaunch_draws : list Z :=
  [0; 0; 99; 0; 1; 0; 0; 99; 99; 99; 0; 99; 99; 0; 0; 0; 0].

(** After these 516 frames the second MultiBall powerup is one frame above
    the paddle; the next frame collects it. *)
Definition relaunch_before : Game := run Arkanoid_c relaunch_run (fresh relaunch_draws).

Definition relaunch_state : Game := update_game Arkanoid_c hold_left relaunch_before.

(** The paddle goes right, the ball is launched to the left, and the paddle
    runs to the left wall, where it meets the ball again. *)
Definition corner_run : list Input :=
  press_enter :: replicate 42 hold_right ++ press_space :: replicate 115 hold_left.

Definition corner_state : Game := run Arkanoid_c corner_run (fresh [0]).

(** Three balls in a row are launched and missed: 377 frames lead from the
    start of a game to its end screen. *)
Definition losing_run : list Input :=
  space_left :: replicate 124 hold_left ++
  space_left :: replicate 124 hold_left ++
  space_left :: replicate 126 hold_left.

(** The state that enters the life-loss step of frame 251 of a run in which
    two balls are launched and missed. *)
Definition second_loss_state : Game :=
  before_ball Arkanoid_c BALLS_MAX hold_left
    (run Arkanoid_c
       (press_enter :: space_left :: replicate 124 hold_left ++
        space_left :: replicate 123 hold_left)
       (fresh [1; 99; 1])).

(** ** Concrete states *)

(** A full powerup pool, and a pool whose slots 0 and 1 are taken. *)
Definition full_pool_state : Game :=
  set_powerups (replicate POWERUPS_MAX
                  (Powerup.mk (Vector2.mk 55 200) (Vector2.mk 0 2) POWERUP_EXPAND true))
               (fresh [65]).

Definition two_taken_state : Game :=
  set_powerup 1 (Powerup.mk (Vector2.mk 55 200) (Vector2.mk 0 2) POWERUP_EXPAND true)
    (set_powerup 0 (Powerup.mk (Vector2.mk 151 200) (Vector2.mk 0 2) POWERUP_EXPAND true)
       (fresh [65])).

(** A ball coming down on the very centre of the paddle of a fresh game. *)
Definition center_hit_state : Game :=
  set_ball 0 (Ball.mk (Vector2.mk 480 663) (Vector2.mk 7 7) 12 true) (fresh []).

(** A ball coming down one pixel to the right of that centre. *)
Definition off_center_state : Game :=
  set_ball 0 (Ball.mk (Vector2.mk 481 663) (Vector2.mk 7 7) 12 true) (fresh []).

(** A ball that has just crossed the left wall in the top-left corner. *)
Definition wall_hit_state : Game :=
  set_ball 0 (Ball.mk (Vector2.mk 10 9) (Vector2.mk (-7) (-7)) 12 true) (fresh []).

(** ** Which globals a step writes *)

(** One flag per global that the simulation writes, the paddle in three
    parts; [true]: the step may write it. *)
Record t_writes := mk_writes {
  w_pos : bool;          (* player.pos *)
  w_width : bool;        (* player.size, player.expanded, player.expand_timer *)
  w_life : bool;         (* player.life *)
  w_balls : bool;
  w_ballsCount : bool;
  w_bricks : bool;
  w_gameState : bool;
  w_score : bool;
  w_powerups : bool;
  w_waiting : bool;
  w_rnd_pos : bool
}.

Definition writes_le (a b : t_writes) : bool :=
  implb (w_pos a) (w_pos b) && implb (w_width a) (w_width b) &&
  implb (w_life a) (w_life b) && implb (w_balls a) (w_balls b) &&
  implb (w_ballsCount a) (w_ballsCount b) && implb (w_bricks a) (w_bricks b) &&
  implb (w_gameState a) (w_gameState b) && implb (w_score a) (w_score b) &&
  implb (w_powerups a) (w_powerups b) && implb (w_waiting a) (w_waiting b) &&
  implb (w_rnd_pos a) (w_rnd_pos b).

(** From [g] to [g'] the globals outside [w] are what they were; the paddle
    speed, the brick size, the pause flag and the random stream are never
    written by a step of the simulation. *)
Record keeps (w : t_writes) (g g' : Game) : Prop := mk_keeps {
  k_pos : w_pos w = false -> Player.pos (player g') = Player.pos (player g);
  k_size : w_width w = false -> Player.size (player g') = Player.size (player g);
  k_expanded : w_width w = false ->
    Player.expanded (player g') = Player.expanded (player g);
  k_timer : w_width w = false ->
    Player.expand_timer (player g') = Player.expand_timer (player g);
  k_life : w_life w = false -> Player.life (player g') = Player.life (player g);
  k_speed : Player.speed (player g') = Player.speed (player g);
  k_balls : w_balls w = false -> balls g' = balls g;
  k_ballsCount : w_ballsCount w = false -> ballsCount g' = ballsCount g;
  k_bricks : w_bricks w = false -> bricks g' = bricks g;
  k_gameState : w_gameState w = false -> gameState g' = gameState g;
  k_score : w_score w = false -> score g' = score g;
  k_powerups : w_powerups w = false -> powerups g' = powerups g;
  k_waiting : w_waiting w = false -> waiting_for_launch g' = waiting_for_launch g;
  k_rnd_pos : w_rnd_pos w = false -> rnd_pos g' = rnd_pos g;
  k_brickSize : brickSize g' = brickSize g;
  k_pause : pause g' = pause g;
  k_rnd : rnd g' = rnd g
}.

(** The write sets of the steps:     pos   width life  balls count bricks state score pups  wait  rnd *)
Definition W_move_player := mk_writes true  false false false false false false false false false false.
Definition W_expand_decay := mk_writes false true false false false false false false false false false.
Definition W_ball := mk_writes        false false false true  false false false false false false false.
Definition W_ball_pool := mk_writes   false false false true  true  false false false false false false.
Definition W_spawn := mk_writes       false false false false false false false false true  false true.
Definition W_clone := mk_writes       false false false true  true  false false false false false true.
Definition W_apply := mk_writes       false true  true  true  true  false false false false false true.
Definition W_bricks := mk_writes      false false false true  false true  false true  true  false true.
Definition W_update_ball := mk_writes false false false true  true  true  false true  true  false true.
Definition W_launch := mk_writes      false false false true  false false false false false true  true.
Definition W_lose_life := mk_writes   false false true  true  true  false true  false false true  false.
Definition W_powerups := mk_writes    false true  true  true  true  false false false true  false true.
Definition W_check_win := mk_writes   false false false false false false true  false false false false.

(** The write set of an un-paused frame up to the end of the loop over the
    balls. *)
Definition W_physics := mk_writes     true  true  false true  true  true  false true  true  true  true.

(** A whole un-paused frame. *)
Definition W_simulate := mk_writes    true  true  true  true  true  true  true  true  true  true  true.

(** Everything but the paddle position. *)
Definition W_after_move := mk_writes  false true  true  true  true  true  true  true  true  true  true.

(** Steps that leave the balls, their counter and the launch flag alone. *)
Definition W_no_balls := mk_writes    true  true  true  false false true  true  true  true  false true.

(** ** Points *)

(** The points scored plus the points still on the board. *)
Definition tally (g : Game) : Z := score g + 100 * Z.of_nat (active_bricks g).

(** ** The paddle *)

(** [q] is a value of type [float]. *)
Definition binary32 (q : Q) : Prop := (F32.round q == q)%Q.

(** The paddle as every frame leaves it: not left of the screen, its first
    140 pixels on the screen, 140 wide or, expanded, 210, moving 8 a frame;
    while it is expanded, time is left on the timer. *)
Definition paddle_ok (g : Game) : Prop :=
  (0 <= Vector2.x (Player.pos (player g)))%Q /\
  (Vector2.x (Player.pos (player g)) + 140 <= inject_Z screenWidth)%Q /\
  Vector2.x (Player.size (player g)) = (if Player.expanded (player g) then 210 else 140)%Q /\
  Player.speed (player g) = 8%Q /\
  (Player.expanded (player g) = true -> (0 < Player.expand_timer (player g))%Q).

(** ** The balls *)

(** From [g] to [g']: balls were cloned into free slots, the counter going
    up by one per clone and not beyond 3; no ball in flight was touched. *)
Record cloned (g g' : Game) : Prop := mk_cloned {
  cl_length : length (balls g') = length (balls g);
  cl_count : ballsCount g <= ballsCount g';
  cl_cap : ballsCount g' <= Z.max (ballsCount g) 3;
  cl_active :
    Z.of_nat (active_balls g') = Z.of_nat (active_balls g) + (ballsCount g' - ballsCount g);
  cl_kept : forall k, Ball.active (ball g k) = true -> ball g' k = ball g k
}.

(** Ball [x] is ball [a] somewhere else, perhaps with another horizontal
    speed and its vertical speed negated. *)
Definition steady (a x : Ball.t) : Prop :=
  Ball.radius x = Ball.radius a /\
  Ball.active x = Ball.active a /\
  (Vector2.y (Ball.spd x) = Vector2.y (Ball.spd a) \/
   Vector2.y (Ball.spd x) = flip (Vector2.y (Ball.spd a))).

(** The ball bookkeeping: five slots; the counter at most 3; before a launch
    no ball in flight and one ball counted; after it no more balls counted
    than are in flight. *)
Definition ball_book (g : Game) : Prop :=
  length (balls g) = BALLS_MAX /\
  ballsCount g <= 3 /\
  (if waiting_for_launch g
   then active_balls g = 0%nat /\ ballsCount g = 1
   else ballsCount g <= Z.of_nat (active_balls g)).

(** A ball as the game launches and keeps it: radius 12, and the vertical
    speed of the launch up to its sign. *)
Definition ball_ok (tune : t_tuning) (a : Ball.t) : Prop :=
  Ball.radius a = 12%Q /\
  (Vector2.y (Ball.spd a) = flt (launch_spd_y tune) \/
   Vector2.y (Ball.spd a) = flt (- launch_spd_y tune)).

(** Every ball in flight is such a ball, and the ball of slot 0 has its
    radius also while it waits. *)
Definition balls_ok (tune : t_tuning) (g : Game) : Prop :=
  length (balls g) = BALLS_MAX /\
  Ball.radius (ball g 0) = 12%Q /\
  forall k, Ball.active (ball g k) = true -> ball_ok tune (ball g k).

(** ** The powerups *)

(** Powerup [p] one frame further down. *)
Definition fallen (p : Powerup.t) : Powerup.t :=
  Powerup.set_pos (Vector2.set_y (Vector2.y (Powerup.pos p) +. Vector2.y (Powerup.spd p))
                                 (Powerup.pos p)) p.

(** Every powerup on its way falls straight down, 2 a frame. *)
Definition powerups_ok (g : Game) : Prop :=
  forall i, Powerup.active (powerup g i) = true ->
            Powerup.spd (powerup g i) = Vector2.mk 0 2.

(** ** Pictures *)

(** The calls that draw a ball, and those that draw a brick. *)
Definition is_ball (d : t_draw) : bool :=
  match d with DrawCircleV _ _ _ => true | _ => false end.

Definition is_brick (d : t_draw) : bool :=
  match d with DrawRectangleRec _ _ => true | _ => false end.

(** The parts of the picture of a game that is on: one bar for each life,
    one circle for each ball in flight, one rectangle for each brick on the
    board, one icon for each powerup on its way. *)
Definition lives_bar (g : Game) : list t_draw :=
  seq 0 (Z.to_nat (Player.life (player g))) ≫= fun i =>
    [DrawRectangle (20 + 44 * Z.of_nat i) (screenHeight - 30) 36 11 LIGHTGRAY].

Definition ball_circles (g : Game) : list t_draw :=
  seq 0 BALLS_MAX ≫= fun b =>
    if Ball.active (ball g b)
    then [DrawCircleV (Ball.pos (ball g b)) (Ball.radius (ball g b)) MAROON] else [].

Definition brick_rects (g : Game) : list t_draw :=
  scan_order ≫= fun c =>
    if Brick.active (brick g c.1 c.2)
    then [DrawRectangleRec (Brick.rect (brick g c.1 c.2)) (brick_color c.1 c.2)] else [].

Definition powerup_icons (g : Game) : list t_draw :=
  seq 0 POWERUPS_MAX ≫= fun i =>
    if Powerup.active (powerup g i)
    then draw_powerup_icon (Powerup.type (powerup g i)) (Powerup.pos (powerup g i))
    else [].

(** * Properties *)

(** ** Arithmetic *)

Lemma F_add_eq (a b : Q) : (a +. b == a + b)%Q.
Proof. apply Qred_correct. Qed.

Lemma F_sub_eq (a b : Q) : (a -. b == a - b)%Q.
Proof. apply Qred_correct. Qed.

Lemma F_mul_eq (a b : Q) : (a *. b == a * b)%Q.
Proof. apply Qred_correct. Qed.

Lemma F_div_eq (a b : Q) : (a /. b == a / b)%Q.
Proof. apply Qred_correct. Qed.

Lemma F_leb_le (a b : Q) : (a <=. b) = true <-> (a <= b)%Q.
Proof. apply Qle_bool_iff. Qed.

Lemma F_ltb_ge (a b : Q) : (a <. b) = false <-> (b <= a)%Q.
Proof. unfold F.ltb. rewrite negb_false_iff. apply Qle_bool_iff. Qed.

(** ** Array cells *)

Lemma ball_set_ball_eq (i : nat) (b : Ball.t) (g : Game) :
  (i < length (balls g))%nat -> ball (set_ball i b g) i = b.
Proof. intros H. unfold ball, set_ball. simpl. by apply list_lookup_total_insert_eq. Qed.

Lemma ball_set_ball_ne (i j : nat) (b : Ball.t) (g : Game) :
  i <> j -> ball (set_ball i b g) j = ball g j.
Proof. intros H. unfold ball, set_ball. simpl. by apply list_lookup_total_insert_ne. Qed.

Lemma brick_set_brick_eq (yy xx : nat) (b : Brick.t) (g : Game) :
  (yy < length (bricks g))%nat -> (xx < length (bricks g !!! yy))%nat ->
  brick (set_brick yy xx b g) yy xx = b.
Proof.
  intros Hy Hx. unfold brick, set_brick. simpl.
  rewrite list_lookup_total_insert_eq by done. by apply list_lookup_total_insert_eq.
Qed.

Lemma brick_set_brick_ne (yy xx y x : nat) (b : Brick.t) (g : Game) :
  (yy, xx) <> (y, x) -> brick (set_brick yy xx b g) y x = brick g y x.
Proof.
  intros Hne. unfold brick, set_brick. simpl.
  destruct (decide (yy = y)) as [->|Hy].
  - destruct (decide (y < length (bricks g))%nat) as [Hlt|Hge].
    + rewrite list_lookup_total_insert_eq by done.
      apply list_lookup_total_insert_ne. congruence.
    + rewrite list_insert_ge; [done|lia].
  - by rewrite list_lookup_total_insert_ne.
Qed.

Lemma brick_set_brick_cases (yy xx y x : nat) (b : Brick.t) (g : Game) :
  brick (set_brick yy xx b g) y x = b \/ brick (set_brick yy xx b g) y x = brick g y x.
Proof.
  destruct (decide ((yy, xx) = (y, x))) as [[= -> ->]|Hne];
    [|right; by apply brick_set_brick_ne].
  destruct (decide (y < length (bricks g))%nat) as [Hy|Hy].
  - destruct (decide (x < length (bricks g !!! y))%nat) as [Hx|Hx].
    + left. by apply brick_set_brick_eq.
    + right. unfold brick, set_brick. simpl.
      rewrite list_lookup_total_insert_eq by done. rewrite list_insert_ge; [done|lia].
  - right. unfold brick, set_brick. simpl. rewrite list_insert_ge; [done|lia].
Qed.

Lemma bricks_shape_set_brick (yy xx : nat) (b : Brick.t) (g : Game) :
  length <$> bricks (set_brick yy xx b g) = length <$> bricks g.
Proof.
  unfold set_brick. simpl. rewrite list_fmap_insert, length_insert.
  destruct (decide (yy < length (bricks g))%nat) as [Hlt|Hge].
  - apply list_insert_id. rewrite list_lookup_fmap.
    destruct (lookup_lt_is_Some_2 (bricks g) yy Hlt) as [row Hrow].
    rewrite Hrow. simpl. by rewrite (list_lookup_total_correct _ _ _ Hrow).
  - apply list_insert_ge. rewrite length_fmap. lia.
Qed.

(** ** Frame lemmas *)

Lemma brick_set_brick_inv (yy xx y x : nat) (b : Brick.t) (g : Game) :
  (y = yy /\ x = xx /\ brick (set_brick yy xx b g) y x = b) \/
  brick (set_brick yy xx b g) y x = brick g y x.
Proof.
  destruct (decide ((yy, xx) = (y, x))) as [[= -> ->]|Hne];
    [|right; by apply brick_set_brick_ne].
  destruct (brick_set_brick_cases y x y x b g); auto.
Qed.

Lemma frame_refl (g : Game) : frame g g.
Proof. by split. Qed.

Lemma frame_trans (g1 g2 g3 : Game) : frame g1 g2 -> frame g2 g3 -> frame g1 g3.
Proof.
  intros [] []. split; try congruence; intros; try etrans; eauto.
Qed.

Lemma sframe_refl (g : Game) : sframe g g.
Proof. split; [apply frame_refl|done]. Qed.

Lemma frame_set_gameState (s : t_gamestate) (g h : Game) :
  frame g h -> frame g (set_gameState s h).
Proof. intros []. by split. Qed.

Ltac setter_sframe :=
  let H := fresh in
  intros [[] H]; split; [split|]; simpl; rewrite ?length_insert; auto.

Lemma sframe_set_ball (i : nat) (b : Ball.t) (g h : Game) :
  sframe g h -> sframe g (set_ball i b h).
Proof. setter_sframe. Qed.

Lemma sframe_set_powerup (i : nat) (p : Powerup.t) (g h : Game) :
  sframe g h -> sframe g (set_powerup i p h).
Proof. setter_sframe. Qed.

Lemma sframe_set_ballsCount (v : Z) (g h : Game) :
  sframe g h -> sframe g (set_ballsCount v h).
Proof. setter_sframe. Qed.

Lemma sframe_set_score (v : Z) (g h : Game) : sframe g h -> sframe g (set_score v h).
Proof. setter_sframe. Qed.

Lemma sframe_set_pause (v : bool) (g h : Game) : sframe g h -> sframe g (set_pause v h).
Proof. setter_sframe. Qed.

Lemma sframe_set_waiting_for_launch (v : bool) (g h : Game) :
  sframe g h -> sframe g (set_waiting_for_launch v h).
Proof. setter_sframe. Qed.

Lemma sframe_set_rnd_pos (v : nat) (g h : Game) : sframe g h -> sframe g (set_rnd_pos v h).
Proof. setter_sframe. Qed.

Lemma sframe_set_player (p : Player.t) (g h : Game) :
  Vector2.y (Player.pos p) = Vector2.y (Player.pos (player h)) ->
  Vector2.y (Player.size p) = Vector2.y (Player.size (player h)) ->
  sframe g h -> sframe g (set_player p h).
Proof. intros Hp Hs. setter_sframe; congruence. Qed.

Lemma sframe_deactivate (yy xx : nat) (g h : Game) :
  sframe g h -> sframe g (set_brick yy xx (Brick.set_active false (brick h yy xx)) h).
Proof.
  intros [[] Hst]. split; [split|]; try done.
  - by rewrite bricks_shape_set_brick.
  - intros y x.
    destruct (brick_set_brick_inv yy xx y x (Brick.set_active false (brick h yy xx)) h)
      as [(-> & -> & ->)| ->]; simpl; auto.
  - intros y x.
    destruct (brick_set_brick_inv yy xx y x (Brick.set_active false (brick h yy xx)) h)
      as [(-> & -> & ->)| ->]; simpl; auto. done.
Qed.

Lemma sframe_let (g e : Game) (k : Game -> Game) :
  sframe g e -> (forall h, sframe g h -> sframe g (k h)) -> sframe g (let x := e in k x).
Proof. intros He Hk. by apply Hk. Qed.

Lemma sframe_fold {B : Type} (f : Game -> B -> Game) (l : list B) :
  (forall g h b, sframe g h -> sframe g (f h b)) ->
  forall g h, sframe g h -> sframe g (fold_left f l h).
Proof. intros Hf g. induction l as [|b l IH]; simpl; auto. Qed.

(** The goal is a hypothesis or an instance of reflexivity, syntactically. *)
Ltac sframe_here :=
  match goal with
  | |- sframe ?g ?h => constr_eq g h; apply sframe_refl
  | H : sframe ?a ?b |- sframe ?c ?d => constr_eq a c; constr_eq b d; exact H
  end.

Create HintDb sframe.
(** The hints are keyed on the head symbol, so that no function is unfolded
    while a lemma is looked for. *)
#[export] Hint Extern 0 (sframe _ _) => sframe_here : sframe.
#[export] Hint Extern 1 (sframe _ (set_ball _ _ _)) => apply sframe_set_ball : sframe.
#[export] Hint Extern 1 (sframe _ (set_powerup _ _ _)) => apply sframe_set_powerup : sframe.
#[export] Hint Extern 1 (sframe _ (set_ballsCount _ _)) => apply sframe_set_ballsCount : sframe.
#[export] Hint Extern 1 (sframe _ (set_score _ _)) => apply sframe_set_score : sframe.
#[export] Hint Extern 1 (sframe _ (set_pause _ _)) => apply sframe_set_pause : sframe.
#[export] Hint Extern 1 (sframe _ (set_waiting_for_launch _ _)) => apply sframe_set_waiting_for_launch : sframe.
#[export] Hint Extern 1 (sframe _ (set_rnd_pos _ _)) => apply sframe_set_rnd_pos : sframe.
#[export] Hint Extern 1 (sframe _ (set_brick _ _ (Brick.set_active false _) _)) =>
  apply sframe_deactivate : sframe.
#[export] Hint Extern 1 (sframe _ (set_player _ _)) =>
  apply sframe_set_player; [reflexivity | reflexivity | ] : sframe.

(** Walks through a function body made of setters, [let]s and [if]s. *)
Ltac sframe_go :=
  cbv beta iota delta [GetRandomValue rand];
  first [ sframe_here |
  lazymatch goal with
  | |- sframe ?g (let x := ?e in @?k x) =>
      first [ apply (sframe_let g e k);
                [sframe_go | let h := fresh "h" in intros h ?; sframe_go]
            | change (sframe g (k e)); sframe_go ]
  | |- sframe _ (if ?c then _ else _) => destruct c; sframe_go
  | |- sframe _ (set_ball _ _ _) => apply sframe_set_ball; sframe_go
  | |- sframe _ (set_powerup _ _ _) => apply sframe_set_powerup; sframe_go
  | |- sframe _ (set_ballsCount _ _) => apply sframe_set_ballsCount; sframe_go
  | |- sframe _ (set_score _ _) => apply sframe_set_score; sframe_go
  | |- sframe _ (set_pause _ _) => apply sframe_set_pause; sframe_go
  | |- sframe _ (set_waiting_for_launch _ _) =>
      apply sframe_set_waiting_for_launch; sframe_go
  | |- sframe _ (set_rnd_pos _ _) => apply sframe_set_rnd_pos; sframe_go
  | |- sframe _ (set_player _ _) =>
      apply sframe_set_player; [reflexivity | reflexivity | sframe_go]
  | |- sframe _ (set_brick _ _ (Brick.set_active false _) _) =>
      apply sframe_deactivate; sframe_go
  | |- sframe _ (fold_left _ _ _) =>
      apply sframe_fold; [let h := fresh "h" in intros ? h ? ?; sframe_go | sframe_go]
  | |- _ => solve [eauto with sframe]
  end ].

Lemma sframe_spawn_slot (slots : list nat) (pos : Vector2.t) (type : t_powerup_type)
    (g h : Game) :
  sframe g h -> sframe g (spawn_slot slots pos type h).
Proof. intros H. induction slots as [|i rest IH]; simpl; sframe_go. Qed.
#[export] Hint Extern 1 (sframe _ (spawn_slot _ _ _ _)) => apply sframe_spawn_slot : sframe.

Lemma sframe_spawn_powerup (pos : Vector2.t) (g h : Game) :
  sframe g h -> sframe g (spawn_powerup pos h).
Proof. intros H. cbv beta delta [spawn_powerup]. sframe_go. Qed.
#[export] Hint Extern 1 (sframe _ (spawn_powerup _ _)) => apply sframe_spawn_powerup : sframe.

Lemma sframe_clone_ball (i j : nat) (g h : Game) :
  sframe g h -> sframe g (clone_ball i j h).
Proof. intros H. cbv beta delta [clone_ball]. sframe_go. Qed.
#[export] Hint Extern 1 (sframe _ (clone_ball _ _ _)) => apply sframe_clone_ball : sframe.

Lemma sframe_multi_ball_slot (i : nat) (slots : list nat) (g h : Game) :
  sframe g h -> sframe g (multi_ball_slot i slots h).
Proof. intros H. induction slots as [|j rest IH]; simpl; sframe_go. Qed.
#[export] Hint Extern 1 (sframe _ (multi_ball_slot _ _ _)) => apply sframe_multi_ball_slot : sframe.

Lemma sframe_multi_ball (idxs : list nat) (g h : Game) :
  sframe g h -> sframe g (multi_ball idxs h).
Proof.
  revert h. induction idxs as [|i rest IH]; simpl; intros h H; [done|].
  destruct (ballsCount h <? 3); [|done]. apply IH. sframe_go.
Qed.
#[export] Hint Extern 1 (sframe _ (multi_ball _ _)) => apply sframe_multi_ball : sframe.

Lemma sframe_apply_powerup (type : t_powerup_type) (g h : Game) :
  sframe g h -> sframe g (apply_powerup type h).
Proof. intros H. destruct type; unfold apply_powerup; sframe_go. Qed.
#[export] Hint Extern 1 (sframe _ (apply_powerup _ _)) => apply sframe_apply_powerup : sframe.

Lemma sframe_reset_balls (pos : Vector2.t) (g h : Game) :
  sframe g h -> sframe g (reset_balls pos h).
Proof. intros H. cbv beta delta [reset_balls]. sframe_go. Qed.
#[export] Hint Extern 1 (sframe _ (reset_balls _ _)) => apply sframe_reset_balls : sframe.

Lemma sframe_move_player (inp : Input) (g h : Game) :
  sframe g h -> sframe g (move_player inp h).
Proof. intros H. cbv beta delta [move_player set_player_x]. sframe_go. Qed.
#[export] Hint Extern 1 (sframe _ (move_player _ _)) => apply sframe_move_player : sframe.

Lemma sframe_expand_decay (inp : Input) (g h : Game) :
  sframe g h -> sframe g (expand_decay inp h).
Proof. intros H. cbv beta delta [expand_decay]. sframe_go. Qed.
#[export] Hint Extern 1 (sframe _ (expand_decay _ _)) => apply sframe_expand_decay : sframe.

Lemma sframe_ball_lost (b : nat) (g h : Game) : sframe g h -> sframe g (ball_lost b h).
Proof. intros H. cbv beta delta [ball_lost]. sframe_go. Qed.
#[export] Hint Extern 1 (sframe _ (ball_lost _ _)) => apply sframe_ball_lost : sframe.

Lemma sframe_hit_brick (b yy xx : nat) (g h : Game) :
  sframe g h -> sframe g (hit_brick b yy xx h).
Proof. intros H. cbv beta delta [hit_brick set_ball_spd_y]. sframe_go. Qed.
#[export] Hint Extern 1 (sframe _ (hit_brick _ _ _ _)) => apply sframe_hit_brick : sframe.

Lemma sframe_ball_bricks (b : nat) (g h : Game) : sframe g h -> sframe g (ball_bricks b h).
Proof. intros H. cbv beta delta [ball_bricks]. sframe_go. Qed.
#[export] Hint Extern 1 (sframe _ (ball_bricks _ _)) => apply sframe_ball_bricks : sframe.

Lemma sframe_ball_move (b : nat) (g h : Game) : sframe g h -> sframe g (ball_move b h).
Proof. intros H. cbv beta delta [ball_move set_ball_pos_x set_ball_pos_y]. sframe_go. Qed.
#[export] Hint Extern 1 (sframe _ (ball_move _ _)) => apply sframe_ball_move : sframe.

Lemma sframe_ball_walls (b : nat) (g h : Game) : sframe g h -> sframe g (ball_walls b h).
Proof. intros H. cbv beta delta [ball_walls set_ball_spd_x set_ball_spd_y]. sframe_go. Qed.
#[export] Hint Extern 1 (sframe _ (ball_walls _ _)) => apply sframe_ball_walls : sframe.

Lemma sframe_update_powerup (i : nat) (g h : Game) :
  sframe g h -> sframe g (update_powerup i h).
Proof. intros H. cbv beta delta [update_powerup]. sframe_go. Qed.
#[export] Hint Extern 1 (sframe _ (update_powerup _ _)) => apply sframe_update_powerup : sframe.

Lemma sframe_update_powerups (g h : Game) : sframe g h -> sframe g (update_powerups h).
Proof. intros H. cbv beta delta [update_powerups]. sframe_go. Qed.
#[export] Hint Extern 1 (sframe _ (update_powerups _)) => apply sframe_update_powerups : sframe.

Lemma sframe_launch_ball (tune : t_tuning) (inp : Input) (g h : Game) :
  sframe g h -> sframe g (launch_ball tune inp h).
Proof. intros H. cbv beta delta [launch_ball set_ball_pos_x set_ball_pos_y]. sframe_go. Qed.
#[export] Hint Extern 1 (sframe _ (launch_ball _ _ _)) => apply sframe_launch_ball : sframe.

Lemma sframe_ball_paddle (tune : t_tuning) (b : nat) (g h : Game) :
  sframe g h -> sframe g (ball_paddle tune b h).
Proof. intros H. cbv beta delta [ball_paddle set_ball_spd_x set_ball_spd_y]. sframe_go. Qed.
#[export] Hint Extern 1 (sframe _ (ball_paddle _ _ _)) => apply sframe_ball_paddle : sframe.

Lemma sframe_update_ball (tune : t_tuning) (b : nat) (g h : Game) :
  sframe g h -> sframe g (update_ball tune b h).
Proof. intros H. cbv beta delta [update_ball]. sframe_go. Qed.
#[export] Hint Extern 1 (sframe _ (update_ball _ _ _)) => apply sframe_update_ball : sframe.

Lemma sframe_update_balls (tune : t_tuning) (g h : Game) :
  sframe g h -> sframe g (update_balls tune h).
Proof. intros H. cbv beta delta [update_balls]. sframe_go. Qed.
#[export] Hint Extern 1 (sframe _ (update_balls _ _)) => apply sframe_update_balls : sframe.

(** The sub-steps that may change the phase. *)

Lemma lose_life_cases (g : Game) :
  lose_life g = g \/
  lose_life g =
    set_gameState GAME_OVER
      (set_player (Player.set_life (Player.life (player g) - 1) (player g)) g) \/
  exists h, sframe g h /\ lose_life g = set_waiting_for_launch true h.
Proof.
  unfold lose_life.
  destruct (_ && _); [|by left].
  cbv zeta. destruct (_ <=? 0).
  - right; left. done.
  - right; right. eexists; split; [|reflexivity]. sframe_go.
Qed.

Lemma frame_lose_life (g : Game) : frame g (lose_life g).
Proof.
  destruct (lose_life_cases g) as [-> | [-> | (h & [Hh _] & ->)]].
  - apply frame_refl.
  - by split.
  - destruct Hh. by split.
Qed.

Lemma frame_check_win (g : Game) : frame g (check_win g).
Proof. unfold check_win. cbv zeta. destruct (negb _); [by split|apply frame_refl]. Qed.

Lemma frame_simulate (tune : t_tuning) (inp : Input) (g : Game) :
  frame g (simulate tune inp g).
Proof.
  unfold simulate. cbv zeta.
  eapply frame_trans; [|apply frame_check_win].
  eapply frame_trans; [|apply (sframe_update_powerups _ _ (sframe_refl _))].
  eapply frame_trans; [|apply frame_lose_life].
  assert (sframe g (update_balls tune (launch_ball tune inp
            (expand_decay inp (move_player inp g))))) as [H _] by sframe_go.
  exact H.
Qed.

(** Outside the title screen a frame is a [frame]. *)
Lemma frame_update_game (tune : t_tuning) (inp : Input) (g : Game) :
  gameState g <> GAME_TITLE -> frame g (update_game tune inp g).
Proof.
  intros Hst. unfold update_game.
  destruct (gameState g) eqn:E; [done| | |];
    try (destruct (_ || _); [by apply frame_set_gameState, frame_refl|apply frame_refl]).
  cbv zeta. destruct (key_p inp).
  - destruct (negb _); [|by split].
    eapply frame_trans; [|apply frame_simulate]. by split.
  - destruct (negb _); [apply frame_simulate|apply frame_refl].
Qed.

(** ** init_game *)

Lemma list_of_length_5 {A : Type} (l : list A) :
  length l = 5%nat -> exists a b c d e, l = [a; b; c; d; e].
Proof.
  intros H. do 5 (destruct l as [|? l]; [discriminate H|]).
  destruct l; [|discriminate H]. by do 5 eexists.
Qed.

Lemma list_of_length_10 {A : Type} (l : list A) :
  length l = 10%nat ->
  exists a b c d e a' b' c' d' e', l = [a; b; c; d; e; a'; b'; c'; d'; e'].
Proof.
  intros H. do 10 (destruct l as [|? l]; [discriminate H|]).
  destruct l; [|discriminate H]. by do 10 eexists.
Qed.

Ltac explode_row r :=
  let H := fresh in
  assert (H : length r = 10%nat) by assumption;
  apply list_of_length_10 in H;
  destruct H as (? & ? & ? & ? & ? & ? & ? & ? & ? & ? & ->).

(** A well-formed state, taken apart down to its array cells. *)
Ltac explode_game g Hwf :=
  let Hb := fresh in
  let Hp := fresh in
  let Hk := fresh in
  destruct Hwf as (Hb & Hp & Hk);
  destruct g as [? bl ? br ? ? ? ? pu ? ? ?];
  cbn [balls powerups bricks] in Hb, Hp, Hk;
  apply list_of_length_5 in Hb; destruct Hb as (? & ? & ? & ? & ? & ->);
  apply list_of_length_10 in Hp;
  destruct Hp as (? & ? & ? & ? & ? & ? & ? & ? & ? & ? & ->);
  change (replicate LINES_OF_BRICKS BRICKS_PER_LINE) with [10; 10; 10; 10; 10]%nat in Hk;
  destruct br as [|r0 [|r1 [|r2 [|r3 [|r4 [|]]]]]]; try discriminate Hk;
  simpl in Hk; injection Hk as ? ? ? ? ?;
  explode_row r0; explode_row r1; explode_row r2; explode_row r3; explode_row r4.

Lemma init_game_spec (g : Game) :
  well_formed g ->
  let g' := init_game g in
  well_formed g' /\
  gameState g' = gameState g /\
  player g' = fresh_player /\
  (forall i, Ball.active (ball g' i) = false) /\
  ballsCount g' = 1 /\
  ball g' 0 = fresh_ball /\
  bricks g' = fresh_bricks /\
  (forall i, Powerup.active (powerup g' i) = false) /\
  score g' = 0 /\
  pause g' = false /\
  waiting_for_launch g' = true /\
  brickSize g' = Vector2.mk 96 38.
Proof.
  intros Hwf. explode_game g Hwf.
  vm_compute. repeat split; try reflexivity.
  - intros i. do 5 (destruct i as [|i]; [reflexivity|]). reflexivity.
  - intros i. do 10 (destruct i as [|i]; [reflexivity|]). reflexivity.
Qed.

(** ** The scan order and the win check *)

Lemma elem_of_scan_order (y x : nat) :
  (y, x) ∈ scan_order <-> (y < LINES_OF_BRICKS)%nat /\ (x < BRICKS_PER_LINE)%nat.
Proof.
  unfold scan_order. rewrite list_elem_of_bind. split.
  - intros (yy & Hin & Hyy). apply list_elem_of_bind in Hin as (xx & Hin & Hxx).
    apply list_elem_of_singleton in Hin as [= -> ->].
    apply elem_of_seq in Hyy, Hxx. lia.
  - intros [Hy Hx]. exists y. split; [|apply elem_of_seq; lia].
    apply list_elem_of_bind. exists x. split; [by apply list_elem_of_singleton|].
    apply elem_of_seq. lia.
Qed.

Lemma NoDup_scan_order : NoDup scan_order.
Proof. apply (bool_decide_unpack _). by vm_compute. Qed.

Lemma length_filter_zero {A : Type} (P : A -> Prop) `{!forall x, Decision (P x)}
    (l : list A) :
  length (filter P l) = 0%nat <-> forall x, x ∈ l -> ~ P x.
Proof.
  induction l as [|a l IH].
  - split; [|done]. intros _ x Hx. by apply not_elem_of_nil in Hx.
  - rewrite filter_cons. destruct (decide (P a)) as [Ha|Ha]; simpl.
    + split; [done|]. intros Hall. exfalso. apply (Hall a); [left|done].
    + rewrite IH. split.
      * intros Hall x [->|Hx]%elem_of_cons; auto.
      * intros Hall x Hx. apply Hall. by right.
Qed.

Lemma active_bricks_zero (g : Game) :
  active_bricks g = 0%nat <->
  forall y x, (y < LINES_OF_BRICKS)%nat -> (x < BRICKS_PER_LINE)%nat ->
              Brick.active (brick g y x) = false.
Proof.
  unfold active_bricks. rewrite length_filter_zero. split.
  - intros H y x Hy Hx. apply not_true_is_false.
    apply (H (y, x)). by apply elem_of_scan_order.
  - intros H [y x] [Hy Hx]%elem_of_scan_order. simpl. rewrite H; auto.
Qed.

Lemma fold_left_or {A : Type} (step : bool -> A -> bool) (Q : A -> Prop) (l : list A) :
  (forall acc x, step acc x = true <-> acc = true \/ Q x) ->
  forall a, fold_left step l a = true <-> a = true \/ exists x, x ∈ l /\ Q x.
Proof.
  intros Hstep. induction l as [|b l IH]; intros a; simpl.
  - split; [auto|]. intros [H|(x & Hx & _)]; [done|]. by apply not_elem_of_nil in Hx.
  - rewrite IH, Hstep. split.
    + intros [[H|H]|(x & Hx & HQ)]; eauto.
      * right. exists b. split; [left|done].
      * right. exists x. split; [by right|done].
    + intros [H|(x & [->|Hx]%elem_of_cons & HQ)]; eauto.
Qed.

(** The flag [bricksLeft] of the win check. *)
Lemma check_win_spec (g : Game) :
  (active_bricks g = 0%nat /\ check_win g = set_gameState GAME_WIN g) \/
  (active_bricks g <> 0%nat /\ check_win g = g).
Proof.
  unfold check_win.
  set (left := fold_left _ _ _).
  assert (Hleft : left = true <->
            exists y, y ∈ seq 0 LINES_OF_BRICKS /\
              exists x, x ∈ seq 0 BRICKS_PER_LINE /\ Brick.active (brick g y x) = true).
  { unfold left. rewrite (fold_left_or _
      (fun y => exists x, x ∈ seq 0 BRICKS_PER_LINE /\ Brick.active (brick g y x) = true)).
    - split; [intros [?|?]; [done|auto]|auto].
    - intros acc y. rewrite (fold_left_or _ (fun x => Brick.active (brick g y x) = true));
        [done|].
      intros acc' x. destruct (Brick.active _), acc'; intuition. }
  destruct left.
  - right. split; [|done]. rewrite active_bricks_zero. intros H.
    destruct Hleft as [(y & Hy & x & Hx & Hact) _]; [done|].
    apply elem_of_seq in Hy, Hx. rewrite H in Hact; [done|lia|lia].
  - left. split; [|done]. apply active_bricks_zero. intros y x Hy Hx.
    apply not_true_is_false. intros Hact.
    assert (false = true) as [=]. apply Hleft.
    exists y. split; [apply elem_of_seq; lia|].
    exists x. split; [apply elem_of_seq; lia|done].
Qed.

(** ** Reachable states *)

Lemma frame_well_formed (g g' : Game) : frame g g' -> well_formed g -> well_formed g'.
Proof. intros [] (? & ? & ?). repeat split; congruence. Qed.

Lemma well_formed_boot (r : nat -> Z) : well_formed (boot r).
Proof. by repeat split. Qed.

Lemma gameState_lose_life (g : Game) :
  gameState g = GAME_PLAYING ->
  gameState (lose_life g) = GAME_PLAYING \/ gameState (lose_life g) = GAME_OVER.
Proof.
  intros Hst. destruct (lose_life_cases g) as [-> | [-> | (h & [_ Hh] & ->)]]; auto.
  left. simpl. congruence.
Qed.

(** The phase at the end of an un-paused frame, and the bricks left. *)
Lemma simulate_phase (tune : t_tuning) (inp : Input) (g : Game) :
  gameState g = GAME_PLAYING ->
  let g' := simulate tune inp g in
  (gameState g' = GAME_WIN /\ active_bricks g' = 0%nat) \/
  ((gameState g' = GAME_PLAYING \/ gameState g' = GAME_OVER) /\ active_bricks g' <> 0%nat).
Proof.
  intros Hst. unfold simulate. cbv zeta.
  assert (sframe g (update_balls tune (launch_ball tune inp
            (expand_decay inp (move_player inp g))))) as [_ Hx] by sframe_go.
  revert Hx. generalize (update_balls tune (launch_ball tune inp
                           (expand_decay inp (move_player inp g)))).
  intros x Hx. rewrite Hst in Hx.
  pose proof (gameState_lose_life x Hx) as Hl.
  destruct (sframe_update_powerups _ _ (sframe_refl (lose_life x))) as [_ Hh].
  rewrite <- Hh in Hl. revert Hl. generalize (update_powerups (lose_life x)).
  intros h Hl.
  destruct (check_win_spec h) as [[Hz Heq]|[Hnz Heq]]; rewrite Heq; [left|right]; auto.
Qed.

Lemma active_bricks_fresh (g : Game) :
  bricks g = fresh_bricks -> active_bricks g = 50%nat.
Proof.
  unfold active_bricks, brick. generalize (bricks g). intros ? ->. by vm_compute.
Qed.

Lemma init_game_invariant (g : Game) :
  well_formed g -> invariant (init_game g) /\ active_bricks (init_game g) = 50%nat.
Proof.
  intros Hwf. pose proof (init_game_spec g Hwf) as H. cbv zeta in H.
  revert H. generalize (init_game g).
  intros h (Hwf' & _ & Hpl & _ & _ & _ & Hbr & _).
  pose proof (active_bricks_fresh _ Hbr) as Hn.
  split; [|exact Hn]. split; [exact Hwf'|].
  rewrite Hpl, Hn. done.
Qed.

Lemma invariant_set_gameState (s : t_gamestate) (h : Game) :
  invariant h -> active_bricks h <> 0%nat -> invariant (set_gameState s h).
Proof. intros (Hwf & Hpos & Hsize & _) Hn. split; [exact Hwf|]. by repeat split. Qed.

Lemma invariant_init_game (s : t_gamestate) (g : Game) :
  well_formed g -> invariant (set_gameState s (init_game g)).
Proof.
  intros Hwf. destruct (init_game_invariant g Hwf) as [Hinv Hn].
  revert Hinv Hn. generalize (init_game g). intros h Hinv Hn.
  apply invariant_set_gameState; [exact Hinv|]. rewrite Hn. done.
Qed.

Lemma invariant_update_game (tune : t_tuning) (inp : Input) (g : Game) :
  invariant g -> invariant (update_game tune inp g).
Proof.
  intros (Hwf & Hpos & Hsize & Hbricks).
  destruct (decide (gameState g = GAME_TITLE)) as [Htitle|Hplay].
  - unfold update_game. rewrite Htitle. destruct (_ || _); [|done].
    by apply invariant_init_game.
  - pose proof (frame_update_game tune inp g Hplay) as Hfr.
    split; [by eapply frame_well_formed|].
    split; [by rewrite (fr_pos_y _ _ Hfr)|].
    split; [by rewrite (fr_size_y _ _ Hfr)|].
    clear Hfr. unfold update_game. destruct (gameState g) eqn:Hst; [done| | |].
    + cbv zeta.
      destruct (key_p inp); (destruct (negb _); [|intros _; by apply Hbricks]).
      * intros Hpl.
        pose proof (simulate_phase tune inp (set_pause (negb (pause g)) g) Hst) as HH.
        cbv zeta in HH. destruct HH as [[Hw _]|[_ Hnz]]; [congruence|exact Hnz].
      * intros Hpl. pose proof (simulate_phase tune inp g Hst) as HH.
        cbv zeta in HH. destruct HH as [[Hw _]|[_ Hnz]]; [congruence|exact Hnz].
    + destruct (_ || _); [intros [=]|intros Hpl; congruence].
    + destruct (_ || _); [intros [=]|intros Hpl; congruence].
Qed.

Lemma invariant_main (r : nat -> Z) : invariant (init_game (boot r)).
Proof. apply init_game_invariant, well_formed_boot. Qed.

Lemma reachable_invariant (tune : t_tuning) (g : Game) : reachable tune g -> invariant g.
Proof.
  induction 1; [apply invariant_main|by apply invariant_update_game].
Qed.

Lemma reachable_run (tune : t_tuning) (inps : list Input) (g : Game) :
  reachable tune g -> reachable tune (run tune inps g).
Proof.
  revert g. induction inps as [|inp inps IH]; intros g Hg; [done|].
  apply IH. by constructor.
Qed.

Lemma reachable_fresh (tune : t_tuning) (l : list Z) : reachable tune (fresh l).
Proof. constructor. Qed.

(** ** The views are states of the frame *)

Lemma update_ball_active (tune : t_tuning) (b : nat) (g : Game) :
  Ball.active (ball g b) = true ->
  update_ball tune b g =
  ball_bricks b (ball_lost b (ball_paddle tune b (ball_walls b (ball_move b g)))).
Proof. intros H. unfold update_ball. by rewrite H. Qed.

Lemma before_ball_succ (tune : t_tuning) (b : nat) (inp : Input) (g : Game) :
  before_ball tune (S b) inp g = update_ball tune b (before_ball tune b inp g).
Proof. unfold before_ball. by rewrite seq_S, fold_left_app. Qed.

(** The brick scan of an active ball [b] leads from [before_bricks] to the
    state in which the loop turns to the next ball. *)
Lemma brick_scan_in_frame (tune : t_tuning) (b : nat) (inp : Input) (g : Game) :
  Ball.active (ball (before_ball tune b inp g) b) = true ->
  before_ball tune (S b) inp g = ball_bricks b (before_bricks tune b inp g).
Proof. intros H. rewrite before_ball_succ. by apply update_ball_active. Qed.

(** After the last ball come the life-loss step, the powerups and the win
    check. *)
Lemma simulate_views (tune : t_tuning) (inp : Input) (g : Game) :
  simulate tune inp g =
  check_win (update_powerups (lose_life (before_ball tune BALLS_MAX inp g))).
Proof. unfold simulate, update_balls, before_ball. reflexivity. Qed.

(** ** The paddle's vertical placement (C10) *)

(** C10: in every state reachable after [init_game], the paddle's vertical
    position is [screenHeight - 50 = 670] and its height is 22. Movement
    with its clamps, the decay of the expansion, every powerup effect and a
    whole frame leave both as they are: only [pos.x] and [size.x] change. *)
Theorem C10_paddle_y_and_height_constant (tune : t_tuning) (inp : Input)
    (type : t_powerup_type) (g : Game) :
  reachable tune g ->
  let y (h : Game) := Vector2.y (Player.pos (player h)) in
  let height (h : Game) := Vector2.y (Player.size (player h)) in
  y g = flt (screenHeight - 50) /\ height g = 22%Q /\
  (y (move_player inp g) = y g /\ height (move_player inp g) = height g) /\
  (y (expand_decay inp g) = y g /\ height (expand_decay inp g) = height g) /\
  (y (apply_powerup type g) = y g /\ height (apply_powerup type g) = height g) /\
  (y (update_game tune inp g) = y g /\ height (update_game tune inp g) = height g).
Proof.
  intros Hg. cbv zeta.
  destruct (reachable_invariant tune g Hg) as (_ & Hpos & Hsize & _).
  assert (Hg' : reachable tune (update_game tune inp g)) by by constructor.
  destruct (reachable_invariant tune _ Hg') as (_ & Hpos' & Hsize' & _).
  destruct (sframe_move_player inp g g (sframe_refl g)) as [Hmove _].
  destruct (sframe_expand_decay inp g g (sframe_refl g)) as [Hdecay _].
  destruct (sframe_apply_powerup type g g (sframe_refl g)) as [Hpow _].
  split; [exact Hpos|]. split; [exact Hsize|].
  split; [split; [apply (fr_pos_y _ _ Hmove)|apply (fr_size_y _ _ Hmove)]|].
  split; [split; [apply (fr_pos_y _ _ Hdecay)|apply (fr_size_y _ _ Hdecay)]|].
  split; [split; [apply (fr_pos_y _ _ Hpow)|apply (fr_size_y _ _ Hpow)]|].
  rewrite Hpos', Hsize', Hpos, Hsize. done.
Qed.

Lemma C10_witness :
  reachable Arkanoid_c expand_state /\
  Vector2.y (Player.pos (player expand_state)) = flt (screenHeight - 50).
Proof.
  assert (H : reachable Arkanoid_c expand_state) by apply reachable_run, reachable_fresh.
  split; [exact H|].
  exact (proj1 (C10_paddle_y_and_height_constant Arkanoid_c idle POWERUP_EXPAND
                  expand_state H)).
Defined.

(** ** Bricks and the win (C7) *)

(** C7: within a round (any frame outside the title screen) no brick goes
    from inactive to active, and a frame that starts in [GAME_PLAYING] ends
    in [GAME_WIN] exactly when no brick is active at its end. *)
Theorem C7_bricks_monotone_and_win (tune : t_tuning) (inp : Input) (g : Game) :
  reachable tune g ->
  gameState g <> GAME_TITLE ->
  let g' := update_game tune inp g in
  (forall y x, Brick.active (brick g' y x) = true -> Brick.active (brick g y x) = true) /\
  (gameState g = GAME_PLAYING ->
   (gameState g' = GAME_WIN <-> active_bricks g' = 0%nat)).
Proof.
  intros Hg Hround. cbv zeta. split.
  - apply (fr_active _ _ (frame_update_game tune inp g Hround)).
  - intros Hst.
    destruct (reachable_invariant tune g Hg) as (_ & _ & _ & Hleft).
    specialize (Hleft Hst).
    unfold update_game. rewrite Hst. cbv zeta.
    assert (Hpaused : forall h : Game, gameState h = GAME_PLAYING ->
              active_bricks h <> 0%nat ->
              gameState h = GAME_WIN <-> active_bricks h = 0%nat).
    { intros h Hh Hn. split; [congruence|done]. }
    assert (Hsim : forall h : Game, gameState h = GAME_PLAYING ->
              gameState (simulate tune inp h) = GAME_WIN <->
              active_bricks (simulate tune inp h) = 0%nat).
    { intros h Hh. pose proof (simulate_phase tune inp h Hh) as HH. cbv zeta in HH.
      revert HH. generalize (simulate tune inp h). intros k [[Hw Hz]|[Hs Hn]].
      - by split.
      - split; [destruct Hs; congruence|done]. }
    destruct (key_p inp); destruct (negb _).
    + by apply Hsim.
    + by apply Hpaused.
    + by apply Hsim.
    + by apply Hpaused.
Qed.

Lemma C7_witness :
  reachable Arkanoid_c corner_state /\ gameState corner_state <> GAME_TITLE /\
  (gameState corner_state = GAME_PLAYING ->
   (gameState (update_game Arkanoid_c hold_left corner_state) = GAME_WIN <->
    active_bricks (update_game Arkanoid_c hold_left corner_state) = 0%nat)).
Proof.
  assert (H : reachable Arkanoid_c corner_state) by apply reachable_run, reachable_fresh.
  assert (Hst : gameState corner_state <> GAME_TITLE) by (vm_compute; discriminate).
  split; [exact H|]. split; [exact Hst|].
  apply (C7_bricks_monotone_and_win Arkanoid_c hold_left corner_state H Hst).
Defined.

(** ** Life loss (C5) *)

Lemma reset_balls_spec (pos : Vector2.t) (g : Game) :
  length (balls g) = BALLS_MAX ->
  let g' := reset_balls pos g in
  g' = set_ballsCount 1 (set_balls (balls g') g) /\
  (forall i, Ball.active (ball g' i) = false) /\
  ball g' 0 = Ball.mk pos (Vector2.mk 0 0) 12 false /\
  length (balls g') = BALLS_MAX.
Proof.
  intros Hlen. destruct g as [? bl ? ? ? ? ? ? ? ? ? ?]. cbn [balls] in Hlen.
  apply list_of_length_5 in Hlen as (? & ? & ? & ? & ? & ->).
  vm_compute. repeat split.
  intros i. do 5 (destruct i as [|i]; [reflexivity|]). reflexivity.
Qed.

Lemma no_ball_active (g : Game) :
  (forall i, (i < BALLS_MAX)%nat -> Ball.active (ball g i) = false) ->
  fold_left (fun any b => if Ball.active (ball g b) then true else any)
            (seq 0 BALLS_MAX) false = false.
Proof.
  intros H. simpl. rewrite !H by (unfold BALLS_MAX; lia). done.
Qed.

(** C5: when no ball is active and the launch-wait flag is false, the
    life-loss step takes exactly one life; if none is left the phase becomes
    [GAME_OVER]; otherwise the phase is kept, every ball slot is inactive,
    one ball is counted, slot 0 holds a ball at rest centred over the paddle
    and 2 above it, and the launch-wait flag is set. *)
Theorem C5_life_loss (g : Game) :
  length (balls g) = BALLS_MAX ->
  (forall i, (i < BALLS_MAX)%nat -> Ball.active (ball g i) = false) ->
  waiting_for_launch g = false ->
  let g' := lose_life g in
  Player.life (player g') = Player.life (player g) - 1 /\
  (Player.life (player g) - 1 <= 0 -> gameState g' = GAME_OVER) /\
  (0 < Player.life (player g) - 1 ->
   gameState g' = gameState g /\
   ballsCount g' = 1 /\
   (forall i, Ball.active (ball g' i) = false) /\
   (Vector2.x (Ball.pos (ball g' 0)) ==
      Vector2.x (Player.pos (player g')) + Vector2.x (Player.size (player g')) / 2)%Q /\
   (Vector2.y (Ball.pos (ball g' 0)) ==
      Vector2.y (Player.pos (player g')) - Ball.radius (ball g 0) - 2)%Q /\
   Ball.spd (ball g' 0) = Vector2.mk 0 0 /\
   Ball.radius (ball g' 0) = 12%Q /\
   waiting_for_launch g' = true).
Proof.
  intros Hlen Hnone Hwait. cbv zeta. unfold lose_life.
  rewrite (no_ball_active g Hnone), Hwait. cbn [negb andb]. cbv zeta.
  set (g1 := set_player _ g).
  assert (Hlife : Player.life (player g1) = Player.life (player g) - 1) by done.
  rewrite Hlife.
  destruct (Z.leb_spec (Player.life (player g) - 1) 0) as [Hle|Hgt].
  - split; [done|]. split; [done|]. lia.
  - destruct (reset_balls_spec (above_paddle g1) g1 Hlen) as (Heq & Hact & Hb0 & _).
    revert Heq Hact Hb0. generalize (reset_balls (above_paddle g1) g1).
    intros h Heq Hact Hb0.
    change (player (set_waiting_for_launch true h)) with (player h).
    change (gameState (set_waiting_for_launch true h)) with (gameState h).
    change (ballsCount (set_waiting_for_launch true h)) with (ballsCount h).
    change (ball (set_waiting_for_launch true h)) with (ball h).
    rewrite Hb0. rewrite Heq. cbn -[Qeq Qplus Qminus Qdiv].
    split; [done|]. split; [lia|]. intros _.
    split; [done|]. split; [done|]. split; [|split; [|split]].
    + intros i. specialize (Hact i). by rewrite Heq in Hact.
    + by rewrite F_add_eq, F_div_eq.
    + by rewrite !F_sub_eq.
    + done.
Qed.

Lemma C5_witness :
  length (balls second_loss_state) = BALLS_MAX /\
  (forall i, (i < BALLS_MAX)%nat -> Ball.active (ball second_loss_state i) = false) /\
  waiting_for_launch second_loss_state = false /\
  Player.life (player (lose_life second_loss_state)) =
    Player.life (player second_loss_state) - 1.
Proof.
  assert (Hlen : length (balls second_loss_state) = BALLS_MAX) by (vm_compute; reflexivity).
  assert (Hnone : forall i, (i < BALLS_MAX)%nat ->
            Ball.active (ball second_loss_state i) = false).
  { intros i Hi. do 5 (destruct i as [|i]; [vm_compute; reflexivity|]).
    exfalso. clear Hlen. unfold BALLS_MAX in Hi. lia. }
  assert (Hwait : waiting_for_launch second_loss_state = false) by (vm_compute; reflexivity).
  split; [exact Hlen|]. split; [exact Hnone|]. split; [exact Hwait|].
  exact (proj1 (C5_life_loss second_loss_state Hlen Hnone Hwait)).
Defined.

(** The second ball of the run is lost with two lives left: one remains and
    the game goes on with a ball waiting on the paddle. *)
Example second_loss :
  Player.life (player second_loss_state) = 2 /\
  Player.life (player (lose_life second_loss_state)) = 1 /\
  gameState (lose_life second_loss_state) = GAME_PLAYING /\
  waiting_for_launch (lose_life second_loss_state) = true /\
  ball (lose_life second_loss_state) 0 = Ball.mk (Vector2.mk 70 656) (Vector2.mk 0 0) 12 false.
Proof. by vm_compute. Qed.

(** ** spawn_powerup (C9) *)

Lemma spawn_slot_full (slots : list nat) (pos : Vector2.t) (type : t_powerup_type)
    (g : Game) :
  (forall i, i ∈ slots -> Powerup.active (powerup g i) = true) ->
  spawn_slot slots pos type g = g.
Proof.
  induction slots as [|i rest IH]; intros H; simpl; [done|].
  rewrite H by left. simpl. apply IH. intros j Hj. apply H. by right.
Qed.

Lemma spawn_slot_first (taken : list nat) (i : nat) (rest : list nat) (pos : Vector2.t)
    (type : t_powerup_type) (g : Game) :
  (forall j, j ∈ taken -> Powerup.active (powerup g j) = true) ->
  Powerup.active (powerup g i) = false ->
  spawn_slot (taken ++ i :: rest) pos type g =
  set_powerup i (Powerup.mk pos (Vector2.mk 0 2) type true) g.
Proof.
  induction taken as [|j taken IH]; intros H Hi; simpl.
  - by rewrite Hi.
  - rewrite H by left. simpl. apply IH; [|done]. intros k Hk. apply H. by right.
Qed.

(** C9: [spawn_powerup] draws [r] in [0, 100) and picks Expand for [r < 40],
    ExtraLife for [40 <= r < 70], MultiBall for [70 <= r < 100]. With all
    ten slots active nothing but the random stream's position changes (no
    powerup slot, nor paddle, balls, score or phase); otherwise the first
    inactive slot receives the powerup at [pos], falling with velocity
    (0, 2), active, and nothing else changes. *)
Theorem C9_spawn_powerup (pos : Vector2.t) (g : Game) :
  let r := Z.rem (rnd g (rnd_pos g) mod (RAND_MAX + 1)) 100 in
  let type :=
    if r <? 40 then POWERUP_EXPAND
    else if r <? 70 then POWERUP_EXTRA_LIFE
    else POWERUP_MULTI_BALL in
  let g' := spawn_powerup pos g in
  0 <= r < 100 /\
  ((forall i, (i < POWERUPS_MAX)%nat -> Powerup.active (powerup g i) = true) ->
   g' = set_rnd_pos (S (rnd_pos g)) g /\
   powerups g' = powerups g /\ player g' = player g /\ balls g' = balls g /\
   score g' = score g /\ gameState g' = gameState g) /\
  (forall i, (i < POWERUPS_MAX)%nat ->
   Powerup.active (powerup g i) = false ->
   (forall j, (j < i)%nat -> Powerup.active (powerup g j) = true) ->
   g' = set_rnd_pos (S (rnd_pos g))
          (set_powerup i (Powerup.mk pos (Vector2.mk 0 2) type true) g)).
Proof.
  cbv zeta. split; [|split].
  - assert (0 <= rnd g (rnd_pos g) mod (RAND_MAX + 1)) by (apply Z.mod_pos_bound; done).
    split; [by apply Z.rem_nonneg|]. apply Z.rem_bound_pos; [done|lia].
  - intros Hfull.
    assert (Heq : spawn_powerup pos g = set_rnd_pos (S (rnd_pos g)) g).
    { unfold spawn_powerup, rand. apply spawn_slot_full.
      intros i Hi%elem_of_seq. apply Hfull. lia. }
    rewrite Heq. done.
  - intros i Hi Hfree Htaken. unfold spawn_powerup, rand, powerup_of_roll.
    assert (Hseq : seq 0 POWERUPS_MAX = seq 0 i ++ i :: seq (S i) (POWERUPS_MAX - S i)).
    { assert (E : POWERUPS_MAX = (i + S (POWERUPS_MAX - S i))%nat) by lia.
      rewrite E at 1. by rewrite seq_app. }
    rewrite Hseq, spawn_slot_first; [done| |done].
    intros j Hj%elem_of_seq. apply Htaken. lia.
Qed.

Lemma C9_witness :
  (forall i, (i < POWERUPS_MAX)%nat -> Powerup.active (powerup full_pool_state i) = true) /\
  spawn_powerup (Vector2.mk 919 241) full_pool_state =
    set_rnd_pos (S (rnd_pos full_pool_state)) full_pool_state /\
  (Powerup.active (powerup two_taken_state 2) = false /\
   forall j, (j < 2)%nat -> Powerup.active (powerup two_taken_state j) = true) /\
  spawn_powerup (Vector2.mk 919 241) two_taken_state =
    set_rnd_pos (S (rnd_pos two_taken_state))
      (set_powerup 2 (Powerup.mk (Vector2.mk 919 241) (Vector2.mk 0 2)
                        POWERUP_EXTRA_LIFE true) two_taken_state).
Proof.
  assert (Hfull : forall i, (i < POWERUPS_MAX)%nat ->
            Powerup.active (powerup full_pool_state i) = true).
  { intros i Hi. do 10 (destruct i as [|i]; [vm_compute; reflexivity|]).
    exfalso. unfold POWERUPS_MAX in Hi. lia. }
  assert (Hfree : Powerup.active (powerup two_taken_state 2) = false)
    by (vm_compute; reflexivity).
  assert (Htaken : forall j, (j < 2)%nat -> Powerup.active (powerup two_taken_state j) = true).
  { intros j Hj. do 2 (destruct j as [|j]; [vm_compute; reflexivity|]). exfalso. lia. }
  split; [exact Hfull|].
  split; [exact (proj1 (proj1 (proj2 (C9_spawn_powerup (Vector2.mk 919 241) full_pool_state))
                          Hfull))|].
  split; [by split|].
  refine (proj2 (proj2 (C9_spawn_powerup (Vector2.mk 919 241) two_taken_state))
            2%nat _ Hfree Htaken).
  unfold POWERUPS_MAX. lia.
Defined.

(** Scenario C: the rolls 35, 65 and 85. *)
Example powerup_rolls :
  powerup_of_roll 35 = POWERUP_EXPAND /\
  powerup_of_roll 65 = POWERUP_EXTRA_LIFE /\
  powerup_of_roll 85 = POWERUP_MULTI_BALL.
Proof. by repeat split. Qed.

(** ** Rounding to binary32 *)

Lemma F32_round_proper (p q : Q) : (p == q)%Q -> F32.round p = F32.round q.
Proof. intros H. cbv beta delta [F32.round]. by rewrite (Qred_complete _ _ H). Qed.

Lemma F32_round_zero (q : Q) : (q == 0)%Q -> F32.round q = 0%Q.
Proof. intros H. by rewrite (F32_round_proper _ _ H). Qed.

Lemma pow2_Qpower (e : Z) : (F32.pow2 e == 2 ^ e)%Q.
Proof.
  destruct e as [|p|p]; [reflexivity|apply (Zpower_Qpower 2); lia|].
  change ((2 ^ Z.neg p)%Q) with (/ (2 ^ Z.pos p))%Q.
  rewrite <- (Zpower_Qpower 2) by lia.
  unfold F32.pow2. assert (H : 0 < 2 ^ Z.pos p) by (apply Z.pow_pos_nonneg; lia).
  destruct (2 ^ Z.pos p) as [|z|z]; try lia. reflexivity.
Qed.

Lemma pow2_pos (e : Z) : (0 < F32.pow2 e)%Q.
Proof. rewrite pow2_Qpower. by apply Qpower_0_lt. Qed.

Lemma pow2_add (a b : Z) : (F32.pow2 (a + b) == F32.pow2 a * F32.pow2 b)%Q.
Proof. rewrite !pow2_Qpower. by apply Qpower_plus. Qed.

Lemma pow2_le (a b : Z) : a <= b -> (F32.pow2 a <= F32.pow2 b)%Q.
Proof. intros H. rewrite !pow2_Qpower. apply Qpower_le_compat_l; [done|]. discriminate. Qed.

Lemma pow2_nonneg (e : Z) : 0 <= e -> F32.pow2 e = inject_Z (2 ^ e).
Proof. intros H. destruct e; try lia; reflexivity. Qed.

Lemma pow2_half (e : Z) : (F32.pow2 e * (1 # 2) == F32.pow2 (e - 1))%Q.
Proof.
  replace e with ((e - 1) + 1) at 1 by lia. rewrite pow2_add.
  change (F32.pow2 1) with 2%Q. field.
Qed.

(** The nearest integer is within a half. *)
Lemma nearest_even_err (n : Z) (d : positive) :
  (inject_Z (F32.nearest_even n d) - (1 # 2) <= n # d <=
   inject_Z (F32.nearest_even n d) + (1 # 2))%Q.
Proof.
  unfold F32.nearest_even.
  pose proof (Z.div_mod n (Z.pos d) ltac:(lia)) as Hn.
  pose proof (Z.mod_pos_bound n (Z.pos d) ltac:(lia)) as Hr.
  revert Hn Hr. generalize (n / Z.pos d) (n mod Z.pos d). intros q r Hn Hr.
  assert (Hq : forall N : Z, (2 * N - 1) * Z.pos d <= 2 * n <= (2 * N + 1) * Z.pos d ->
            (inject_Z N - (1 # 2) <= n # d <= inject_Z N + (1 # 2))%Q).
  { intros N HN. unfold Qle, Qminus, Qplus, Qopp, inject_Z. simpl. lia. }
  destruct (Z.compare_spec (2 * r) (Z.pos d)) as [He|Hl|Hg].
  - destruct (Z.even q); apply Hq; nia.
  - apply Hq; nia.
  - apply Hq; nia.
Qed.

(** The exponent is not above the value. *)
Lemma exponent_lower (n : Z) (d : positive) :
  0 < n -> (F32.pow2 (F32.exponent n d) <= n # d)%Q.
Proof.
  intros Hn. unfold F32.exponent.
  set (e := Z.log2 n - Z.log2 (Z.pos d)).
  assert (Hle : forall z : Z, (F32.pow2 z * inject_Z (Z.pos d) <= inject_Z n)%Q ->
                (F32.pow2 z <= n # d)%Q).
  { intros z Hz. rewrite (Qmake_Qdiv n d). apply Qle_shift_div_l; [reflexivity|done]. }
  destruct (if 0 <=? e then _ else _) eqn:Htest.
  - apply Hle. destruct (Z.leb_spec 0 e) as [He|He].
    + rewrite pow2_nonneg by done. rewrite <- inject_Z_mult, <- Zle_Qle. lia.
    + apply Z.leb_le in Htest.
      apply (Qmult_le_l _ _ (F32.pow2 (- e))); [apply pow2_pos|].
      rewrite Qmult_assoc, <- pow2_add. replace (- e + e) with 0 by lia.
      change (F32.pow2 0) with 1%Q. rewrite pow2_nonneg by lia.
      rewrite Qmult_1_l, <- inject_Z_mult, <- Zle_Qle. lia.
  - apply Hle. clear Htest.
    pose proof (Z.log2_spec n Hn) as [Hn1 _].
    pose proof (Z.log2_spec (Z.pos d) ltac:(lia)) as [_ Hd2].
    pose proof (Z.log2_nonneg n) as Hln. pose proof (Z.log2_nonneg (Z.pos d)) as Hld.
    apply Qle_trans with (F32.pow2 (e - 1) * F32.pow2 (Z.log2 (Z.pos d) + 1))%Q.
    + apply Qmult_le_l; [apply pow2_pos|].
      rewrite pow2_nonneg by lia. rewrite <- Zle_Qle. unfold Z.succ in Hd2. lia.
    + rewrite <- pow2_add. replace (e - 1 + (Z.log2 (Z.pos d) + 1)) with (Z.log2 n) by lia.
      rewrite pow2_nonneg by lia. by rewrite <- Zle_Qle.
Qed.

(** Rounding moves a value by half a unit of its last place at most. *)
Lemma round_err_ulp (q : Q) :
  Qnum (Qred q) <> 0 ->
  (q - F32.pow2 (F32.ulp (Qabs (Qred q)) - 1) <= F32.round q <=
   q + F32.pow2 (F32.ulp (Qabs (Qred q)) - 1))%Q.
Proof.
  intros Hnz. cbv beta zeta delta [F32.round].
  pose proof (Qred_correct q) as Hq. revert Hnz Hq. generalize (Qred q). intros q0 Hnz Hq.
  set (E := F32.ulp (Qabs q0)).
  pose proof (pow2_pos E) as HE. pose proof (pow2_half E) as Hhalf.
  revert HE Hhalf. generalize (F32.pow2 (E - 1)) (F32.pow2 E). intros h pE HE Hhalf.
  pose proof (Qred_correct (Qabs q0 / pE)) as Hm.
  revert Hm. generalize (Qred (Qabs q0 / pE)). intros m Hm.
  pose proof (nearest_even_err (Qnum m) (Qden m)) as HN.
  revert HN. generalize (F32.nearest_even (Qnum m) (Qden m)). intros N HN.
  replace (Qnum m # Qden m)%Q with m in HN by (by destruct m).
  pose proof (Qred_correct (inject_Z N * pE)) as Hr.
  revert Hr. generalize (Qred (inject_Z N * pE)). intros r Hr.
  assert (Ha : (Qabs q0 == m * pE)%Q) by (rewrite Hm; field; lra).
  assert (Hra : (Qabs q0 - h <= r <= Qabs q0 + h)%Q).
  { rewrite Ha, Hr, <- Hhalf. nra. }
  destruct q0 as [n d]. simpl in Hnz.
  destruct n as [|n|n]; [done| |].
  - cbn [Qnum]. change (Z.pos n <? 0) with false. cbv iota. rewrite <- Hq. exact Hra.
  - cbn [Qnum]. change (Z.neg n <? 0) with true. cbv iota.
    rewrite (Qred_correct (- r)), <- Hq.
    change (Qabs (Z.neg n # d)) with (- (Z.neg n # d))%Q in Hra. lra.
Qed.

(** A value below [2 ^ k] is moved by [2 ^ (k - 25)] at most. *)
Lemma round_err (k : Z) (q : Q) :
  -125 <= k -> (- F32.pow2 k < q < F32.pow2 k)%Q ->
  (q - F32.pow2 (k - 25) <= F32.round q <= q + F32.pow2 (k - 25))%Q.
Proof.
  intros Hk Hq.
  destruct (Z.eq_dec (Qnum (Qred q)) 0) as [Hz|Hnz].
  { assert (H0 : (q == 0)%Q).
    { rewrite <- (Qred_correct q). destruct (Qred q) as [n d]. simpl in Hz. by subst. }
    rewrite (F32_round_zero q H0), H0. pose proof (pow2_pos (k - 25)). lra. }
  pose proof (round_err_ulp q Hnz) as Herr.
  assert (HE : F32.ulp (Qabs (Qred q)) - 1 <= k - 25).
  { unfold F32.ulp.
    assert (Hpos : 0 < Qnum (Qabs (Qred q))).
    { destruct (Qred q) as [[|n|n] d]; simpl in Hnz; simpl; lia. }
    pose proof (exponent_lower (Qnum (Qabs (Qred q))) (Qden (Qabs (Qred q))) Hpos) as Hlow.
    replace (Qnum (Qabs (Qred q)) # Qden (Qabs (Qred q)))%Q with (Qabs (Qred q)) in Hlow
      by (by destruct (Qabs (Qred q))).
    assert (Ha : (Qabs (Qred q) < F32.pow2 k)%Q).
    { rewrite (Qred_correct q). apply Qabs_Qlt_condition. exact Hq. }
    destruct (Z_lt_le_dec (F32.exponent (Qnum (Qabs (Qred q))) (Qden (Qabs (Qred q)))) k)
      as [Hlt|Hge]; [lia|].
    pose proof (pow2_le _ _ Hge). lra. }
  pose proof (pow2_le _ _ HE). lra.
Qed.

Lemma square_le (a d r : Q) : (0 <= r)%Q -> (a * a + d * d <= r * r)%Q -> (- r <= a <= r)%Q.
Proof.
  intros Hr H. assert (Hd : (0 <= d * d)%Q) by nra.
  split.
  - destruct (Qlt_le_dec a (- r)) as [Hlt|]; [|done].
    assert ((r * r < a * a)%Q) by nra. lra.
  - destruct (Qlt_le_dec r a) as [Hlt|]; [|done].
    assert ((r * r < a * a)%Q) by nra. lra.
Qed.

(** A circle that meets a rectangle has its centre within a radius of the
    rectangle's sides. *)
Lemma circle_rec_range (c : Vector2.t) (r : Q) (rec : Rectangle.t) :
  (0 <= r)%Q -> (0 <= Rectangle.width rec)%Q ->
  CheckCollisionCircleRec c r rec = true ->
  (Rectangle.x rec - r <= Vector2.x c <= Rectangle.x rec + Rectangle.width rec + r)%Q.
Proof.
  intros Hr Hw. unfold CheckCollisionCircleRec. cbv zeta. intros Hd.
  apply F_leb_le in Hd. rewrite F_add_eq, !F_mul_eq, !F_sub_eq in Hd.
  apply square_le in Hd; [|done].
  revert Hd.
  pose proof (F_add_eq (Rectangle.x rec) (Rectangle.width rec)) as Hs.
  revert Hs. generalize (Rectangle.x rec +. Rectangle.width rec). intros s Hs.
  unfold clamp.
  destruct (Vector2.x c <. Rectangle.x rec) eqn:H1; [intros; lra|].
  apply F_ltb_ge in H1. destruct (s <. Vector2.x c) eqn:H2; [intros; lra|].
  apply F_ltb_ge in H2. intros _. lra.
Qed.

(** The horizontal velocity the paddle bounce computes in binary32 is within
    5 millionths of the exact value of its formula. *)
Lemma bounce_accuracy (f : Z) (x px w : Q) :
  0 <= f <= 6 -> w = 140%Q \/ w = 210%Q ->
  (0 <= px <= 820)%Q -> (px - 12 <= x <= px + w + 12)%Q ->
  (Qabs (F32.mul (flt f) (F32.div (F32.sub x (F32.add px (F32.div w 2))) (F32.div w 2)) -
         inject_Z f * ((x - (px + w / 2)) / (w / 2))) <= 1 # 200000)%Q.
Proof.
  intros Hf Hw Hpx Hx. unfold F32.mul, F32.sub, F32.add, F.of_int.
  assert (Hgo : forall h : Q, (h = 70 \/ h = 105)%Q -> (px + h <= 925)%Q ->
            (px + h - (h + 12) <= x <= px + h + (h + 12))%Q ->
            (Qabs (F32.round (inject_Z f * F32.div (F32.round (x - F32.round (px + h))) h) -
                   inject_Z f * ((x - (px + h)) / h)) <= 1 # 200000)%Q).
  { clear w Hw Hx. intros h Hh Hc Hx. unfold F32.div.
    pose proof (round_err 10 (px + h) ltac:(lia)) as H1.
    change (F32.pow2 10) with 1024%Q in H1.
    change (F32.pow2 (10 - 25)) with (1 # 32768)%Q in H1.
    specialize (H1 ltac:(destruct Hh; subst h; lra)).
    revert H1. generalize (F32.round (px + h)). intros c H1.
    pose proof (round_err 7 (x - c) ltac:(lia)) as H2.
    change (F32.pow2 7) with 128%Q in H2.
    change (F32.pow2 (7 - 25)) with (1 # 262144)%Q in H2.
    specialize (H2 ltac:(destruct Hh; subst h; lra)).
    revert H2. generalize (F32.round (x - c)). intros d H2.
    assert (Ht : (d == d / h * h)%Q) by (field; destruct Hh; subst h; lra).
    assert (He : (x - (px + h) == (x - (px + h)) / h * h)%Q)
      by (field; destruct Hh; subst h; lra).
    revert He. generalize ((x - (px + h)) / h)%Q. intros e He.
    pose proof (round_err 1 (d / h) ltac:(lia)) as H3.
    change (F32.pow2 1) with 2%Q in H3.
    change (F32.pow2 (1 - 25)) with (1 # 16777216)%Q in H3.
    revert Ht H3. generalize (d / h)%Q. intros t Ht.
    generalize (F32.round t). intros q H3.
    specialize (H3 ltac:(destruct Hh; subst h; lra)).
    pose proof (round_err 3 (inject_Z f * q) ltac:(lia)) as H4.
    change (F32.pow2 3) with 8%Q in H4.
    change (F32.pow2 (3 - 25)) with (1 # 4194304)%Q in H4.
    assert (Hcases : f = 0 \/ f = 1 \/ f = 2 \/ f = 3 \/ f = 4 \/ f = 5 \/ f = 6) by lia.
    apply Qabs_Qle_condition.
    destruct Hh; subst h;
      repeat (destruct Hcases as [->|Hcases]); try subst f;
      unfold inject_Z in H4; unfold inject_Z;
      (specialize (H4 ltac:(lra)); lra). }
  destruct Hw; subst w.
  - change (F32.div 140 2) with 70%Q.
    assert (E : (140 / 2 == 70)%Q) by reflexivity. rewrite E.
    apply Hgo; [by left|lra|lra].
  - change (F32.div 210 2) with 105%Q.
    assert (E : (210 / 2 == 105)%Q) by reflexivity. rewrite E.
    apply Hgo; [by right|lra|lra].
Qed.

(** ** Paddle bounce (C8) *)

(** C8: when ball [b] touches the paddle, its vertical velocity is negated
    and its horizontal velocity is replaced by [bounce_factor] (6 in
    [Arkanoid.c], 4 in [Draft1.c]) times the offset of the ball from the
    paddle's centre divided by half the paddle width, computed in binary32
    as the program computes it: the old horizontal velocity plays no part.
    With the paddle as every frame leaves it and a ball of radius 12 the
    result is within 5 millionths of the exact value of that formula. A ball
    exactly over the centre leaves with horizontal velocity 0, its position
    and half the paddle width being binary32 values as all values of the
    program are. Position, radius and activity are untouched. *)
Theorem C8_paddle_bounce (tune : t_tuning) (b : nat) (g : Game) :
  (b < length (balls g))%nat ->
  CheckCollisionCircleRec (Ball.pos (ball g b)) (Ball.radius (ball g b)) (paddleRect g)
    = true ->
  let g' := ball_paddle tune b g in
  let x := Vector2.x (Ball.pos (ball g b)) in
  let px := Vector2.x (Player.pos (player g)) in
  let w := Vector2.x (Player.size (player g)) in
  let center := (px + w / 2)%Q in
  let half := (w / 2)%Q in
  (Vector2.y (Ball.spd (ball g' b)) == - Vector2.y (Ball.spd (ball g b)))%Q /\
  Vector2.x (Ball.spd (ball g' b)) =
    F32.mul (flt (bounce_factor tune))
      (F32.div (F32.sub x (F32.add px (F32.div w 2))) (F32.div w 2)) /\
  (paddle_ok g -> Ball.radius (ball g b) = 12%Q -> 0 <= bounce_factor tune <= 6 ->
   (Qabs (Vector2.x (Ball.spd (ball g' b)) -
          inject_Z (bounce_factor tune) * ((x - center) / half)) <= 1 # 200000)%Q) /\
  (binary32 half -> binary32 x -> (x == center)%Q ->
   Vector2.x (Ball.spd (ball g' b)) = 0%Q) /\
  Ball.pos (ball g' b) = Ball.pos (ball g b) /\
  Ball.radius (ball g' b) = Ball.radius (ball g b) /\
  Ball.active (ball g' b) = Ball.active (ball g b).
Proof.
  intros Hb Hhit. cbv zeta. unfold ball_paddle. rewrite Hhit. cbv zeta.
  unfold set_ball_spd_x, set_ball_spd_y.
  rewrite !ball_set_ball_eq; [|done|by (simpl; rewrite length_insert)..].
  cbn [Ball.spd Ball.pos Ball.radius Ball.active Ball.set_spd Vector2.x Vector2.y
       Vector2.set_x Vector2.set_y].
  change (player (set_ball b _ g)) with (player g).
  split; [|split; [done|split; [|split; [|done]]]].
  - rewrite F_mul_eq. unfold F.of_int. simpl inject_Z. ring.
  - intros (Hpx & Hright & Hw & _) Hrad Hf.
    change (inject_Z screenWidth) with 960%Q in Hright.
    assert (Hw' : Vector2.x (Player.size (player g)) = 140%Q \/
                  Vector2.x (Player.size (player g)) = 210%Q)
      by (rewrite Hw; destruct (Player.expanded (player g)); auto).
    apply bounce_accuracy; [done|done|lra|].
    rewrite Hrad in Hhit. apply circle_rec_range in Hhit; [exact Hhit|done|].
    simpl. destruct Hw' as [-> | ->]; done.
  - intros Hh Hc Hx. unfold binary32 in Hh, Hc.
    unfold F32.mul, F32.div, F32.sub, F32.add.
    assert (Hc' : (F32.round (Vector2.x (Player.pos (player g)) +
                     F32.round (Vector2.x (Player.size (player g)) / 2))
                   == Vector2.x (Ball.pos (ball g b)))%Q).
    { rewrite (F32_round_proper _ (Vector2.x (Ball.pos (ball g b))));
        [exact Hc | by rewrite Hh, Hx]. }
    apply F32_round_zero.
    rewrite (F32_round_zero (_ / _)); [ring|].
    rewrite (F32_round_zero (_ - _)); [unfold Qdiv; ring|].
    rewrite Hc'. ring.
Qed.

Lemma C8_witness :
  let g := center_hit_state in
  let g' := ball_paddle Arkanoid_c 0 g in
  let x := Vector2.x (Ball.pos (ball g 0)) in
  let px := Vector2.x (Player.pos (player g)) in
  let w := Vector2.x (Player.size (player g)) in
  ((0 < length (balls g))%nat /\
   CheckCollisionCircleRec (Ball.pos (ball g 0)) (Ball.radius (ball g 0)) (paddleRect g) = true /\
   paddle_ok g /\ Ball.radius (ball g 0) = 12%Q /\ 0 <= bounce_factor Arkanoid_c <= 6 /\
   binary32 (w / 2) /\ binary32 x /\ (x == px + w / 2)%Q) /\
  (Vector2.y (Ball.spd (ball g' 0)) == - Vector2.y (Ball.spd (ball g 0)))%Q /\
  (Qabs (Vector2.x (Ball.spd (ball g' 0)) -
         inject_Z (bounce_factor Arkanoid_c) * ((x - (px + w / 2)) / (w / 2)))
   <= 1 # 200000)%Q /\
  Vector2.x (Ball.spd (ball g' 0)) = 0%Q.
Proof.
  cbv zeta.
  assert (Hb : (0 < length (balls center_hit_state))%nat) by (vm_compute; lia).
  assert (Hhit : CheckCollisionCircleRec (Ball.pos (ball center_hit_state 0))
            (Ball.radius (ball center_hit_state 0)) (paddleRect center_hit_state) = true)
    by (vm_compute; reflexivity).
  assert (Hok : paddle_ok center_hit_state)
    by (vm_compute; repeat split; discriminate).
  assert (Hrad : Ball.radius (ball center_hit_state 0) = 12%Q) by (vm_compute; reflexivity).
  assert (Hf : 0 <= bounce_factor Arkanoid_c <= 6) by (vm_compute; split; discriminate).
  assert (Hh : binary32 (Vector2.x (Player.size (player center_hit_state)) / 2))
    by (vm_compute; reflexivity).
  assert (Hc : binary32 (Vector2.x (Ball.pos (ball center_hit_state 0))))
    by (vm_compute; reflexivity).
  assert (Hx : (Vector2.x (Ball.pos (ball center_hit_state 0)) ==
                Vector2.x (Player.pos (player center_hit_state)) +
                Vector2.x (Player.size (player center_hit_state)) / 2)%Q)
    by (vm_compute; reflexivity).
  destruct (C8_paddle_bounce Arkanoid_c 0 center_hit_state Hb Hhit)
    as (Hvy & _ & Hnear & Hzero & _).
  split; [by repeat split|].
  split; [exact Hvy|]. split; [exact (Hnear Hok Hrad Hf)|]. exact (Hzero Hh Hc Hx).
Defined.

(** Scenario A: a ball that meets the paddle over its centre goes straight up. *)
Example center_hit :
  Ball.spd (ball (ball_paddle Arkanoid_c 0 center_hit_state) 0) = Vector2.mk 0 (-7) /\
  Ball.spd (ball (ball_paddle Draft1_c 0 center_hit_state) 0) = Vector2.mk 0 (-7).
Proof. by vm_compute. Qed.

(** One pixel to the right of the centre the ball leaves with the binary32
    values of 6 * (1 / 70) and 4 * (1 / 70), which are not 3 / 35 and
    2 / 35. *)
Example off_center_hit :
  Ball.spd (ball (ball_paddle Arkanoid_c 0 off_center_state) 0)
    = Vector2.mk (11504377 # 134217728) (-7) /\
  Ball.spd (ball (ball_paddle Draft1_c 0 off_center_state) 0)
    = Vector2.mk (15339169 # 268435456) (-7).
Proof. by vm_compute. Qed.

(** A bounce in a run of [main]: frame 278 of the run sends the ball of
    slot 1 off with the binary32 value of 3 / 5. *)
Example bounce_in_flight :
  let g := run Arkanoid_c (take 278 relaunch_run) (fresh relaunch_draws) in
  reachable Arkanoid_c g /\
  Vector2.x (Ball.spd (ball g 1)) = (5033165 # 8388608)%Q.
Proof.
  cbv zeta. split; [apply reachable_run, reachable_fresh|]. by vm_compute.
Qed.

(** ** Walls (C4) *)

(** C4 as stated fails in a reachable state: the ball met the paddle while
    it overlapped the left wall, was sent further into the wall, was turned
    round on the next frame, and is still behind the wall line on the frame
    after: wall handling turns it towards the wall again. *)
Lemma C4_counterexample :
  let g := after_walls Arkanoid_c 0 hold_left corner_state in
  reachable Arkanoid_c corner_state /\
  gameState corner_state = GAME_PLAYING /\ pause corner_state = false /\
  Ball.active (ball g 0) = true /\
  Ball.pos (ball g 0) = Vector2.mk 11 649 /\ Ball.radius (ball g 0) = 12%Q /\
  (Vector2.x (Ball.pos (ball g 0)) - Ball.radius (ball g 0) <= 0)%Q /\
  Ball.spd (ball g 0) = Vector2.mk (-10605597 # 2097152) (-7) /\
  ~ (0 <= Vector2.x (Ball.spd (ball g 0)))%Q.
Proof.
  cbv zeta. split; [apply reachable_run, reachable_fresh|].
  vm_compute. do 5 (split; [reflexivity|]). split; [discriminate|].
  split; [reflexivity|]. intros H. by apply H.
Qed.

(** C4 (amended): wall handling negates the horizontal velocity of a ball
    whose left edge is at or past the left boundary or whose right edge is at
    or past the right boundary, and the vertical velocity of a ball whose top
    edge is at or past the top boundary, whichever way the ball was moving.
    So a ball that arrived moving towards the boundary it touches (or at
    rest in that direction) leaves wall handling with a velocity that does
    not drive it further out. *)
Theorem C4_walls_turn_incoming_ball (b : nat) (g : Game) :
  (b < length (balls g))%nat ->
  let g' := ball_walls b g in
  let left := (Vector2.x (Ball.pos (ball g b)) - Ball.radius (ball g b))%Q in
  let right := (Vector2.x (Ball.pos (ball g b)) + Ball.radius (ball g b))%Q in
  let top := (Vector2.y (Ball.pos (ball g b)) - Ball.radius (ball g b))%Q in
  let vx := Vector2.x (Ball.spd (ball g b)) in
  let vy := Vector2.y (Ball.spd (ball g b)) in
  let vx' := Vector2.x (Ball.spd (ball g' b)) in
  let vy' := Vector2.y (Ball.spd (ball g' b)) in
  Ball.pos (ball g' b) = Ball.pos (ball g b) /\
  ((left <= 0 \/ inject_Z screenWidth <= right)%Q -> (vx' == - vx)%Q) /\
  ((0 < left /\ right < inject_Z screenWidth)%Q -> vx' = vx) /\
  ((top <= 0)%Q -> (vy' == - vy)%Q) /\
  ((0 < top)%Q -> vy' = vy) /\
  ((left <= 0)%Q -> (vx <= 0)%Q -> (0 <= vx')%Q) /\
  ((inject_Z screenWidth <= right)%Q -> (0 <= vx)%Q -> (vx' <= 0)%Q) /\
  ((top <= 0)%Q -> (vy <= 0)%Q -> (0 <= vy')%Q).
Proof.
  intros Hb. cbv zeta. unfold ball_walls. cbv zeta.
  set (cx := _ || _).
  assert (Hcx : cx = true <->
            (Vector2.x (Ball.pos (ball g b)) - Ball.radius (ball g b) <= 0 \/
             inject_Z screenWidth <=
               Vector2.x (Ball.pos (ball g b)) + Ball.radius (ball g b))%Q).
  { unfold cx. rewrite orb_true_iff, !F_leb_le, F_sub_eq, F_add_eq. done. }
  set (g1 := if cx then _ else g).
  assert (Hg1 : Ball.pos (ball g1 b) = Ball.pos (ball g b) /\
                Ball.radius (ball g1 b) = Ball.radius (ball g b) /\
                Vector2.y (Ball.spd (ball g1 b)) = Vector2.y (Ball.spd (ball g b)) /\
                Vector2.x (Ball.spd (ball g1 b)) =
                  (if cx then Vector2.x (Ball.spd (ball g b)) *. flt (-1)
                   else Vector2.x (Ball.spd (ball g b))) /\
                (b < length (balls g1))%nat).
  { unfold g1. destruct cx; [|done]. unfold set_ball_spd_x.
    rewrite ball_set_ball_eq by done. simpl. by rewrite length_insert. }
  clearbody g1. destruct Hg1 as (Hp1 & Hr1 & Hy1 & Hx1 & Hb1).
  rewrite Hp1, Hr1.
  set (cy := _ <=. 0).
  assert (Hcy : cy = true <->
            (Vector2.y (Ball.pos (ball g b)) - Ball.radius (ball g b) <= 0)%Q).
  { unfold cy. rewrite F_leb_le, F_sub_eq. done. }
  set (g2 := if cy then _ else g1).
  assert (Hg2 : Ball.pos (ball g2 b) = Ball.pos (ball g b) /\
                Vector2.x (Ball.spd (ball g2 b)) = Vector2.x (Ball.spd (ball g1 b)) /\
                Vector2.y (Ball.spd (ball g2 b)) =
                  (if cy then Vector2.y (Ball.spd (ball g b)) *. flt (-1)
                   else Vector2.y (Ball.spd (ball g b)))).
  { unfold g2. destruct cy; [|done]. unfold set_ball_spd_y.
    rewrite ball_set_ball_eq by done. simpl. by rewrite Hy1. }
  clearbody g2. destruct Hg2 as (Hp2 & Hx2 & Hy2).
  rewrite Hp2, Hx2, Hx1, Hy2.
  assert (Hneg : forall v : Q, (v *. flt (-1) == - v)%Q).
  { intros v. rewrite F_mul_eq. unfold F.of_int. simpl inject_Z. ring. }
  split; [done|].
  split; [intros H; apply Hcx in H; rewrite H; apply Hneg|].
  split.
  { intros [Hl Hr]. destruct cx; [|done]. exfalso.
    destruct (proj1 Hcx eq_refl) as [H|H]; [by apply Qle_not_lt in H|by apply Qle_not_lt in H]. }
  split; [intros H; apply Hcy in H; rewrite H; apply Hneg|].
  split.
  { intros Ht. destruct cy; [|done]. exfalso.
    specialize (proj1 Hcy eq_refl) as H. by apply Qle_not_lt in H. }
  split; [|split].
  - intros Hl Hv. rewrite (proj2 Hcx (or_introl Hl)), Hneg. lra.
  - intros Hr Hv. rewrite (proj2 Hcx (or_intror Hr)), Hneg. lra.
  - intros Ht Hv. rewrite (proj2 Hcy Ht), Hneg. lra.
Qed.

Lemma C4_witness :
  (0 < length (balls wall_hit_state))%nat /\
  (Vector2.x (Ball.pos (ball wall_hit_state 0)) - Ball.radius (ball wall_hit_state 0) <= 0)%Q /\
  (Vector2.x (Ball.spd (ball wall_hit_state 0)) <= 0)%Q /\
  (0 <= Vector2.x (Ball.spd (ball (ball_walls 0 wall_hit_state) 0)))%Q.
Proof.
  assert (Hb : (0 < length (balls wall_hit_state))%nat) by (vm_compute; lia).
  assert (Hl : (Vector2.x (Ball.pos (ball wall_hit_state 0)) -
                Ball.radius (ball wall_hit_state 0) <= 0)%Q) by (vm_compute; discriminate).
  assert (Hv : (Vector2.x (Ball.spd (ball wall_hit_state 0)) <= 0)%Q)
    by (vm_compute; discriminate).
  split; [exact Hb|]. split; [exact Hl|]. split; [exact Hv|].
  exact (proj1 (proj2 (proj2 (proj2 (proj2 (proj2
           (C4_walls_turn_incoming_ball 0 wall_hit_state Hb)))))) Hl Hv).
Defined.

(** ** The paddle and the right wall (C2) *)

(** The two clamps of the movement step do keep a paddle that fits the
    screen inside it. *)
Lemma move_player_within (inp : Input) (g : Game) :
  (0 <= Vector2.x (Player.size (player g)) <= inject_Z screenWidth)%Q ->
  Player.size (player (move_player inp g)) = Player.size (player g) /\
  paddle_on_screen (move_player inp g).
Proof.
  intros [Hs0 Hs1]. unfold paddle_on_screen, move_player. cbv zeta.
  set (g1 := if key_left inp then _ else g).
  assert (H1 : Player.size (player g1) = Player.size (player g))
    by (unfold g1; by destruct (key_left inp)).
  clearbody g1.
  set (g2 := if key_right inp then _ else g1).
  assert (H2 : Player.size (player g2) = Player.size (player g))
    by (unfold g2; by destruct (key_right inp)).
  clearbody g2. clear g1 H1.
  set (g3 := if _ <. 0 then _ else g2).
  assert (H3 : Player.size (player g3) = Player.size (player g) /\
               (0 <= Vector2.x (Player.pos (player g3)))%Q).
  { unfold g3. destruct (_ <. 0) eqn:E; [done|]. split; [done|]. by apply F_ltb_ge. }
  clearbody g3. clear g2 H2. destruct H3 as [H3 Hpos].
  destruct (_ >. _) eqn:E.
  - cbn [player set_player_x set_player Player.size Player.set_pos Player.pos
         Vector2.set_x Vector2.x].
    rewrite H3. split; [done|]. rewrite F_sub_eq. unfold F.of_int. split; lra.
  - split; [done|]. split; [done|].
    apply F_ltb_ge in E. rewrite F_add_eq in E. unfold F.of_int in E. exact E.
Qed.

(** C2, at a reachable state: the paddle stands against the right wall
    ([pos.x = 820], width 140) when it collects an Expand powerup in the
    powerup pass, which runs after the clamps of the movement step; the
    frame ends with [pos.x = 820] and width 210, the paddle reaching to 1030,
    past [screenWidth = 960]. It stays there for as long as the game is
    paused; the next un-paused frame clamps it to [pos.x = 750]. *)
Theorem C2_expand_overhang :
  reachable Arkanoid_c expand_state /\
  gameState expand_state = GAME_PLAYING /\
  Player.pos (player expand_state) = Vector2.mk 820 670 /\
  Player.size (player expand_state) = Vector2.mk 210 22 /\
  ~ paddle_on_screen expand_state /\
  ~ paddle_on_screen (update_game Arkanoid_c press_p expand_state) /\
  Player.pos (player (update_game Arkanoid_c idle expand_state)) = Vector2.mk 750 670.
Proof.
  split; [apply reachable_run, reachable_fresh|].
  do 3 (split; [by vm_compute|]).
  split; [|split; [|by vm_compute]].
  - intros [_ H]. revert H. by vm_compute.
  - intros [_ H]. revert H. by vm_compute.
Qed.

(** ** The cap on the balls in play (C3) *)

(** The pool itself never grows: five slots in every reachable state. *)
Lemma ball_pool_capacity (tune : t_tuning) (g : Game) :
  reachable tune g -> length (balls g) = BALLS_MAX /\ (active_balls g <= BALLS_MAX)%nat.
Proof.
  intros Hg. destruct (reachable_invariant tune g Hg) as ((Hlen & _) & _).
  split; [done|]. unfold active_balls. rewrite <- Hlen. apply length_filter.
Qed.

(** C3, at a reachable state: the ball of slot 0 was lost and launched again
    twice while a clone of an earlier MultiBall was in flight, so that two
    balls are active while [ballsCount] is 0; the frame that collects the
    next MultiBall powerup clones until [ballsCount] is 3 and ends with five
    active balls. *)
Theorem C3_relaunch_beats_cap :
  reachable Arkanoid_c relaunch_before /\
  gameState relaunch_before = GAME_PLAYING /\
  active_balls relaunch_before = 2%nat /\
  ballsCount relaunch_before = 0 /\
  filter (fun p => Powerup.active p = true) (powerups relaunch_before) =
    [Powerup.mk (Vector2.mk 343 655) (Vector2.mk 0 2) POWERUP_MULTI_BALL true] /\
  filter (fun p => Powerup.active p = true) (powerups relaunch_state) = [] /\
  active_balls relaunch_state = 5%nat /\
  ballsCount relaunch_state = 3 /\
  length (balls relaunch_state) = BALLS_MAX.
Proof.
  split; [apply reachable_run, reachable_fresh|]. by vm_compute.
Qed.

(** ** Title, game, end screen, title, game (C6) *)

Lemma update_game_start (tune : t_tuning) (inp : Input) (g : Game) :
  gameState g = GAME_TITLE -> confirms inp = true ->
  update_game tune inp g = set_gameState GAME_PLAYING (init_game g).
Proof. intros Hst Hk. unfold update_game. unfold confirms in Hk. by rewrite Hst, Hk. Qed.

Lemma update_game_leave (tune : t_tuning) (inp : Input) (g : Game) :
  gameState g = GAME_OVER \/ gameState g = GAME_WIN -> confirms inp = true ->
  update_game tune inp g = set_gameState GAME_TITLE g.
Proof.
  intros Hst Hk. unfold update_game. unfold confirms in Hk. rewrite orb_comm in Hk.
  destruct Hst as [-> | ->]; by rewrite Hk.
Qed.

(** What a game just started looks like, whatever was played before. *)
Lemma started_game (g : Game) :
  well_formed g ->
  let g' := set_gameState GAME_PLAYING (init_game g) in
  gameState g' = GAME_PLAYING /\
  score g' = 0 /\
  player g' = fresh_player /\
  ballsCount g' = 1 /\
  (forall i, Ball.active (ball g' i) = false) /\
  ball g' 0 = fresh_ball /\
  Ball.pos (ball g' 0) = above_paddle g' /\
  bricks g' = fresh_bricks /\
  active_bricks g' = (LINES_OF_BRICKS * BRICKS_PER_LINE)%nat /\
  (forall i, Powerup.active (powerup g' i) = false) /\
  pause g' = false /\
  waiting_for_launch g' = true /\
  brickSize g' = Vector2.mk 96 38.
Proof.
  intros Hwf. pose proof (init_game_spec g Hwf) as H. cbv zeta in H. cbv zeta.
  revert H. generalize (init_game g).
  intros h (_ & _ & Hpl & Hact & Hcount & Hb0 & Hbr & Hpu & Hsc & Hpa & Hwa & Hbs).
  split; [done|]. split; [exact Hsc|]. split; [exact Hpl|]. split; [exact Hcount|].
  split; [exact Hact|]. split; [exact Hb0|].
  split.
  { unfold above_paddle.
    change (ball (set_gameState GAME_PLAYING h) 0) with (ball h 0).
    change (player (set_gameState GAME_PLAYING h)) with (player h).
    rewrite Hb0, Hpl. by vm_compute. }
  split; [exact Hbr|]. split; [exact (active_bricks_fresh h Hbr)|].
  split; [exact Hpu|]. split; [exact Hpa|]. split; [exact Hwa|exact Hbs].
Qed.

(** C6: from the title screen, starting a game, playing until the last life
    is lost, leaving the end screen and starting again gives a game in its
    initial condition: score 0, 3 lives, the paddle in its start position,
    one ball counted and no ball active, the ball of slot 0 at rest over the
    paddle's centre, all 50 bricks active, no powerup active, not paused,
    waiting for launch; all of these as in the first game. *)
Theorem C6_full_reset (tune : t_tuning) (start1 confirm start2 : Input)
    (frames : list Input) (g0 : Game) :
  reachable tune g0 ->
  gameState g0 = GAME_TITLE ->
  confirms start1 = true -> confirms confirm = true -> confirms start2 = true ->
  let g1 := update_game tune start1 g0 in
  let g2 := run tune frames g1 in
  let g3 := update_game tune confirm g2 in
  let g4 := update_game tune start2 g3 in
  gameState g2 = GAME_OVER ->
  gameState g1 = GAME_PLAYING /\ gameState g3 = GAME_TITLE /\
  gameState g4 = GAME_PLAYING /\
  score g4 = 0 /\
  Player.life (player g4) = PLAYER_MAX_LIFE /\
  player g4 = fresh_player /\
  ballsCount g4 = 1 /\
  (forall i, Ball.active (ball g4 i) = false) /\
  ball g4 0 = fresh_ball /\
  Ball.pos (ball g4 0) = above_paddle g4 /\
  bricks g4 = fresh_bricks /\
  active_bricks g4 = (LINES_OF_BRICKS * BRICKS_PER_LINE)%nat /\
  (forall i, Powerup.active (powerup g4 i) = false) /\
  pause g4 = false /\
  waiting_for_launch g4 = true /\
  (score g4 = score g1 /\ player g4 = player g1 /\ ballsCount g4 = ballsCount g1 /\
   ball g4 0 = ball g1 0 /\ bricks g4 = bricks g1 /\ brickSize g4 = brickSize g1 /\
   pause g4 = pause g1 /\ waiting_for_launch g4 = waiting_for_launch g1).
Proof.
  intros Hg0 Ht0 Hk1 Hk3 Hk4. cbv zeta.
  destruct (reachable_invariant tune g0 Hg0) as (Hwf0 & _).
  rewrite (update_game_start tune start1 g0 Ht0 Hk1).
  assert (Hg1 : reachable tune (set_gameState GAME_PLAYING (init_game g0))).
  { rewrite <- (update_game_start tune start1 g0 Ht0 Hk1). by constructor. }
  pose proof (started_game g0 Hwf0) as H1. cbv zeta in H1.
  revert Hg1 H1. generalize (set_gameState GAME_PLAYING (init_game g0)).
  intros g1 Hg1
    (Hst1 & Hsc1 & Hpl1 & Hcnt1 & _ & Hb1 & _ & Hbr1 & _ & _ & Hpa1 & Hwa1 & Hsize1).
  pose proof (reachable_run tune frames g1 Hg1) as Hg2.
  revert Hg2. generalize (run tune frames g1). intros g2 Hg2 Hover.
  destruct (reachable_invariant tune g2 Hg2) as (Hwf2 & _).
  rewrite (update_game_leave tune confirm g2 (or_introl Hover) Hk3).
  assert (Hwf3 : well_formed (set_gameState GAME_TITLE g2)) by exact Hwf2.
  assert (Ht3 : gameState (set_gameState GAME_TITLE g2) = GAME_TITLE) by reflexivity.
  revert Hwf3 Ht3. generalize (set_gameState GAME_TITLE g2). intros g3 Hwf3 Ht3.
  rewrite (update_game_start tune start2 g3 Ht3 Hk4).
  pose proof (started_game g3 Hwf3) as H4. cbv zeta in H4.
  revert H4. generalize (set_gameState GAME_PLAYING (init_game g3)).
  intros g4 (Hst4 & Hsc4 & Hpl4 & Hcnt4 & Hact4 & Hb4 & Hpos4 & Hbr4 & Hn4 & Hpu4 & Hpa4 &
             Hwa4 & Hsize4).
  split; [exact Hst1|]. split; [exact Ht3|]. split; [exact Hst4|]. split; [exact Hsc4|].
  split; [by rewrite Hpl4|]. split; [exact Hpl4|]. split; [exact Hcnt4|].
  split; [exact Hact4|]. split; [exact Hb4|]. split; [exact Hpos4|].
  split; [exact Hbr4|]. split; [exact Hn4|]. split; [exact Hpu4|].
  split; [exact Hpa4|]. split; [exact Hwa4|].
  rewrite Hsc4, Hsc1, Hpl4, Hpl1, Hcnt4, Hcnt1, Hb4, Hb1, Hbr4, Hbr1, Hsize4, Hsize1,
    Hpa4, Hpa1, Hwa4, Hwa1.
  by repeat split.
Qed.

Lemma C6_witness :
  reachable Arkanoid_c (fresh [1; 99; 1; 99; 1]) /\
  gameState (fresh [1; 99; 1; 99; 1]) = GAME_TITLE /\
  gameState (run Arkanoid_c losing_run
               (update_game Arkanoid_c press_enter (fresh [1; 99; 1; 99; 1]))) = GAME_OVER /\
  gameState (update_game Arkanoid_c press_enter (fresh [1; 99; 1; 99; 1])) = GAME_PLAYING.
Proof.
  assert (Hg0 : reachable Arkanoid_c (fresh [1; 99; 1; 99; 1])) by apply reachable_fresh.
  assert (Ht0 : gameState (fresh [1; 99; 1; 99; 1]) = GAME_TITLE) by (vm_compute; reflexivity).
  assert (Hover : gameState (run Arkanoid_c losing_run
            (update_game Arkanoid_c press_enter (fresh [1; 99; 1; 99; 1]))) = GAME_OVER)
    by (vm_compute; reflexivity).
  split; [exact Hg0|]. split; [exact Ht0|]. split; [exact Hover|].
  exact (proj1 (C6_full_reset Arkanoid_c press_enter press_enter press_space losing_run
                  (fresh [1; 99; 1; 99; 1]) Hg0 Ht0 eq_refl eq_refl eq_refl Hover)).
Defined.

(** The run of the witness, evaluated: the game restarted after the end
    screen differs from the first game in the random stream only. *)
Example restarted_game :
  let g1 := update_game Arkanoid_c press_enter (fresh [1; 99; 1; 99; 1]) in
  let g2 := run Arkanoid_c losing_run g1 in
  let g4 := update_game Arkanoid_c press_space (update_game Arkanoid_c press_enter g2) in
  Player.life (player g2) = 0 /\ score g2 = 300 /\ gameState g2 = GAME_OVER /\
  g4 = set_rnd_pos (rnd_pos g2) g1.
Proof. by vm_compute. Qed.

(** ** The brick scan (C1) *)

Lemma spawn_slot_cases (slots : list nat) (pos : Vector2.t) (type : t_powerup_type)
    (g : Game) :
  spawn_slot slots pos type g = g \/
  exists i, spawn_slot slots pos type g =
            set_powerup i (Powerup.mk pos (Vector2.mk 0 2) type true) g.
Proof.
  induction slots as [|i rest IH]; simpl; [by left|].
  destruct (negb _); [right; by exists i|exact IH].
Qed.

(** [spawn_powerup] touches the powerup pool and the random stream only. *)
Lemma spawn_powerup_keeps (pos : Vector2.t) (g : Game) :
  bricks (spawn_powerup pos g) = bricks g /\
  balls (spawn_powerup pos g) = balls g /\
  score (spawn_powerup pos g) = score g.
Proof.
  unfold spawn_powerup, rand.
  destruct (spawn_slot_cases (seq 0 POWERUPS_MAX) pos
              (powerup_of_roll (Z.rem (rnd g (rnd_pos g) mod (RAND_MAX + 1)) 100))
              (set_rnd_pos (S (rnd_pos g)) g)) as [-> | [i ->]]; done.
Qed.

Lemma hit_brick_spec (b : nat) (c : nat * nat) (g : Game) :
  let g' := hit_brick b c.1 c.2 g in
  let g1 := if overlaps b g c
            then set_brick c.1 c.2 (Brick.set_active false (brick g c.1 c.2)) g
            else g in
  bricks g' = bricks g1 /\
  balls g' = balls (if overlaps b g c
                    then set_ball_spd_y b (flip (Vector2.y (Ball.spd (ball g b)))) g
                    else g) /\
  score g' = (if overlaps b g c then score g + 100 else score g).
Proof.
  cbv zeta. unfold hit_brick, overlaps.
  destruct (_ && _); [|done].
  cbv zeta. unfold GetRandomValue.
  destruct (_ <=? 22).
  - match goal with
    | |- context [spawn_powerup ?p ?h] =>
        destruct (spawn_powerup_keeps p h) as (Hbr & Hba & Hsc)
    end.
    split; [exact Hbr|]. split; [exact Hba|exact Hsc].
  - done.
Qed.

Lemma brick_ext (g h : Game) (y x : nat) : bricks g = bricks h -> brick g y x = brick h y x.
Proof. unfold brick. by intros ->. Qed.

Lemma ball_ext (g h : Game) (i : nat) : balls g = balls h -> ball g i = ball h i.
Proof. unfold ball. by intros ->. Qed.

Lemma in_grid_frame (g g' : Game) (c : nat * nat) :
  length <$> bricks g' = length <$> bricks g -> in_grid g c -> in_grid g' c.
Proof.
  intros Hshape [Hy Hx]. unfold in_grid.
  assert (Hlen : length (bricks g') = length (bricks g)).
  { by rewrite <- (length_fmap length (bricks g')), Hshape, length_fmap. }
  split; [lia|].
  assert (Hrow : length (bricks g' !!! c.1) = length (bricks g !!! c.1)).
  { rewrite <- (list_lookup_total_fmap length (bricks g') c.1) by lia.
    rewrite <- (list_lookup_total_fmap length (bricks g) c.1) by lia.
    by rewrite Hshape. }
  lia.
Qed.

Lemma in_grid_scan_order (g : Game) (c : nat * nat) :
  well_formed g -> c ∈ scan_order -> in_grid g c.
Proof.
  intros (_ & _ & Hshape) Hc. destruct c as [y x].
  apply elem_of_scan_order in Hc as [Hy Hx]. unfold in_grid. simpl.
  assert (Hlen : length (bricks g) = LINES_OF_BRICKS).
  { by rewrite <- (length_fmap length (bricks g)), Hshape, length_replicate. }
  split; [lia|].
  rewrite <- (list_lookup_total_fmap length (bricks g) y) by lia. rewrite Hshape.
  rewrite lookup_total_replicate_2 by done. done.
Qed.

(** One cell of the scan, seen from ball [b] and from every cell [c']. *)
Lemma hit_brick_step (b : nat) (c : nat * nat) (g : Game) :
  (b < length (balls g))%nat -> in_grid g c ->
  let g' := hit_brick b c.1 c.2 g in
  (forall c', brick g' c'.1 c'.2 =
     if bool_decide (c' = c) && overlaps b g c
     then Brick.set_active false (brick g c.1 c.2) else brick g c'.1 c'.2) /\
  Ball.pos (ball g' b) = Ball.pos (ball g b) /\
  Ball.radius (ball g' b) = Ball.radius (ball g b) /\
  Vector2.y (Ball.spd (ball g' b)) =
    (if overlaps b g c then flip (Vector2.y (Ball.spd (ball g b)))
     else Vector2.y (Ball.spd (ball g b))) /\
  score g' = (if overlaps b g c then score g + 100 else score g).
Proof.
  intros Hb [Hy Hx]. pose proof (hit_brick_spec b c g) as H. cbv zeta in H. cbv zeta.
  destruct H as (Hbr & Hba & Hsc).
  split; [|split; [|split; [|split]]].
  - intros c'. rewrite (brick_ext _ _ _ _ Hbr).
    destruct (overlaps b g c).
    + destruct (bool_decide_reflect (c' = c)) as [->|Hne]; simpl.
      * by apply brick_set_brick_eq.
      * apply brick_set_brick_ne. destruct c, c'. simpl. congruence.
    + by rewrite andb_false_r.
  - rewrite (ball_ext _ _ _ Hba). destruct (overlaps b g c); [|done].
    unfold set_ball_spd_y. by rewrite ball_set_ball_eq.
  - rewrite (ball_ext _ _ _ Hba). destruct (overlaps b g c); [|done].
    unfold set_ball_spd_y. by rewrite ball_set_ball_eq.
  - rewrite (ball_ext _ _ _ Hba). destruct (overlaps b g c); [|done].
    unfold set_ball_spd_y. by rewrite ball_set_ball_eq.
  - exact Hsc.
Qed.

Lemma filter_ext_in {A : Type} (P Q : A -> Prop) `{!forall x, Decision (P x)}
    `{!forall x, Decision (Q x)} (l : list A) :
  (forall x, x ∈ l -> P x <-> Q x) -> filter P l = filter Q l.
Proof.
  induction l as [|a l IH]; intros Hext; [done|].
  rewrite !filter_cons. rewrite IH by (intros x Hx; apply Hext; by right).
  destruct (decide (P a)) as [Ha|Ha], (decide (Q a)) as [Hq|Hq]; try done.
  - exfalso. apply Hq, Hext; [left|done].
  - exfalso. apply Ha, Hext; [left|done].
Qed.

(** The scan over a list of distinct cells. *)
Lemma scan_spec (b : nat) (cells : list (nat * nat)) :
  NoDup cells ->
  forall g : Game,
  (b < length (balls g))%nat ->
  (forall c, c ∈ cells -> in_grid g c) ->
  let g' := fold_left (fun g c => hit_brick b c.1 c.2 g) cells g in
  (forall c, brick g' c.1 c.2 =
     if bool_decide (c ∈ cells) && overlaps b g c
     then Brick.set_active false (brick g c.1 c.2) else brick g c.1 c.2) /\
  Ball.pos (ball g' b) = Ball.pos (ball g b) /\
  Ball.radius (ball g' b) = Ball.radius (ball g b) /\
  Vector2.y (Ball.spd (ball g' b)) =
    Nat.iter (length (hits b g cells)) flip (Vector2.y (Ball.spd (ball g b))) /\
  score g' = score g + 100 * Z.of_nat (length (hits b g cells)).
Proof.
  induction 1 as [|c cells Hnotin Hnodup IH]; intros g Hb Hgrid; cbv zeta.
  - simpl. repeat split; try done. lia.
  - simpl fold_left.
    destruct (hit_brick_step b c g Hb (Hgrid c ltac:(left))) as (Hbr & Hpos & Hrad & Hvy & Hsc).
    destruct (sframe_hit_brick b c.1 c.2 g g (sframe_refl g)) as [Hfr _].
    revert Hbr Hpos Hrad Hvy Hsc Hfr. generalize (hit_brick b c.1 c.2 g).
    intros g1 Hbr Hpos Hrad Hvy Hsc Hfr.
    assert (Hb1 : (b < length (balls g1))%nat) by (rewrite (fr_balls _ _ Hfr); done).
    assert (Hgrid1 : forall c', c' ∈ cells -> in_grid g1 c').
    { intros c' Hc'. apply (in_grid_frame g); [apply (fr_bricks _ _ Hfr)|].
      apply Hgrid. by right. }
    assert (Hsame : forall c', c' ∈ cells -> overlaps b g1 c' = overlaps b g c').
    { intros c' Hc'. unfold overlaps. rewrite Hbr, Hpos, Hrad.
      destruct (bool_decide_reflect (c' = c)) as [->|Hne]; [done|]. done. }
    assert (Hhits : hits b g1 cells = hits b g cells).
    { unfold hits. apply filter_ext_in. intros c' Hc'. by rewrite Hsame. }
    specialize (IH g1 Hb1 Hgrid1). cbv zeta in IH.
    destruct IH as (Hbr' & Hpos' & Hrad' & Hvy' & Hsc').
    rewrite Hhits in Hvy', Hsc'.
    assert (Hn : length (hits b g (c :: cells)) =
                 ((if overlaps b g c then 1 else 0) + length (hits b g cells))%nat).
    { unfold hits. rewrite filter_cons.
      destruct (decide (overlaps b g c = true)) as [->|Hno]; [done|].
      by apply not_true_is_false in Hno as ->. }
    split; [|split; [|split; [|split]]].
    + intros c'. rewrite Hbr'.
      destruct (bool_decide_reflect (c' ∈ cells)) as [Hin|Hout].
      * rewrite (Hsame c' Hin), Hbr.
        assert (c' <> c) by (intros ->; done).
        rewrite (bool_decide_eq_false_2 (c' = c)) by done.
        rewrite bool_decide_eq_true_2 by (by right). done.
      * cbn [andb]. rewrite Hbr.
        destruct (bool_decide_reflect (c' = c)) as [->|Hne].
        -- rewrite bool_decide_eq_true_2 by left. done.
        -- rewrite bool_decide_eq_false_2; [done|].
           intros [?|?]%elem_of_cons; done.
    + by rewrite Hpos'.
    + by rewrite Hrad'.
    + rewrite Hvy', Hvy, Hn.
      destruct (overlaps b g c); [|done]. simpl Nat.add. by rewrite Nat.iter_succ_r.
    + rewrite Hsc', Hsc, Hn. destruct (overlaps b g c); lia.
Qed.

Lemma fold_left_bind {A B C : Type} (f : A -> C -> A) (k : B -> list C) (l : list B) :
  forall a, fold_left f (l ≫= k) a = fold_left (fun a x => fold_left f (k x) a) l a.
Proof.
  induction l as [|x l IH]; intros a; [done|].
  change ((x :: l) ≫= k) with (k x ++ (l ≫= k)). by rewrite fold_left_app, IH.
Qed.

Lemma fold_left_pointwise {A B : Type} (f f' : A -> B -> A) (l : list B) :
  (forall a x, f a x = f' a x) -> forall a, fold_left f l a = fold_left f' l a.
Proof.
  intros Hf. induction l as [|x l IH]; intros a; [done|]. simpl. by rewrite Hf, IH.
Qed.

(** The two nested loops visit the cells in [scan_order]: row by row from
    the top, each row from the left. *)
Lemma ball_bricks_scan (b : nat) (g : Game) :
  ball_bricks b g = fold_left (fun g c => hit_brick b c.1 c.2 g) scan_order g.
Proof.
  unfold ball_bricks, scan_order. rewrite fold_left_bind.
  apply fold_left_pointwise. intros a yy. by rewrite fold_left_bind.
Qed.

Lemma length_filter_split {A : Type} (P Q : A -> Prop) `{!forall x, Decision (P x)}
    `{!forall x, Decision (Q x)} (l : list A) :
  (length (filter (fun x => P x /\ Q x) l) + length (filter (fun x => P x /\ ~ Q x) l) =
   length (filter P l))%nat.
Proof.
  induction l as [|a l IH]; [done|]. rewrite !filter_cons.
  destruct (decide (P a)) as [Hp|Hp], (decide (Q a)) as [Hq|Hq];
    repeat (destruct (decide _) as [?|?]; try tauto); simpl; lia.
Qed.

(** C1 as stated fails in a reachable state: 59 frames into a game the ball
    of slot 0 (the only one) overlaps the two leftmost bricks of the bottom
    row at once. The scan meets (4, 0) first, yet (4, 1) is destroyed as
    well, the score grows by 200, and the vertical velocity, negated twice,
    is what it was. *)
Lemma C1_counterexample :
  let g59 := run Arkanoid_c gap_run (fresh [0]) in
  gap_state = before_bricks Arkanoid_c 0 idle g59 /\
  reachable Arkanoid_c g59 /\
  Ball.active (ball gap_state 0) = true /\
  hits 0 gap_state scan_order = [(4, 0); (4, 1)]%nat /\
  Brick.active (brick (ball_bricks 0 gap_state) 4 0) = false /\
  Brick.active (brick (ball_bricks 0 gap_state) 4 1) = false /\
  (active_bricks (ball_bricks 0 gap_state) + 2 = active_bricks gap_state)%nat /\
  score (ball_bricks 0 gap_state) = score gap_state + 200 /\
  Ball.spd (ball (ball_bricks 0 gap_state) 0) = Ball.spd (ball gap_state 0) /\
  score g59 = 0 /\ score (update_game Arkanoid_c idle g59) = 200.
Proof.
  cbv zeta. split; [reflexivity|].
  split; [apply reachable_run, reachable_fresh|]. by vm_compute.
Qed.

(** C1 (amended): the brick scan of a ball visits the cells in row-major
    order and hits every still-active brick the ball overlaps, not the first
    one only: each of them is deactivated (and no other brick changes), the
    score grows by 100 per brick hit and the vertical velocity is negated
    once per brick hit. With exactly one overlapped brick that is one brick
    gone, 100 points and one change of sign. *)
Theorem C1_every_overlapped_brick_is_hit (b : nat) (g : Game) :
  well_formed g ->
  (b < BALLS_MAX)%nat ->
  let g' := ball_bricks b g in
  let n := length (hits b g scan_order) in
  g' = fold_left (fun g c => hit_brick b c.1 c.2 g) scan_order g /\
  (forall y x, (y < LINES_OF_BRICKS)%nat -> (x < BRICKS_PER_LINE)%nat ->
     brick g' y x =
     if overlaps b g (y, x) then Brick.set_active false (brick g y x) else brick g y x) /\
  (active_bricks g' + n = active_bricks g)%nat /\
  score g' = score g + 100 * Z.of_nat n /\
  Vector2.y (Ball.spd (ball g' b)) = Nat.iter n flip (Vector2.y (Ball.spd (ball g b))) /\
  (n = 1%nat ->
   (active_bricks g' + 1 = active_bricks g)%nat /\
   score g' = score g + 100 /\
   (Vector2.y (Ball.spd (ball g' b)) == - Vector2.y (Ball.spd (ball g b)))%Q).
Proof.
  intros Hwf Hb. cbv zeta.
  assert (Hb' : (b < length (balls g))%nat) by (destruct Hwf as (-> & _); done).
  pose proof (scan_spec b scan_order NoDup_scan_order g Hb'
                (fun c Hc => in_grid_scan_order g c Hwf Hc)) as H.
  cbv zeta in H. rewrite <- ball_bricks_scan in H.
  split; [apply ball_bricks_scan|].
  revert H. generalize (ball_bricks b g).
  intros g' (Hbr & _ & _ & Hvy & Hsc).
  assert (Hcell : forall y x, (y < LINES_OF_BRICKS)%nat -> (x < BRICKS_PER_LINE)%nat ->
            brick g' y x =
            if overlaps b g (y, x) then Brick.set_active false (brick g y x)
            else brick g y x).
  { intros y x Hy Hx. pose proof (Hbr (y, x)) as Hyx. cbn [fst snd] in Hyx.
    rewrite Hyx. rewrite bool_decide_eq_true_2 by (by apply elem_of_scan_order). done. }
  assert (Hcount : (active_bricks g' + length (hits b g scan_order) = active_bricks g)%nat).
  { unfold active_bricks, hits.
    rewrite <- (length_filter_split
                  (fun c => Brick.active (brick g c.1 c.2) = true)
                  (fun c => overlaps b g c = true) scan_order).
    rewrite Nat.add_comm. f_equal.
    - f_equal. apply filter_ext_in. intros [y x] _. unfold overlaps. simpl.
      destruct (Brick.active (brick g y x)); simpl; intuition congruence.
    - f_equal. apply filter_ext_in. intros [y x] [Hy Hx]%elem_of_scan_order. simpl.
      rewrite (Hcell y x Hy Hx). unfold overlaps. simpl.
      destruct (Brick.active (brick g y x)) eqn:Ha; simpl.
      + destruct (CheckCollisionCircleRec _ _ _); simpl; [|rewrite Ha]; intuition congruence.
      + rewrite Ha. intuition congruence. }
  split; [exact Hcell|]. split; [exact Hcount|]. split; [exact Hsc|]. split; [exact Hvy|].
  intros Hone. rewrite Hone in Hcount, Hsc, Hvy.
  split; [exact Hcount|]. split; [exact Hsc|].
  rewrite Hvy. simpl. unfold flip. rewrite F_mul_eq. unfold F.of_int. simpl inject_Z. ring.
Qed.

Lemma C1_witness :
  well_formed gap_state /\ (0 < BALLS_MAX)%nat /\
  ball_bricks 0 gap_state =
    fold_left (fun g c => hit_brick 0 c.1 c.2 g) scan_order gap_state.
Proof.
  assert (Hwf : well_formed gap_state) by (vm_compute; by repeat split).
  assert (Hb : (0 < BALLS_MAX)%nat) by (unfold BALLS_MAX; lia).
  split; [exact Hwf|]. split; [exact Hb|].
  exact (proj1 (C1_every_overlapped_brick_is_hit 0 gap_state Hwf Hb)).
Defined.

(** * What each step may write *)

Lemma keeps_refl (w : t_writes) (g : Game) : keeps w g g.
Proof. by split. Qed.

Lemma keeps_trans (w : t_writes) (g1 g2 g3 : Game) :
  keeps w g1 g2 -> keeps w g2 g3 -> keeps w g1 g3.
Proof.
  intros [] []. split; intros;
    repeat match goal with
           | H : ?a = false -> _, H' : ?a = false |- _ => specialize (H H')
           end; congruence.
Qed.

Lemma implb_false (a b : bool) : implb a b = true -> b = false -> a = false.
Proof. by destruct a, b. Qed.

Lemma keeps_weaken (w w' : t_writes) (g g' : Game) :
  writes_le w w' = true -> keeps w g g' -> keeps w' g g'.
Proof.
  unfold writes_le. intros Hle [].
  repeat (apply andb_prop in Hle as [Hle ?]).
  split; eauto using implb_false.
Qed.

(** A step with write set [w] inside a function with the larger write set
    [w']. *)
Lemma keeps_step (w w' : t_writes) (g h h' : Game) :
  keeps w h h' -> writes_le w w' = true -> keeps w' g h -> keeps w' g h'.
Proof. intros Hs Hle Hg. eapply keeps_trans; [exact Hg|]. by eapply keeps_weaken. Qed.

Ltac setter_keeps :=
  let H := fresh in
  intros H []; split; simpl; auto; intros; congruence.

Lemma keeps_set_ball (w : t_writes) (i : nat) (b : Ball.t) (g h : Game) :
  w_balls w = true -> keeps w g h -> keeps w g (set_ball i b h).
Proof. setter_keeps. Qed.

Lemma keeps_set_powerup (w : t_writes) (i : nat) (p : Powerup.t) (g h : Game) :
  w_powerups w = true -> keeps w g h -> keeps w g (set_powerup i p h).
Proof. setter_keeps. Qed.

Lemma keeps_set_brick (w : t_writes) (yy xx : nat) (b : Brick.t) (g h : Game) :
  w_bricks w = true -> keeps w g h -> keeps w g (set_brick yy xx b h).
Proof. setter_keeps. Qed.

Lemma keeps_set_ballsCount (w : t_writes) (v : Z) (g h : Game) :
  w_ballsCount w = true -> keeps w g h -> keeps w g (set_ballsCount v h).
Proof. setter_keeps. Qed.

Lemma keeps_set_score (w : t_writes) (v : Z) (g h : Game) :
  w_score w = true -> keeps w g h -> keeps w g (set_score v h).
Proof. setter_keeps. Qed.

Lemma keeps_set_gameState (w : t_writes) (v : t_gamestate) (g h : Game) :
  w_gameState w = true -> keeps w g h -> keeps w g (set_gameState v h).
Proof. setter_keeps. Qed.

Lemma keeps_set_waiting_for_launch (w : t_writes) (v : bool) (g h : Game) :
  w_waiting w = true -> keeps w g h -> keeps w g (set_waiting_for_launch v h).
Proof. setter_keeps. Qed.

Lemma keeps_set_rnd_pos (w : t_writes) (v : nat) (g h : Game) :
  w_rnd_pos w = true -> keeps w g h -> keeps w g (set_rnd_pos v h).
Proof. setter_keeps. Qed.

Lemma keeps_set_player (w : t_writes) (p : Player.t) (g h : Game) :
  (w_pos w = false -> Player.pos p = Player.pos (player h)) ->
  (w_width w = false ->
   Player.size p = Player.size (player h) /\
   Player.expanded p = Player.expanded (player h) /\
   Player.expand_timer p = Player.expand_timer (player h)) ->
  (w_life w = false -> Player.life p = Player.life (player h)) ->
  Player.speed p = Player.speed (player h) ->
  keeps w g h -> keeps w g (set_player p h).
Proof.
  intros Hpos Hwidth Hlife Hspeed []. split; simpl; auto.
  - intros Hw. rewrite Hpos; auto.
  - intros Hw. destruct (Hwidth Hw) as (-> & _ & _); auto.
  - intros Hw. destruct (Hwidth Hw) as (_ & -> & _); auto.
  - intros Hw. destruct (Hwidth Hw) as (_ & _ & ->); auto.
  - intros Hw. rewrite Hlife; auto.
  - congruence.
Qed.

Lemma keeps_let (w : t_writes) (g e : Game) (k : Game -> Game) :
  keeps w g e -> (forall h, keeps w g h -> keeps w g (k h)) -> keeps w g (let x := e in k x).
Proof. intros He Hk. by apply Hk. Qed.

Lemma keeps_fold {B : Type} (w : t_writes) (f : Game -> B -> Game) (l : list B) :
  (forall g h b, keeps w g h -> keeps w g (f h b)) ->
  forall g h, keeps w g h -> keeps w g (fold_left f l h).
Proof. intros Hf g. induction l as [|b l IH]; simpl; auto. Qed.

Ltac keeps_here :=
  match goal with
  | |- keeps _ ?g ?h => constr_eq g h; apply keeps_refl
  | H : keeps ?w ?a ?b |- keeps ?w' ?c ?d =>
      constr_eq w w'; constr_eq a c; constr_eq b d; exact H
  end.

(** A side condition of a setter: the flag is set, or the field is the old
    one. *)
Ltac keeps_side :=
  first [ reflexivity
        | let H := fresh in
          intros H; first [ discriminate H | clear H; repeat split; reflexivity ] ].

Create HintDb keeps.
#[export] Hint Extern 0 (keeps _ _ _) => keeps_here : keeps.
#[export] Hint Extern 1 (keeps _ _ (set_ball _ _ _)) =>
  apply keeps_set_ball; [reflexivity|] : keeps.
#[export] Hint Extern 1 (keeps _ _ (set_powerup _ _ _)) =>
  apply keeps_set_powerup; [reflexivity|] : keeps.
#[export] Hint Extern 1 (keeps _ _ (set_brick _ _ _ _)) =>
  apply keeps_set_brick; [reflexivity|] : keeps.
#[export] Hint Extern 1 (keeps _ _ (set_ballsCount _ _)) =>
  apply keeps_set_ballsCount; [reflexivity|] : keeps.
#[export] Hint Extern 1 (keeps _ _ (set_score _ _)) =>
  apply keeps_set_score; [reflexivity|] : keeps.
#[export] Hint Extern 1 (keeps _ _ (set_gameState _ _)) =>
  apply keeps_set_gameState; [reflexivity|] : keeps.
#[export] Hint Extern 1 (keeps _ _ (set_waiting_for_launch _ _)) =>
  apply keeps_set_waiting_for_launch; [reflexivity|] : keeps.
#[export] Hint Extern 1 (keeps _ _ (set_rnd_pos _ _)) =>
  apply keeps_set_rnd_pos; [reflexivity|] : keeps.
#[export] Hint Extern 1 (keeps _ _ (set_player _ _)) =>
  apply keeps_set_player; [keeps_side | keeps_side | keeps_side | reflexivity | ] : keeps.

(** Walks through a function body made of setters, [let]s, [if]s and loops;
    the steps it calls are looked up in the hint database. *)
Ltac keeps_go :=
  cbv beta iota delta [GetRandomValue rand set_player_x set_ball_spd_x set_ball_spd_y
                       set_ball_pos_x set_ball_pos_y];
  first [ keeps_here |
  lazymatch goal with
  | |- keeps ?w ?g (let x := ?e in @?k x) =>
      first [ apply (keeps_let w g e k);
                [keeps_go | let h := fresh "h" in intros h ?; keeps_go]
            | change (keeps w g (k e)); keeps_go ]
  | |- keeps _ _ (if ?c then _ else _) => destruct c; keeps_go
  | |- keeps _ _ (set_ball _ _ _) => apply keeps_set_ball; [reflexivity | keeps_go]
  | |- keeps _ _ (set_powerup _ _ _) => apply keeps_set_powerup; [reflexivity | keeps_go]
  | |- keeps _ _ (set_brick _ _ _ _) => apply keeps_set_brick; [reflexivity | keeps_go]
  | |- keeps _ _ (set_ballsCount _ _) => apply keeps_set_ballsCount; [reflexivity | keeps_go]
  | |- keeps _ _ (set_score _ _) => apply keeps_set_score; [reflexivity | keeps_go]
  | |- keeps _ _ (set_gameState _ _) => apply keeps_set_gameState; [reflexivity | keeps_go]
  | |- keeps _ _ (set_waiting_for_launch _ _) =>
      apply keeps_set_waiting_for_launch; [reflexivity | keeps_go]
  | |- keeps _ _ (set_rnd_pos _ _) => apply keeps_set_rnd_pos; [reflexivity | keeps_go]
  | |- keeps _ _ (set_player _ _) =>
      apply keeps_set_player;
        [keeps_side | keeps_side | keeps_side | reflexivity | keeps_go]
  | |- keeps _ _ (fold_left _ _ _) =>
      apply keeps_fold; [let h := fresh "h" in intros ? h ? ?; keeps_go | keeps_go]
  | |- _ => solve [eauto 20 with keeps]
  end ].

(** The steps, each with its write set. *)

Ltac keeps_body f := intros; cbv beta delta [f]; keeps_go.

Lemma keeps_move_player (inp : Input) (g : Game) :
  keeps W_move_player g (move_player inp g).
Proof. cbv beta delta [move_player]. keeps_go. Qed.
#[export] Hint Extern 1 (keeps _ _ (move_player _ _)) =>
  eapply keeps_step; [apply keeps_move_player | reflexivity | ] : keeps.

Lemma keeps_expand_decay (inp : Input) (g : Game) :
  keeps W_expand_decay g (expand_decay inp g).
Proof. cbv beta delta [expand_decay]. keeps_go. Qed.
#[export] Hint Extern 1 (keeps _ _ (expand_decay _ _)) =>
  eapply keeps_step; [apply keeps_expand_decay | reflexivity | ] : keeps.

Lemma keeps_ball_move (b : nat) (g : Game) : keeps W_ball g (ball_move b g).
Proof. cbv beta delta [ball_move]. keeps_go. Qed.
#[export] Hint Extern 1 (keeps _ _ (ball_move _ _)) =>
  eapply keeps_step; [apply keeps_ball_move | reflexivity | ] : keeps.

Lemma keeps_ball_walls (b : nat) (g : Game) : keeps W_ball g (ball_walls b g).
Proof. cbv beta delta [ball_walls]. keeps_go. Qed.
#[export] Hint Extern 1 (keeps _ _ (ball_walls _ _)) =>
  eapply keeps_step; [apply keeps_ball_walls | reflexivity | ] : keeps.

Lemma keeps_ball_paddle (tune : t_tuning) (b : nat) (g : Game) :
  keeps W_ball g (ball_paddle tune b g).
Proof. cbv beta delta [ball_paddle]. keeps_go. Qed.
#[export] Hint Extern 1 (keeps _ _ (ball_paddle _ _ _)) =>
  eapply keeps_step; [apply keeps_ball_paddle | reflexivity | ] : keeps.

Lemma keeps_ball_lost (b : nat) (g : Game) : keeps W_ball_pool g (ball_lost b g).
Proof. cbv beta delta [ball_lost]. keeps_go. Qed.
#[export] Hint Extern 1 (keeps _ _ (ball_lost _ _)) =>
  eapply keeps_step; [apply keeps_ball_lost | reflexivity | ] : keeps.

Lemma keeps_reset_balls (pos : Vector2.t) (g : Game) :
  keeps W_ball_pool g (reset_balls pos g).
Proof. cbv beta delta [reset_balls]. keeps_go. Qed.
#[export] Hint Extern 1 (keeps _ _ (reset_balls _ _)) =>
  eapply keeps_step; [apply keeps_reset_balls | reflexivity | ] : keeps.

Lemma keeps_spawn_slot (slots : list nat) (pos : Vector2.t) (type : t_powerup_type)
    (g : Game) :
  keeps W_spawn g (spawn_slot slots pos type g).
Proof. induction slots as [|i rest IH]; simpl; keeps_go. Qed.
#[export] Hint Extern 1 (keeps _ _ (spawn_slot _ _ _ _)) =>
  eapply keeps_step; [apply keeps_spawn_slot | reflexivity | ] : keeps.

Lemma keeps_spawn_powerup (pos : Vector2.t) (g : Game) :
  keeps W_spawn g (spawn_powerup pos g).
Proof. cbv beta delta [spawn_powerup]. keeps_go. Qed.
#[export] Hint Extern 1 (keeps _ _ (spawn_powerup _ _)) =>
  eapply keeps_step; [apply keeps_spawn_powerup | reflexivity | ] : keeps.

Lemma keeps_clone_ball (i j : nat) (g : Game) : keeps W_clone g (clone_ball i j g).
Proof. cbv beta delta [clone_ball]. keeps_go. Qed.
#[export] Hint Extern 1 (keeps _ _ (clone_ball _ _ _)) =>
  eapply keeps_step; [apply keeps_clone_ball | reflexivity | ] : keeps.

Lemma keeps_multi_ball_slot (i : nat) (slots : list nat) (g : Game) :
  keeps W_clone g (multi_ball_slot i slots g).
Proof. induction slots as [|j rest IH]; simpl; keeps_go. Qed.
#[export] Hint Extern 1 (keeps _ _ (multi_ball_slot _ _ _)) =>
  eapply keeps_step; [apply keeps_multi_ball_slot | reflexivity | ] : keeps.

Lemma keeps_multi_ball (idxs : list nat) (g : Game) :
  keeps W_clone g (multi_ball idxs g).
Proof.
  revert g. induction idxs as [|i rest IH]; intros g; simpl; [apply keeps_refl|].
  destruct (_ <? 3); [|apply keeps_refl].
  eapply keeps_trans; [|apply IH]. keeps_go.
Qed.
#[export] Hint Extern 1 (keeps _ _ (multi_ball _ _)) =>
  eapply keeps_step; [apply keeps_multi_ball | reflexivity | ] : keeps.

Lemma keeps_apply_powerup (type : t_powerup_type) (g : Game) :
  keeps W_apply g (apply_powerup type g).
Proof. destruct type; cbv beta iota delta [apply_powerup]; keeps_go. Qed.
#[export] Hint Extern 1 (keeps _ _ (apply_powerup _ _)) =>
  eapply keeps_step; [apply keeps_apply_powerup | reflexivity | ] : keeps.

Lemma keeps_hit_brick (b yy xx : nat) (g : Game) :
  keeps W_bricks g (hit_brick b yy xx g).
Proof. cbv beta delta [hit_brick]. keeps_go. Qed.
#[export] Hint Extern 1 (keeps _ _ (hit_brick _ _ _ _)) =>
  eapply keeps_step; [apply keeps_hit_brick | reflexivity | ] : keeps.

Lemma keeps_ball_bricks (b : nat) (g : Game) : keeps W_bricks g (ball_bricks b g).
Proof. cbv beta delta [ball_bricks]. keeps_go. Qed.
#[export] Hint Extern 1 (keeps _ _ (ball_bricks _ _)) =>
  eapply keeps_step; [apply keeps_ball_bricks | reflexivity | ] : keeps.

Lemma keeps_update_ball (tune : t_tuning) (b : nat) (g : Game) :
  keeps W_update_ball g (update_ball tune b g).
Proof. cbv beta delta [update_ball]. keeps_go. Qed.
#[export] Hint Extern 1 (keeps _ _ (update_ball _ _ _)) =>
  eapply keeps_step; [apply keeps_update_ball | reflexivity | ] : keeps.

Lemma keeps_update_balls (tune : t_tuning) (g : Game) :
  keeps W_update_ball g (update_balls tune g).
Proof. cbv beta delta [update_balls]. keeps_go. Qed.
#[export] Hint Extern 1 (keeps _ _ (update_balls _ _)) =>
  eapply keeps_step; [apply keeps_update_balls | reflexivity | ] : keeps.

Lemma keeps_launch_ball (tune : t_tuning) (inp : Input) (g : Game) :
  keeps W_launch g (launch_ball tune inp g).
Proof. cbv beta delta [launch_ball]. keeps_go. Qed.
#[export] Hint Extern 1 (keeps _ _ (launch_ball _ _ _)) =>
  eapply keeps_step; [apply keeps_launch_ball | reflexivity | ] : keeps.

Lemma keeps_lose_life (g : Game) : keeps W_lose_life g (lose_life g).
Proof. cbv beta delta [lose_life]. keeps_go. Qed.
#[export] Hint Extern 1 (keeps _ _ (lose_life _)) =>
  eapply keeps_step; [apply keeps_lose_life | reflexivity | ] : keeps.

Lemma keeps_update_powerup (i : nat) (g : Game) :
  keeps W_powerups g (update_powerup i g).
Proof. cbv beta delta [update_powerup]. keeps_go. Qed.
#[export] Hint Extern 1 (keeps _ _ (update_powerup _ _)) =>
  eapply keeps_step; [apply keeps_update_powerup | reflexivity | ] : keeps.

Lemma keeps_update_powerups (g : Game) : keeps W_powerups g (update_powerups g).
Proof. cbv beta delta [update_powerups]. keeps_go. Qed.
#[export] Hint Extern 1 (keeps _ _ (update_powerups _)) =>
  eapply keeps_step; [apply keeps_update_powerups | reflexivity | ] : keeps.

Lemma keeps_check_win (g : Game) : keeps W_check_win g (check_win g).
Proof. cbv beta delta [check_win]. keeps_go. Qed.
#[export] Hint Extern 1 (keeps _ _ (check_win _)) =>
  eapply keeps_step; [apply keeps_check_win | reflexivity | ] : keeps.

Lemma keeps_simulate (tune : t_tuning) (inp : Input) (g : Game) :
  keeps W_simulate g (simulate tune inp g).
Proof. cbv beta delta [simulate]. keeps_go. Qed.

Lemma keeps_physics (tune : t_tuning) (inp : Input) (g : Game) :
  keeps W_physics g
    (update_balls tune (launch_ball tune inp (expand_decay inp (move_player inp g)))).
Proof. keeps_go. Qed.

(** * The frame as a whole *)

Lemma set_gameState_same (g : Game) : set_gameState (gameState g) g = g.
Proof. by destruct g. Qed.

(** What a frame can be. *)
Lemma update_game_cases (tune : t_tuning) (inp : Input) (g : Game) :
  update_game tune inp g = g \/
  (gameState g = GAME_TITLE /\
   update_game tune inp g = set_gameState GAME_PLAYING (init_game g)) \/
  (gameState g = GAME_PLAYING /\ update_game tune inp g = set_pause (negb (pause g)) g) \/
  (gameState g = GAME_PLAYING /\
   exists h, (h = g \/ h = set_pause (negb (pause g)) g) /\ pause h = false /\
             update_game tune inp g = simulate tune inp h) \/
  ((gameState g = GAME_OVER \/ gameState g = GAME_WIN) /\
   update_game tune inp g = set_gameState GAME_TITLE g).
Proof.
  unfold update_game. destruct (gameState g) eqn:Hst.
  - destruct (_ || _); auto.
  - cbv zeta. destruct (key_p inp).
    + destruct (negb (pause (set_pause _ g))) eqn:Hp; [|auto].
      right; right; right; left. split; [done|]. eexists. split; [by right|].
      split; [|done]. by apply negb_true_iff in Hp.
    + destruct (negb (pause g)) eqn:Hp; [|auto].
      right; right; right; left. split; [done|]. exists g. split; [by left|].
      split; [|done]. by apply negb_true_iff in Hp.
  - destruct (_ || _); auto 10.
  - destruct (_ || _); auto 10.
Qed.

(** A property of the states [init_game] produces that the pause flag and
    the way back to the title screen do not affect, and that an un-paused
    frame preserves, holds of every reachable state. *)
Lemma reachable_rule (tune : t_tuning) (P : Game -> Prop) :
  (forall g s, well_formed g -> s = GAME_TITLE \/ s = GAME_PLAYING ->
               P (set_gameState s (init_game g))) ->
  (forall g v, P g -> P (set_pause v g)) ->
  (forall g, P g -> gameState g <> GAME_PLAYING -> P (set_gameState GAME_TITLE g)) ->
  (forall inp g, invariant g -> gameState g = GAME_PLAYING -> P g ->
                 P (simulate tune inp g)) ->
  forall g, reachable tune g -> P g.
Proof.
  intros Hinit Hpause Htitle Hsim g Hg.
  induction Hg as [r|inp g Hg IH].
  - pose proof (Hinit (boot r) GAME_TITLE (well_formed_boot r) (or_introl eq_refl)) as H.
    pose proof (init_game_spec (boot r) (well_formed_boot r)) as Hspec. cbv zeta in Hspec.
    revert H Hspec. generalize (init_game (boot r)). intros h H (_ & Hst & _).
    change (gameState (boot r)) with GAME_TITLE in Hst.
    rewrite <- Hst in H. by rewrite set_gameState_same in H.
  - pose proof (reachable_invariant tune g Hg) as Hinv.
    destruct (update_game_cases tune inp g)
      as [-> | [[Hst ->] | [[Hst ->] | [(Hst & h & Hh & Hp & ->) | [Hst ->]]]]].
    + exact IH.
    + apply Hinit; [apply Hinv|by right].
    + by apply Hpause.
    + destruct Hh as [->| ->].
      * by apply Hsim.
      * apply Hsim; [exact Hinv|exact Hst|by apply Hpause].
    + apply Htitle; [exact IH|]. destruct Hst as [Hst|Hst]; rewrite Hst; done.
Qed.

(** * The phases *)

(** X1: the phase changes along the arrows of the state machine only. The
    title screen is left for the game exactly when SPACE or ENTER is
    pressed; the two end screens are left, for the title screen, exactly
    when one of these keys is pressed; a frame of the game stays in the game
    or, un-paused, ends on one of the end screens. *)
Theorem phase_transitions (tune : t_tuning) (inp : Input) (g : Game) :
  let g' := update_game tune inp g in
  match gameState g with
  | GAME_TITLE => gameState g' = if confirms inp then GAME_PLAYING else GAME_TITLE
  | GAME_PLAYING =>
      gameState g' = GAME_PLAYING \/
      (pause g' = false /\ (gameState g' = GAME_OVER \/ gameState g' = GAME_WIN))
  | GAME_OVER => gameState g' = if confirms inp then GAME_TITLE else GAME_OVER
  | GAME_WIN => gameState g' = if confirms inp then GAME_TITLE else GAME_WIN
  end.
Proof.
  cbv zeta. unfold confirms, update_game.
  destruct (gameState g) eqn:Hst.
  - destruct (_ || _); done.
  - cbv zeta.
    assert (Hsim : forall h, gameState h = GAME_PLAYING -> pause h = false ->
              gameState (simulate tune inp h) = GAME_PLAYING \/
              pause (simulate tune inp h) = false /\
              (gameState (simulate tune inp h) = GAME_OVER \/
               gameState (simulate tune inp h) = GAME_WIN)).
    { intros h Hh Hp. pose proof (simulate_phase tune inp h Hh) as Hph. cbv zeta in Hph.
      rewrite (k_pause _ _ _ (keeps_simulate tune inp h)), Hp.
      destruct Hph as [[-> _]|[[-> | ->] _]]; auto. }
    destruct (key_p inp).
    + destruct (negb _) eqn:Hp; [|by left].
      apply Hsim; [done|]. by apply negb_true_iff in Hp.
    + destruct (negb _) eqn:Hp; [|by left].
      apply Hsim; [done|]. by apply negb_true_iff in Hp.
  - rewrite (orb_comm (key_enter inp)). destruct (_ || _); done.
  - rewrite (orb_comm (key_enter inp)). destruct (_ || _); done.
Qed.

(** * The score *)

Lemma active_bricks_ext (g h : Game) : bricks g = bricks h -> active_bricks g = active_bricks h.
Proof. unfold active_bricks, brick. by intros ->. Qed.

Lemma tally_keeps (w : t_writes) (g g' : Game) :
  keeps w g g' -> w_score w = false -> w_bricks w = false -> tally g' = tally g.
Proof.
  intros [] Hs Hb. unfold tally.
  rewrite (active_bricks_ext g' g) by auto. rewrite k_score0 by done. done.
Qed.

Lemma length_filter_le {A : Type} (P Q : A -> Prop) `{!forall x, Decision (P x)}
    `{!forall x, Decision (Q x)} (l : list A) :
  (forall x, x ∈ l -> P x -> Q x) -> (length (filter P l) <= length (filter Q l))%nat.
Proof.
  induction l as [|a l IH]; intros Himp; [done|]. rewrite !filter_cons.
  assert (IH' := IH (fun x Hx => Himp x (list_elem_of_further _ _ _ Hx))).
  destruct (decide (P a)) as [Ha|Ha], (decide (Q a)) as [Hq|Hq]; simpl; try lia.
  exfalso. apply Hq, Himp; [left|done].
Qed.

Lemma active_bricks_frame (g g' : Game) :
  frame g g' -> (active_bricks g' <= active_bricks g)%nat.
Proof.
  intros Hfr. unfold active_bricks. apply length_filter_le.
  intros [y x] _. apply (fr_active _ _ Hfr).
Qed.

Lemma active_bricks_le (g : Game) : (active_bricks g <= 50)%nat.
Proof.
  unfold active_bricks. etrans; [apply length_filter|]. by vm_compute.
Qed.

(** The bricks a scan takes off the board. *)
Lemma scan_count (b : nat) (g g' : Game) :
  (forall y x, (y < LINES_OF_BRICKS)%nat -> (x < BRICKS_PER_LINE)%nat ->
     brick g' y x =
     if overlaps b g (y, x) then Brick.set_active false (brick g y x) else brick g y x) ->
  (active_bricks g' + length (hits b g scan_order) = active_bricks g)%nat.
Proof.
  intros Hcell. unfold active_bricks, hits.
  rewrite <- (length_filter_split
                (fun c => Brick.active (brick g c.1 c.2) = true)
                (fun c => overlaps b g c = true) scan_order).
  rewrite Nat.add_comm. f_equal.
  - f_equal. apply filter_ext_in. intros [y x] _. unfold overlaps. simpl.
    destruct (Brick.active (brick g y x)); simpl; intuition congruence.
  - f_equal. apply filter_ext_in. intros [y x] [Hy Hx]%elem_of_scan_order. simpl.
    rewrite (Hcell y x Hy Hx). unfold overlaps. simpl.
    destruct (Brick.active (brick g y x)) eqn:Ha; simpl.
    + destruct (CheckCollisionCircleRec _ _ _); simpl; [|rewrite Ha]; intuition congruence.
    + rewrite Ha. intuition congruence.
Qed.

Lemma tally_ball_bricks (b : nat) (g : Game) :
  well_formed g -> (b < BALLS_MAX)%nat -> tally (ball_bricks b g) = tally g.
Proof.
  intros Hwf Hb.
  assert (Hb' : (b < length (balls g))%nat) by (destruct Hwf as (-> & _); done).
  pose proof (scan_spec b scan_order NoDup_scan_order g Hb'
                (fun c Hc => in_grid_scan_order g c Hwf Hc)) as H.
  cbv zeta in H. rewrite <- ball_bricks_scan in H.
  revert H. generalize (ball_bricks b g). intros g' (Hbr & _ & _ & _ & Hsc).
  assert (Hcount := scan_count b g g'). unfold tally. rewrite Hsc.
  rewrite <- Hcount; [lia|].
  intros y x Hy Hx. pose proof (Hbr (y, x)) as Hyx. cbn [fst snd] in Hyx.
  rewrite Hyx. rewrite bool_decide_eq_true_2 by (by apply elem_of_scan_order). done.
Qed.

Lemma sframe_well_formed (g g' : Game) : sframe g g' -> well_formed g -> well_formed g'.
Proof. intros [Hfr _]. by apply frame_well_formed. Qed.

Lemma tally_update_ball (tune : t_tuning) (b : nat) (g : Game) :
  well_formed g -> (b < BALLS_MAX)%nat -> tally (update_ball tune b g) = tally g.
Proof.
  intros Hwf Hb. unfold update_ball. destruct (negb _); [done|]. cbv zeta.
  assert (Hk : keeps W_ball_pool g
                 (ball_lost b (ball_paddle tune b (ball_walls b (ball_move b g)))))
    by keeps_go.
  assert (Hs : sframe g (ball_lost b (ball_paddle tune b (ball_walls b (ball_move b g)))))
    by sframe_go.
  revert Hk Hs. generalize (ball_lost b (ball_paddle tune b (ball_walls b (ball_move b g)))).
  intros h Hk Hs. rewrite tally_ball_bricks; [|by eapply sframe_well_formed|done].
  by apply (tally_keeps _ _ _ Hk).
Qed.

Lemma tally_update_balls (tune : t_tuning) (g : Game) :
  well_formed g -> tally (update_balls tune g) = tally g.
Proof.
  intros Hwf. unfold update_balls.
  assert (H : forall l h, (forall b, b ∈ l -> (b < BALLS_MAX)%nat) -> well_formed h ->
            tally (fold_left (fun g b => update_ball tune b g) l h) = tally h).
  { induction l as [|b l IH]; intros h Hl Hh; [done|]. simpl.
    rewrite IH.
    - apply tally_update_ball; [done|]. apply Hl. left.
    - intros b' Hb'. apply Hl. by right.
    - eapply sframe_well_formed; [|exact Hh]. apply sframe_update_ball, sframe_refl. }
  apply H; [|done]. intros b Hb%elem_of_seq. lia.
Qed.

Lemma tally_simulate (tune : t_tuning) (inp : Input) (g : Game) :
  well_formed g -> tally (simulate tune inp g) = tally g.
Proof.
  intros Hwf. unfold simulate. cbv zeta.
  rewrite (tally_keeps _ _ _ (keeps_check_win _)) by done.
  rewrite (tally_keeps _ _ _ (keeps_update_powerups _)) by done.
  rewrite (tally_keeps _ _ _ (keeps_lose_life _)) by done.
  rewrite tally_update_balls.
  - rewrite (tally_keeps _ _ _ (keeps_launch_ball _ _ _)) by done.
    rewrite (tally_keeps _ _ _ (keeps_expand_decay _ _)) by done.
    by rewrite (tally_keeps _ _ _ (keeps_move_player _ _)).
  - eapply sframe_well_formed; [|exact Hwf]. sframe_go.
Qed.

Lemma tally_update_game (tune : t_tuning) (inp : Input) (g : Game) :
  well_formed g -> gameState g <> GAME_TITLE -> tally (update_game tune inp g) = tally g.
Proof.
  intros Hwf Hst.
  destruct (update_game_cases tune inp g)
    as [-> | [[Hst' _] | [[_ ->] | [(_ & h & Hh & _ & ->) | [_ ->]]]]]; try done.
  rewrite tally_simulate; destruct Hh as [->| ->]; done.
Qed.

Lemma reachable_tally (tune : t_tuning) (g : Game) : reachable tune g -> tally g = 5000.
Proof.
  revert g. apply (reachable_rule tune (fun g => tally g = 5000)); try done.
  - intros g s Hwf _. destruct (init_game_invariant g Hwf) as [_ Hn].
    pose proof (init_game_spec g Hwf) as Hspec. cbv zeta in Hspec.
    revert Hn Hspec. generalize (init_game g).
    intros h Hn (_ & _ & _ & _ & _ & _ & _ & _ & Hsc & _).
    unfold tally. change (score (set_gameState s h)) with (score h).
    change (active_bricks (set_gameState s h)) with (active_bricks h).
    rewrite Hsc, Hn. done.
  - intros inp g (Hwf & _) _ Ht. by rewrite tally_simulate.
Qed.

(** X2: the score counts the bricks destroyed. In every reachable state the
    score is 100 times the number of bricks that are gone from the grid of
    50; so it lies between 0 and 5000, a game that is won has 5000 points,
    and while the game is on fewer. *)
Theorem score_counts_bricks (tune : t_tuning) (g : Game) :
  reachable tune g ->
  score g = 100 * (50 - Z.of_nat (active_bricks g)) /\
  0 <= score g <= 5000 /\
  (gameState g = GAME_WIN -> score g = 5000) /\
  (gameState g = GAME_PLAYING -> score g < 5000).
Proof.
  intros Hg.
  assert (Htally : tally g = 5000).
  { revert g Hg. apply (reachable_rule tune (fun g => tally g = 5000)); try done.
    - intros g s Hwf _. destruct (init_game_invariant g Hwf) as [_ Hn].
      pose proof (init_game_spec g Hwf) as Hspec. cbv zeta in Hspec.
      revert Hn Hspec. generalize (init_game g).
      intros h Hn (_ & _ & _ & _ & _ & _ & _ & _ & Hsc & _).
      unfold tally. change (score (set_gameState s h)) with (score h).
      change (active_bricks (set_gameState s h)) with (active_bricks h).
      rewrite Hsc, Hn. done.
    - intros inp g (Hwf & _) _ Ht. by rewrite tally_simulate. }
  assert (Hwin : gameState g = GAME_WIN -> active_bricks g = 0%nat).
  { clear Htally. revert g Hg.
    apply (reachable_rule tune (fun g => gameState g = GAME_WIN -> active_bricks g = 0%nat)).
    - intros g s _ [-> | ->]; done.
    - done.
    - done.
    - intros inp g _ Hst _ Hwin. pose proof (simulate_phase tune inp g Hst) as Hph.
      cbv zeta in Hph. destruct Hph as [[_ Hz]|[[Hs|Hs] _]]; [done| |]; congruence. }
  pose proof (active_bricks_le g) as Hle.
  destruct (reachable_invariant tune g Hg) as (_ & _ & _ & Hplay).
  unfold tally in Htally. repeat split; try lia.
  - intros Hst. rewrite (Hwin Hst) in Htally. lia.
  - intros Hst. specialize (Hplay Hst). lia.
Qed.

Lemma score_counts_bricks_witness :
  reachable Arkanoid_c (run Arkanoid_c gap_run (fresh [0])) /\
  score (run Arkanoid_c gap_run (fresh [0])) =
    100 * (50 - Z.of_nat (active_bricks (run Arkanoid_c gap_run (fresh [0])))).
Proof.
  assert (H : reachable Arkanoid_c (run Arkanoid_c gap_run (fresh [0])))
    by apply reachable_run, reachable_fresh.
  split; [exact H|].
  exact (proj1 (score_counts_bricks Arkanoid_c _ H)).
Defined.

(** X3: outside the title screen a frame never lowers the score, and raises
    it by exactly 100 for each brick that it takes off the board. *)
Theorem score_per_brick (tune : t_tuning) (inp : Input) (g : Game) :
  well_formed g ->
  gameState g <> GAME_TITLE ->
  let g' := update_game tune inp g in
  (active_bricks g' <= active_bricks g)%nat /\
  score g' = score g + 100 * Z.of_nat (active_bricks g - active_bricks g') /\
  score g <= score g'.
Proof.
  intros Hwf Hst. cbv zeta.
  pose proof (tally_update_game tune inp g Hwf Hst) as Ht.
  pose proof (active_bricks_frame _ _ (frame_update_game tune inp g Hst)) as Hle.
  unfold tally in Ht. lia.
Qed.

Lemma score_per_brick_witness :
  well_formed (run Arkanoid_c gap_run (fresh [0])) /\
  gameState (run Arkanoid_c gap_run (fresh [0])) <> GAME_TITLE /\
  (active_bricks (update_game Arkanoid_c idle (run Arkanoid_c gap_run (fresh [0%Z])))
     <= active_bricks (run Arkanoid_c gap_run (fresh [0%Z])))%nat.
Proof.
  assert (Hwf : well_formed (run Arkanoid_c gap_run (fresh [0])))
    by (vm_compute; by repeat split).
  assert (Hst : gameState (run Arkanoid_c gap_run (fresh [0])) <> GAME_TITLE)
    by (by vm_compute).
  split; [exact Hwf|]. split; [exact Hst|].
  exact (proj1 (score_per_brick Arkanoid_c idle _ Hwf Hst)).
Defined.

(** * The powerup pass, as an induction rule *)

(** What holds before the pass and survives a write to a pool slot and the
    effect of a powerup holds after the pass. *)
Lemma update_powerup_rule (Q : Game -> Prop) (i : nat) (g : Game) :
  (forall p h, Q h -> Q (set_powerup i p h)) ->
  (forall t h, Q h -> Q (apply_powerup t h)) ->
  Q g -> Q (update_powerup i g).
Proof.
  intros Hset Happly Hg. unfold update_powerup.
  destruct (negb _); [done|]. cbv zeta.
  destruct (CheckCollisionRecs _ _); destruct (_ >. _); auto.
Qed.

Lemma update_powerups_rule (Q : Game -> Prop) (g : Game) :
  (forall i p h, Q h -> Q (set_powerup i p h)) ->
  (forall t h, Q h -> Q (apply_powerup t h)) ->
  Q g -> Q (update_powerups g).
Proof.
  intros Hset Happly. unfold update_powerups. generalize (seq 0 POWERUPS_MAX).
  intros l. revert g. induction l as [|i l IH]; intros g Hg; [done|].
  simpl. apply IH. apply update_powerup_rule; auto.
Qed.

(** * Lives *)

Lemma lose_life_life (g : Game) :
  (lose_life g = g) \/
  (Player.life (player (lose_life g)) = Player.life (player g) - 1 /\
   ((Player.life (player g) - 1 <= 0 /\ gameState (lose_life g) = GAME_OVER) \/
    (0 < Player.life (player g) - 1 /\ gameState (lose_life g) = gameState g))).
Proof.
  unfold lose_life. destruct (_ && _); [|by left]. right. cbv zeta.
  set (g1 := set_player _ g).
  change (Player.life (player g1)) with (Player.life (player g) - 1).
  destruct (Z.leb_spec (Player.life (player g) - 1) 0) as [Hle|Hgt].
  - split; [done|]. by left.
  - destruct (keeps_reset_balls (above_paddle g1) g1) as [].
    change (player (set_waiting_for_launch true ?h)) with (player h).
    change (gameState (set_waiting_for_launch true ?h)) with (gameState h).
    rewrite k_life0, k_gameState0 by done. split; [done|]. by right.
Qed.

Lemma apply_powerup_life (t : t_powerup_type) (g : Game) :
  Player.life (player g) <= Player.life (player (apply_powerup t g)) <=
    Player.life (player g) + 1.
Proof.
  destruct t; cbv beta iota delta [apply_powerup].
  - lia.
  - simpl. lia.
  - simpl. lia.
  - rewrite (k_life _ _ _ (keeps_multi_ball _ g)) by done. lia.
Qed.

Lemma update_powerups_life (g : Game) :
  Player.life (player g) <= Player.life (player (update_powerups g)).
Proof.
  apply (update_powerups_rule (fun h => Player.life (player g) <= Player.life (player h)));
    [done| |lia].
  intros t h Hh. pose proof (apply_powerup_life t h). lia.
Qed.

Lemma gameState_check_win (g : Game) :
  gameState (check_win g) = gameState g \/ gameState (check_win g) = GAME_WIN.
Proof. destruct (check_win_spec g) as [[_ ->]|[_ ->]]; auto. Qed.

(** The lives over an un-paused frame. *)
Lemma simulate_life (tune : t_tuning) (inp : Input) (g : Game) :
  gameState g = GAME_PLAYING ->
  let g' := simulate tune inp g in
  Player.life (player g) - 1 <= Player.life (player g') /\
  (gameState g' = GAME_PLAYING -> 1 <= Player.life (player g) ->
   1 <= Player.life (player g')).
Proof.
  intros Hst. cbv zeta. unfold simulate. cbv zeta.
  destruct (keeps_physics tune inp g) as [].
  revert k_life0 k_gameState0.
  generalize (update_balls tune (launch_ball tune inp (expand_decay inp (move_player inp g)))).
  intros x Hlx Hsx. specialize (Hlx eq_refl). specialize (Hsx eq_refl).
  pose proof (lose_life_life x) as Hl.
  pose proof (update_powerups_life (lose_life x)) as Hp.
  pose proof (k_gameState _ _ _ (keeps_update_powerups (lose_life x)) eq_refl) as Hps.
  revert Hl Hp Hps. generalize (lose_life x). intros l Hl Hp Hps.
  pose proof (k_life _ _ _ (keeps_check_win (update_powerups l)) eq_refl) as Hw.
  pose proof (gameState_check_win (update_powerups l)) as Hws.
  revert Hp Hps Hw Hws. generalize (update_powerups l). intros p Hp Hps Hw Hws.
  revert Hw Hws. generalize (check_win p). intros w Hw Hws.
  rewrite Hw. split.
  - destruct Hl as [->|[Hl _]]; lia.
  - intros Hplay Hpos.
    destruct Hws as [Hws|Hws]; [|congruence]. rewrite Hws, Hps in Hplay.
    destruct Hl as [->|[Hl [[_ Hover]|[Hgt _]]]]; [lia|congruence|lia].
Qed.

Lemma reachable_lives (tune : t_tuning) (g : Game) :
  reachable tune g ->
  0 <= Player.life (player g) /\
  (gameState g = GAME_PLAYING -> 1 <= Player.life (player g)).
Proof.
  revert g.
  apply (reachable_rule tune (fun g => 0 <= Player.life (player g) /\
           (gameState g = GAME_PLAYING -> 1 <= Player.life (player g)))).
  - intros g s Hwf _. pose proof (init_game_spec g Hwf) as Hspec. cbv zeta in Hspec.
    revert Hspec. generalize (init_game g). intros h (_ & _ & Hpl & _).
    change (player (set_gameState s h)) with (player h). rewrite Hpl. simpl. lia.
  - done.
  - intros g [H0 _] _. split; [exact H0|]. intros [=].
  - intros inp' g _ Hst [H0 H1]. specialize (H1 Hst).
    pose proof (simulate_life tune inp' g Hst) as Hs. cbv zeta in Hs.
    destruct Hs as [Hs1 Hs2]. split; [lia|]. auto.
Qed.

(** X4: the lives never run below zero, and while the game is on at least
    one is left; a frame outside the title screen takes one life at most. *)
Theorem lives_never_negative (tune : t_tuning) (inp : Input) (g : Game) :
  reachable tune g ->
  0 <= Player.life (player g) /\
  (gameState g = GAME_PLAYING -> 1 <= Player.life (player g)) /\
  (gameState g <> GAME_TITLE ->
   Player.life (player g) - 1 <= Player.life (player (update_game tune inp g))).
Proof.
  intros Hg. destruct (reachable_lives tune g Hg) as [H0 H1].
  split; [exact H0|]. split; [exact H1|].
  intros Hnt.
  destruct (update_game_cases tune inp g)
    as [-> | [[Hst' _] | [[_ ->] | [(Hst & h & Hh & _ & ->) | [_ ->]]]]];
    [lia|done|simpl; lia| |simpl; lia].
  assert (Hsth : gameState h = GAME_PLAYING) by (destruct Hh as [->| ->]; done).
  pose proof (simulate_life tune inp h Hsth) as Hs. cbv zeta in Hs.
  destruct Hs as [Hs _]. destruct Hh as [->| ->]; exact Hs.
Qed.

Lemma lives_never_negative_witness :
  reachable Arkanoid_c (run Arkanoid_c losing_run (fresh [1; 99; 1])) /\
  0 <= Player.life (player (run Arkanoid_c losing_run (fresh [1; 99; 1]))).
Proof.
  assert (H : reachable Arkanoid_c (run Arkanoid_c losing_run (fresh [1; 99; 1])))
    by apply reachable_run, reachable_fresh.
  split; [exact H|].
  exact (proj1 (lives_never_negative Arkanoid_c idle _ H)).
Defined.

(** * The paddle *)

Lemma paddle_ok_keeps (w : t_writes) (g g' : Game) :
  keeps w g g' -> w_pos w = false -> w_width w = false -> paddle_ok g -> paddle_ok g'.
Proof.
  intros [] Hp Hw (H0 & H1 & Hsz & Hsp & Ht). unfold paddle_ok.
  rewrite k_pos0, k_size0, k_expanded0, k_speed0, k_timer0 by done. done.
Qed.

Lemma paddle_ok_width (g : Game) :
  paddle_ok g ->
  (140 <= Vector2.x (Player.size (player g)) <= 210)%Q.
Proof.
  intros (_ & _ & -> & _). destruct (Player.expanded _); split; by vm_compute.
Qed.

Lemma paddle_ok_move_player (inp : Input) (g : Game) :
  paddle_ok g -> paddle_ok (move_player inp g) /\ paddle_on_screen (move_player inp g).
Proof.
  intros Hok. pose proof (paddle_ok_width g Hok) as [Hlo Hhi].
  destruct Hok as (H0 & H1 & Hsz & Hsp & Ht).
  destruct (move_player_within inp g) as [Hsize [Hl Hr]].
  { change (inject_Z screenWidth) with 960%Q. split; lra. }
  change (inject_Z screenWidth) with 960%Q in H1, Hr.
  destruct (keeps_move_player inp g) as [].
  split; [|by split]. unfold paddle_ok.
  rewrite k_expanded0, k_speed0, k_timer0, Hsize by done.
  rewrite Hsize in Hr. change (inject_Z screenWidth) with 960%Q.
  repeat split; try done. lra.
Qed.

Lemma paddle_ok_expand_decay (inp : Input) (g : Game) :
  paddle_ok g ->
  paddle_ok (expand_decay inp g) /\
  (Vector2.x (Player.size (player (expand_decay inp g)))
     <= Vector2.x (Player.size (player g)))%Q.
Proof.
  intros Hok. pose proof (paddle_ok_width g Hok) as [Hlo Hhi].
  destruct Hok as (H0 & H1 & Hsz & Hsp & Ht).
  unfold expand_decay, paddle_ok. destruct (Player.expanded (player g)) eqn:He.
  - cbv zeta. destruct (_ <=. 0) eqn:Et; simpl; rewrite ?He; repeat split; try done;
      try lra.
    intros _. destruct (Qlt_le_dec 0 (Player.expand_timer (player g) -. frame_time inp))
      as [?|Hle]; [done|].
    apply F_leb_le in Hle. simpl in Et. congruence.
  - rewrite He. repeat split; try done. lra.
Qed.

Lemma paddle_ok_apply_powerup (t : t_powerup_type) (g : Game) :
  paddle_ok g -> paddle_ok (apply_powerup t g).
Proof.
  intros Hok. destruct t; cbv beta iota delta [apply_powerup].
  - done.
  - destruct Hok as (H0 & H1 & Hsz & Hsp & Ht). by repeat split.
  - exact Hok.
  - by apply (paddle_ok_keeps _ _ _ (keeps_multi_ball _ g)).
Qed.

Lemma paddle_ok_update_powerups (g : Game) : paddle_ok g -> paddle_ok (update_powerups g).
Proof.
  apply (update_powerups_rule paddle_ok); [done|]. apply paddle_ok_apply_powerup.
Qed.

Lemma keeps_after_move (tune : t_tuning) (inp : Input) (g : Game) :
  keeps W_after_move g
    (check_win (update_powerups (lose_life (update_balls tune
       (launch_ball tune inp (expand_decay inp g)))))).
Proof. keeps_go. Qed.

(** The paddle over an un-paused frame. *)
Lemma simulate_paddle (tune : t_tuning) (inp : Input) (g : Game) :
  paddle_ok g ->
  let g' := simulate tune inp g in
  paddle_ok g' /\
  (Player.expanded (player g) = true \/ Player.expanded (player g') = false ->
   paddle_on_screen g').
Proof.
  intros Hok. cbv zeta. unfold simulate. cbv zeta.
  pose proof (paddle_ok_width g Hok) as Hwidth.
  assert (Hexp : Player.expanded (player g) = true ->
                 Vector2.x (Player.size (player g)) = 210%Q).
  { destruct Hok as (_ & _ & -> & _). by intros ->. }
  destruct (paddle_ok_move_player inp g Hok) as [Hm Hscreen].
  pose proof (k_size _ _ _ (keeps_move_player inp g) eq_refl) as Hmsize.
  pose proof (keeps_after_move tune inp (move_player inp g)) as Hrest.
  revert Hm Hscreen Hmsize Hrest. generalize (move_player inp g).
  intros m Hm [Hl Hr] Hmsize Hrest. rewrite Hmsize in Hr.
  pose proof (k_pos _ _ _ Hrest eq_refl) as Hpos. clear Hrest.
  destruct (paddle_ok_expand_decay inp m Hm) as [Hd _].
  revert Hpos Hd. generalize (expand_decay inp m). intros d Hpos Hd.
  assert (Hb : keeps W_update_ball (launch_ball tune inp d)
                 (update_balls tune (launch_ball tune inp d))) by apply keeps_update_balls.
  pose proof (paddle_ok_keeps _ _ _ (keeps_launch_ball tune inp d) eq_refl eq_refl Hd) as Hla.
  pose proof (paddle_ok_keeps _ _ _ Hb eq_refl eq_refl Hla) as Hba. clear Hb Hla Hd.
  revert Hpos Hba. generalize (update_balls tune (launch_ball tune inp d)).
  intros x Hpos Hx.
  pose proof (paddle_ok_keeps _ _ _ (keeps_lose_life x) eq_refl eq_refl Hx) as Hlo.
  apply paddle_ok_update_powerups in Hlo.
  pose proof (paddle_ok_keeps _ _ _ (keeps_check_win _) eq_refl eq_refl Hlo) as Hw.
  clear Hlo Hx. revert Hpos Hw.
  generalize (check_win (update_powerups (lose_life x))). intros w Hpos Hw.
  split; [exact Hw|]. intros Hcase. unfold paddle_on_screen. rewrite Hpos.
  change (inject_Z screenWidth) with 960%Q in Hr.
  change (inject_Z screenWidth) with 960%Q.
  split; [exact Hl|].
  destruct Hw as (_ & _ & Hsz & _). rewrite Hsz.
  destruct Hcase as [He| ->].
  - rewrite (Hexp He) in Hr. destruct (Player.expanded (player w)); lra.
  - destruct Hwidth as [Hlo _]. lra.
Qed.

Lemma reachable_paddle_ok (tune : t_tuning) (g : Game) : reachable tune g -> paddle_ok g.
Proof.
  revert g. apply (reachable_rule tune paddle_ok).
  - intros g s Hwf _. pose proof (init_game_spec g Hwf) as Hspec. cbv zeta in Hspec.
    revert Hspec. generalize (init_game g). intros h (_ & _ & Hpl & _).
    unfold paddle_ok. change (player (set_gameState s h)) with (player h).
    rewrite Hpl. by vm_compute.
  - done.
  - done.
  - intros inp g _ _ Hok. apply (simulate_paddle tune inp g Hok).
Qed.

(** X5: in every reachable state the paddle is 140 wide or, exactly when
    the expansion is on, 210, and then time is left on its timer; it moves
    8 a frame; its left edge is on the screen and never beyond 820, so that
    it reaches at most 70 past the right edge of the screen. *)
Theorem paddle_width_and_range (tune : t_tuning) (g : Game) :
  reachable tune g ->
  Vector2.x (Player.size (player g)) = (if Player.expanded (player g) then 210 else 140)%Q /\
  (Player.expanded (player g) = true -> (0 < Player.expand_timer (player g))%Q) /\
  Player.speed (player g) = 8%Q /\
  (0 <= Vector2.x (Player.pos (player g)) <= 820)%Q /\
  (Vector2.x (Player.pos (player g)) + Vector2.x (Player.size (player g)) <= 1030)%Q.
Proof.
  intros Hg.
  assert (Hok : paddle_ok g) by (by apply (reachable_paddle_ok tune)).
  pose proof (paddle_ok_width g Hok) as [_ Hhi].
  destruct Hok as (H0 & H1 & Hsz & Hsp & Ht). change (inject_Z screenWidth) with 960%Q in H1.
  repeat split; try done; lra.
Qed.

Lemma paddle_width_and_range_witness :
  reachable Arkanoid_c expand_state /\
  Vector2.x (Player.size (player expand_state)) =
    (if Player.expanded (player expand_state) then 210 else 140)%Q.
Proof.
  assert (H : reachable Arkanoid_c expand_state) by apply reachable_run, reachable_fresh.
  split; [exact H|].
  exact (proj1 (paddle_width_and_range Arkanoid_c _ H)).
Defined.

(** X6: an un-paused frame of the game ends with the paddle inside the
    screen, unless the paddle went from normal to expanded in that frame. *)
Theorem paddle_leaves_screen_only_on_expand (tune : t_tuning) (inp : Input) (g : Game) :
  reachable tune g ->
  gameState g = GAME_PLAYING ->
  let g' := update_game tune inp g in
  pause g' = false ->
  Player.expanded (player g) = true \/ Player.expanded (player g') = false ->
  paddle_on_screen g'.
Proof.
  intros Hg Hst. cbv zeta. intros Hp Hcase.
  assert (Hok : paddle_ok g) by (by apply (reachable_paddle_ok tune)).
  revert Hp Hcase. unfold update_game. rewrite Hst. cbv zeta.
  destruct (key_p inp).
  - destruct (negb (pause (set_pause _ g))) eqn:E.
    + intros _ Hcase. by apply (simulate_paddle tune inp (set_pause (negb (pause g)) g)).
    + intros Hp. apply negb_false_iff in E. congruence.
  - destruct (negb (pause g)) eqn:E.
    + intros _ Hcase. by apply simulate_paddle.
    + intros Hp. apply negb_false_iff in E. congruence.
Qed.

Lemma paddle_leaves_screen_only_on_expand_witness :
  reachable Arkanoid_c expand_state /\
  gameState expand_state = GAME_PLAYING /\
  pause (update_game Arkanoid_c hold_right expand_state) = false /\
  (Player.expanded (player expand_state) = true \/
   Player.expanded (player (update_game Arkanoid_c hold_right expand_state)) = false) /\
  paddle_on_screen (update_game Arkanoid_c hold_right expand_state).
Proof.
  assert (H : reachable Arkanoid_c expand_state) by apply reachable_run, reachable_fresh.
  assert (Hst : gameState expand_state = GAME_PLAYING) by (vm_compute; reflexivity).
  assert (Hp : pause (update_game Arkanoid_c hold_right expand_state) = false)
    by (vm_compute; reflexivity).
  assert (Hcase : Player.expanded (player expand_state) = true \/
            Player.expanded (player (update_game Arkanoid_c hold_right expand_state)) = false)
    by (left; vm_compute; reflexivity).
  split; [exact H|]. split; [exact Hst|]. split; [exact Hp|]. split; [exact Hcase|].
  exact (paddle_leaves_screen_only_on_expand Arkanoid_c hold_right _ H Hst Hp Hcase).
Defined.

(** * MultiBall *)

Lemma length_filter_insert {A : Type} `{Inhabited A} (P : A -> Prop)
    `{!forall x, Decision (P x)} (l : list A) (j : nat) (x : A) :
  (j < length l)%nat -> ~ P (l !!! j) -> P x ->
  length (filter P (<[j := x]> l)) = S (length (filter P l)).
Proof.
  revert j. induction l as [|a l IH]; intros j Hj Hold Hnew; [simpl in Hj; lia|].
  destruct j as [|j]; simpl in Hj, Hold; simpl.
  - rewrite !filter_cons. destruct (decide (P x)); [|done].
    destruct (decide (P a)); [done|]. done.
  - rewrite !filter_cons. destruct (decide (P a)); simpl; rewrite IH; auto; lia.
Qed.

Lemma ball_set_ball_cases (b k : nat) (x : Ball.t) (g : Game) :
  (k = b /\ ball (set_ball b x g) k = x) \/ ball (set_ball b x g) k = ball g k.
Proof.
  destruct (decide (b = k)) as [->|Hne]; [|right; by apply ball_set_ball_ne].
  destruct (decide (k < length (balls g))%nat) as [Hlt|Hge].
  - left. split; [done|]. by apply ball_set_ball_eq.
  - right. unfold ball, set_ball. simpl. rewrite list_insert_ge by lia. done.
Qed.

(** The clone that [clone_ball] writes into a free slot [j]. *)
Lemma clone_ball_spec (i j : nat) (g : Game) :
  (j < length (balls g))%nat ->
  Ball.active (ball g j) = false ->
  let g' := clone_ball i j g in
  ballsCount g' = ballsCount g + 1 /\
  length (balls g') = length (balls g) /\
  active_balls g' = S (active_balls g) /\
  (forall k, k <> j -> ball g' k = ball g k) /\
  exists s, (s = 1 \/ s = -1) /\
    ball g' j =
    Ball.mk (Ball.pos (ball g i))
            (Vector2.mk (Vector2.x (Ball.spd (ball g i)) *. flt (-1))
                        (Vector2.y (Ball.spd (ball g i)) *. flt s))
            (Ball.radius (ball g i)) true.
Proof.
  intros Hj Hfree. cbv zeta.
  assert (Hballs : exists s, (s = 1 \/ s = -1) /\
            balls (clone_ball i j g) =
            <[j := Ball.mk (Ball.pos (ball g i))
                     (Vector2.mk (Vector2.x (Ball.spd (ball g i)) *. flt (-1))
                                 (Vector2.y (Ball.spd (ball g i)) *. flt s))
                     (Ball.radius (ball g i)) true]> (balls g)).
  { exists (if 0 + rnd g (rnd_pos g) mod (1 - 0 + 1) =? 0 then 1 else -1).
    split; [destruct (_ =? 0); auto|].
    cbv beta iota zeta delta [clone_ball GetRandomValue ball set_ball balls set_balls
                              set_rnd_pos set_ballsCount rnd rnd_pos].
    rewrite !list_insert_insert_eq.
    rewrite !list_lookup_total_insert_eq by (rewrite ?length_insert; done).
    done. }
  destruct Hballs as (s & Hs & Hballs).
  split; [reflexivity|].
  split; [by rewrite Hballs, length_insert|].
  split; [|split].
  - unfold active_balls. rewrite Hballs.
    apply length_filter_insert; [done| |done].
    unfold ball in Hfree. by rewrite Hfree.
  - intros k Hk. unfold ball. rewrite Hballs. by apply list_lookup_total_insert_ne.
  - exists s. split; [done|]. unfold ball at 1. rewrite Hballs.
    by apply list_lookup_total_insert_eq.
Qed.

Lemma multi_ball_slot_cases (i : nat) (slots : list nat) (g : Game) :
  multi_ball_slot i slots g = g \/
  exists j, j ∈ slots /\ Ball.active (ball g j) = false /\
            multi_ball_slot i slots g = clone_ball i j g.
Proof.
  induction slots as [|j rest IH]; simpl; [by left|].
  destruct (Ball.active (ball g j)) eqn:Hj; simpl.
  - destruct IH as [IH|(k & Hk & Hfree & IH)]; [by left|].
    right. exists k. split; [by right|done].
  - right. exists j. split; [left|done].
Qed.

Lemma cloned_refl (g : Game) : cloned g g.
Proof. split; [done|lia|lia|lia|done]. Qed.

Lemma cloned_trans (g1 g2 g3 : Game) : cloned g1 g2 -> cloned g2 g3 -> cloned g1 g3.
Proof.
  intros [] []. split.
  - congruence.
  - lia.
  - lia.
  - lia.
  - intros k Hk. rewrite cl_kept1; [auto|]. by rewrite cl_kept0.
Qed.

Lemma cloned_clone_ball (i j : nat) (g : Game) :
  (j < length (balls g))%nat -> Ball.active (ball g j) = false -> ballsCount g < 3 ->
  cloned g (clone_ball i j g).
Proof.
  intros Hj Hfree Hcap. pose proof (clone_ball_spec i j g Hj Hfree) as H. cbv zeta in H.
  revert H. generalize (clone_ball i j g). intros g' (Hc & Hl & Ha & Hk & _).
  split.
  - done.
  - lia.
  - lia.
  - lia.
  - intros k Hact. apply Hk. intros ->. congruence.
Qed.

Lemma cloned_multi_ball (idxs : list nat) (g : Game) :
  length (balls g) = BALLS_MAX -> cloned g (multi_ball idxs g).
Proof.
  revert g. induction idxs as [|i rest IH]; intros g Hlen; cbn [multi_ball];
    [apply cloned_refl|].
  destruct (Z.ltb_spec (ballsCount g) 3) as [Hcap|_]; [|apply cloned_refl].
  assert (Hstep : cloned g (if Ball.active (ball g i)
                            then multi_ball_slot i (seq 0 BALLS_MAX) g else g)).
  { destruct (Ball.active (ball g i)); [|apply cloned_refl].
    destruct (multi_ball_slot_cases i (seq 0 BALLS_MAX) g)
      as [->|(j & Hj & Hfree & ->)]; [apply cloned_refl|].
    apply cloned_clone_ball; [|done|done].
    apply elem_of_seq in Hj. lia. }
  eapply cloned_trans; [exact Hstep|]. apply IH.
  rewrite (cl_length _ _ Hstep). exact Hlen.
Qed.

Lemma ball_beyond (g : Game) (i : nat) :
  (length (balls g) <= i)%nat -> Ball.active (ball g i) = false.
Proof. intros Hi. unfold ball. rewrite list_lookup_total_alt, lookup_ge_None_2; done. Qed.

Lemma active_balls_zero (g : Game) :
  active_balls g = 0%nat <-> forall i, Ball.active (ball g i) = false.
Proof.
  unfold active_balls. rewrite length_filter_zero. split.
  - intros H i. destruct (decide (i < length (balls g))%nat) as [Hi|Hi].
    + apply not_true_is_false, H. unfold ball. by apply list_elem_of_lookup_total_2.
    + apply ball_beyond. lia.
  - intros H x Hx. apply list_elem_of_lookup_total in Hx as (i & Hi & <-).
    fold (ball g i). by rewrite H.
Qed.

(** Without a ball in flight there is nothing to clone. *)
Lemma multi_ball_idle (idxs : list nat) (g : Game) :
  (forall i, Ball.active (ball g i) = false) -> multi_ball idxs g = g.
Proof.
  intros Hnone. induction idxs as [|i rest IH]; cbn [multi_ball]; [done|].
  destruct (_ <? 3); [|done]. by rewrite Hnone.
Qed.

(** X7: what a MultiBall powerup does. It clones balls in flight into free
    slots while the counter is below 3: the counter goes up by one for each
    clone and ends at 3 at most (or where it was); no ball in flight
    changes; with no ball in flight nothing happens at all. If the counter
    did not under-count the balls in flight before, at most 3 are in flight
    afterwards. *)
Theorem multi_ball_clones (g : Game) :
  length (balls g) = BALLS_MAX ->
  let g' := apply_powerup POWERUP_MULTI_BALL g in
  ballsCount g <= ballsCount g' <= Z.max (ballsCount g) 3 /\
  Z.of_nat (active_balls g') = Z.of_nat (active_balls g) + (ballsCount g' - ballsCount g) /\
  (forall k, Ball.active (ball g k) = true -> ball g' k = ball g k) /\
  (active_balls g = 0%nat -> g' = g) /\
  (Z.of_nat (active_balls g) <= ballsCount g ->
   Z.of_nat (active_balls g') <= Z.max (ballsCount g) 3).
Proof.
  intros Hlen. cbv zeta. cbv beta iota delta [apply_powerup].
  pose proof (cloned_multi_ball (seq 0 BALLS_MAX) g Hlen) as [].
  split; [lia|]. split; [done|]. split; [done|]. split; [|lia].
  intros Hz. apply multi_ball_idle. by apply active_balls_zero.
Qed.

Lemma multi_ball_clones_witness :
  length (balls relaunch_before) = BALLS_MAX /\
  ballsCount relaunch_before
    <= ballsCount (apply_powerup POWERUP_MULTI_BALL relaunch_before)
    <= Z.max (ballsCount relaunch_before) 3.
Proof.
  assert (H : length (balls relaunch_before) = BALLS_MAX) by (vm_compute; reflexivity).
  split; [exact H|].
  exact (proj1 (multi_ball_clones relaunch_before H)).
Defined.

(** * The balls in flight and their counter *)

Lemma length_filter_insert_same {A : Type} `{Inhabited A} (P : A -> Prop)
    `{!forall x, Decision (P x)} (l : list A) (j : nat) (x : A) :
  (P x <-> P (l !!! j)) -> length (filter P (<[j := x]> l)) = length (filter P l).
Proof.
  revert j. induction l as [|a l IH]; intros j Hiff; [done|].
  destruct j as [|j]; simpl in Hiff; simpl.
  - rewrite !filter_cons. destruct (decide (P x)), (decide (P a)); tauto.
  - rewrite !filter_cons. destruct (decide (P a)); simpl; by rewrite IH.
Qed.

Lemma length_filter_insert_off {A : Type} `{Inhabited A} (P : A -> Prop)
    `{!forall x, Decision (P x)} (l : list A) (j : nat) (x : A) :
  (j < length l)%nat -> P (l !!! j) -> ~ P x ->
  S (length (filter P (<[j := x]> l))) = length (filter P l).
Proof.
  revert j. induction l as [|a l IH]; intros j Hj Hold Hnew; [simpl in Hj; lia|].
  destruct j as [|j]; simpl in Hj, Hold; simpl.
  - rewrite !filter_cons. destruct (decide (P x)); [done|].
    destruct (decide (P a)); done.
  - rewrite !filter_cons. destruct (decide (P a)); simpl; rewrite <- (IH j); auto; lia.
Qed.

Lemma active_balls_ext (g h : Game) : balls g = balls h -> active_balls g = active_balls h.
Proof. unfold active_balls. by intros ->. Qed.

Lemma active_balls_set_ball_same (b : nat) (x : Ball.t) (h : Game) :
  Ball.active x = Ball.active (ball h b) -> active_balls (set_ball b x h) = active_balls h.
Proof.
  intros Hx. unfold active_balls, set_ball. simpl.
  apply length_filter_insert_same. unfold ball in Hx. by rewrite Hx.
Qed.

Lemma active_balls_set_ball_off (b : nat) (x : Ball.t) (h : Game) :
  (b < length (balls h))%nat -> Ball.active (ball h b) = true -> Ball.active x = false ->
  S (active_balls (set_ball b x h)) = active_balls h.
Proof.
  intros Hb Hold Hx. unfold active_balls, set_ball. simpl.
  apply length_filter_insert_off; [done|done|]. by rewrite Hx.
Qed.

Lemma active_balls_set_ball_on (b : nat) (x : Ball.t) (h : Game) :
  (b < length (balls h))%nat -> Ball.active (ball h b) = false -> Ball.active x = true ->
  active_balls (set_ball b x h) = S (active_balls h).
Proof.
  intros Hb Hold Hx. unfold active_balls, set_ball. simpl.
  apply length_filter_insert; [done| |done]. unfold ball in Hold. by rewrite Hold.
Qed.

(** What holds before the flight of ball [b] and survives every write of a
    [steady] ball to its slot holds after it. *)
Section Flight.

Variable Q : Game -> Prop.
Variable b : nat.
Hypothesis Q_ext : forall h h', balls h' = balls h -> Q h -> Q h'.
Hypothesis Q_set : forall h x, Q h -> steady (ball h b) x -> Q (set_ball b x h).

Ltac steady_go :=
  split; [reflexivity | split; [reflexivity | first [left; reflexivity | right; reflexivity]]].

Lemma rule_ball_move (g : Game) : Q g -> Q (ball_move b g).
Proof.
  intros Hg. unfold ball_move, set_ball_pos_x, set_ball_pos_y. cbv zeta.
  apply Q_set; [apply Q_set; [done|]|]; steady_go.
Qed.

Lemma rule_ball_walls (g : Game) : Q g -> Q (ball_walls b g).
Proof.
  intros Hg. unfold ball_walls, set_ball_spd_x, set_ball_spd_y. cbv zeta.
  destruct (_ || _).
  - destruct (_ <=. 0); [apply Q_set; [apply Q_set; [done|]|]|apply Q_set; [done|]];
      steady_go.
  - destruct (_ <=. 0); [apply Q_set; [done|]; steady_go|done].
Qed.

Lemma rule_ball_paddle (tune : t_tuning) (g : Game) : Q g -> Q (ball_paddle tune b g).
Proof.
  intros Hg. unfold ball_paddle, set_ball_spd_x, set_ball_spd_y.
  destruct (CheckCollisionCircleRec _ _ _); [|done]. cbv zeta.
  apply Q_set; [apply Q_set; [done|]|]; steady_go.
Qed.

Lemma rule_ball_bricks (g : Game) : Q g -> Q (ball_bricks b g).
Proof.
  rewrite ball_bricks_scan. generalize scan_order. intros cells. revert g.
  induction cells as [|c cells IH]; intros g Hg; [done|].
  simpl. apply IH.
  destruct (hit_brick_spec b c g) as (_ & Hballs & _).
  apply (Q_ext _ _ Hballs).
  destruct (overlaps b g c); [|done].
  unfold set_ball_spd_y. apply Q_set; [done|]. steady_go.
Qed.

End Flight.

(** The counter and the balls in flight over the update of ball [b]. *)
Lemma update_ball_count (tune : t_tuning) (b : nat) (g : Game) :
  (b < length (balls g))%nat ->
  let g' := update_ball tune b g in
  length (balls g') = length (balls g) /\
  ballsCount g' <= ballsCount g /\
  ballsCount g' - Z.of_nat (active_balls g') = ballsCount g - Z.of_nat (active_balls g).
Proof.
  intros Hb. cbv zeta. unfold update_ball.
  destruct (Ball.active (ball g b)) eqn:Hact; [|done]. cbv [negb]. cbv zeta.
  set (Q := fun h : Game =>
              length (balls h) = length (balls g) /\
              active_balls h = active_balls g /\ Ball.active (ball h b) = true).
  assert (Q_ext : forall h h', balls h' = balls h -> Q h -> Q h').
  { intros h h' Heq (Hl & Ha & Hb'). unfold Q.
    rewrite (active_balls_ext h' h Heq), (ball_ext h' h b Heq), Heq. done. }
  assert (Q_set : forall h x, Q h -> steady (ball h b) x -> Q (set_ball b x h)).
  { intros h x (Hl & Ha & Hb') (_ & Hx & _). unfold Q.
    rewrite active_balls_set_ball_same by done.
    rewrite ball_set_ball_eq by (rewrite Hl; done).
    split; [|split; [done|congruence]].
    unfold set_ball. simpl. by rewrite length_insert. }
  assert (Hf : Q (ball_paddle tune b (ball_walls b (ball_move b g)))).
  { apply rule_ball_paddle, rule_ball_walls, rule_ball_move; done. }
  assert (Hk : keeps W_ball g (ball_paddle tune b (ball_walls b (ball_move b g))))
    by keeps_go.
  apply (k_ballsCount _ _ _) in Hk; [|done].
  revert Hf Hk. generalize (ball_paddle tune b (ball_walls b (ball_move b g))).
  intros f (Hl & Ha & Hb') Hc.
  assert (Hlost : length (balls (ball_lost b f)) = length (balls g) /\
                  ballsCount (ball_lost b f) <= ballsCount g /\
                  ballsCount (ball_lost b f) - Z.of_nat (active_balls (ball_lost b f)) =
                  ballsCount g - Z.of_nat (active_balls g)).
  { unfold ball_lost. destruct (_ >. _); [|rewrite Hl, Ha, Hc; lia]. cbv zeta.
    pose proof (active_balls_set_ball_off b (Ball.set_active false (ball f b)) f
                  ltac:(rewrite Hl; done) Hb' eq_refl) as Hoff.
    change (ballsCount (set_ballsCount ?v ?h)) with v.
    change (ballsCount (set_ball ?i ?x ?h)) with (ballsCount h).
    change (active_balls (set_ballsCount ?v ?h)) with (active_balls h).
    change (balls (set_ballsCount ?v ?h)) with (balls h).
    split; [unfold set_ball; simpl; by rewrite length_insert|]. lia. }
  revert Hlost. generalize (ball_lost b f). intros l (Hll & Hlc & Hld).
  pose proof (k_ballsCount _ _ _ (keeps_ball_bricks b l) eq_refl) as Hbc.
  assert (Hbr : length (balls (ball_bricks b l)) = length (balls l) /\
                active_balls (ball_bricks b l) = active_balls l).
  { apply (rule_ball_bricks
             (fun h => length (balls h) = length (balls l) /\
                       active_balls h = active_balls l)); [| |done].
    - intros h h' Heq [? ?]. by rewrite (active_balls_ext h' h Heq), Heq.
    - intros h x [? ?] (_ & Hx & _). rewrite active_balls_set_ball_same by done.
      unfold set_ball. simpl. by rewrite length_insert. }
  destruct Hbr as [Hbl Hba]. rewrite Hbl, Hba, Hbc. done.
Qed.

Lemma update_balls_count (tune : t_tuning) (g : Game) :
  length (balls g) = BALLS_MAX ->
  let g' := update_balls tune g in
  length (balls g') = length (balls g) /\
  ballsCount g' <= ballsCount g /\
  ballsCount g' - Z.of_nat (active_balls g') = ballsCount g - Z.of_nat (active_balls g).
Proof.
  intros Hlen. cbv zeta. unfold update_balls.
  assert (H : forall l h, (forall b, b ∈ l -> (b < BALLS_MAX)%nat) ->
            length (balls h) = BALLS_MAX ->
            let h' := fold_left (fun g b => update_ball tune b g) l h in
            length (balls h') = length (balls h) /\
            ballsCount h' <= ballsCount h /\
            ballsCount h' - Z.of_nat (active_balls h') =
              ballsCount h - Z.of_nat (active_balls h)).
  { induction l as [|b l IH]; intros h Hl Hh; cbv zeta; [done|]. simpl.
    pose proof (update_ball_count tune b h) as Hb. cbv zeta in Hb.
    destruct Hb as (H1 & H2 & H3); [rewrite Hh; apply Hl; left|].
    revert H1 H2 H3. generalize (update_ball tune b h). intros h1 H1 H2 H3.
    specialize (IH h1). cbv zeta in IH.
    destruct IH as (H4 & H5 & H6); [intros b' Hb'; apply Hl; by right|congruence|].
    split; [congruence|]. lia. }
  apply H; [|done]. intros b Hb%elem_of_seq. lia.
Qed.

(** The three ways of the launch step. *)
Lemma launch_ball_spec (tune : t_tuning) (inp : Input) (g : Game) :
  (0 < length (balls g))%nat ->
  let g' := launch_ball tune inp g in
  (Ball.active (ball g 0) = true /\ g' = g) \/
  (Ball.active (ball g 0) = false /\ key_space inp = false /\
   waiting_for_launch g' = waiting_for_launch g /\
   balls g' = <[0%nat := Ball.set_pos (above_paddle g) (ball g 0)]> (balls g)) \/
  (Ball.active (ball g 0) = false /\ key_space inp = true /\
   waiting_for_launch g' = false /\
   exists s, (s = 1 \/ s = -1) /\
     balls g' =
     <[0%nat := Ball.mk (above_paddle g)
                  (Vector2.mk (flt (launch_spd_x tune * s)) (flt (launch_spd_y tune)))
                  (Ball.radius (ball g 0)) true]> (balls g)).
Proof.
  intros Hlen. cbv zeta. unfold launch_ball.
  destruct (Ball.active (ball g 0)) eqn:Hact; [by left|]. right. cbv [negb].
  destruct (key_space inp); [right|left]; (split; [done|]); (split; [done|]).
  - split; [reflexivity|].
    exists (if 0 + rnd g (rnd_pos g) mod (1 - 0 + 1) =? 0 then -1 else 1).
    split; [destruct (_ =? 0); auto|].
    cbv beta iota zeta delta [GetRandomValue ball set_ball balls set_balls set_ball_pos_x
      set_ball_pos_y set_rnd_pos set_waiting_for_launch rnd rnd_pos player above_paddle].
    rewrite !list_insert_insert_eq.
    rewrite !list_lookup_total_insert_eq by (rewrite ?length_insert; done).
    done.
  - split; [reflexivity|].
    cbv beta iota zeta delta [ball set_ball balls set_balls set_ball_pos_x
      set_ball_pos_y player above_paddle].
    rewrite !list_insert_insert_eq.
    rewrite !list_lookup_total_insert_eq by (rewrite ?length_insert; done).
    done.
Qed.

Lemma any_ball_active (g : Game) :
  length (balls g) = BALLS_MAX ->
  fold_left (fun any b => if Ball.active (ball g b) then true else any)
            (seq 0 BALLS_MAX) false = false <-> active_balls g = 0%nat.
Proof.
  intros Hlen. rewrite active_balls_zero. split.
  - intros Hf i. destruct (decide (i < BALLS_MAX)%nat) as [Hi|Hi].
    + apply not_true_is_false. intros Hact.
      assert (Ht : fold_left (fun any b => if Ball.active (ball g b) then true else any)
                     (seq 0 BALLS_MAX) false = true); [|congruence].
      apply (fold_left_or _ (fun b => Ball.active (ball g b) = true)).
      * intros acc x. destruct (Ball.active (ball g x)), acc; intuition.
      * right. exists i. split; [apply elem_of_seq; lia|done].
    + apply ball_beyond. lia.
  - intros Hnone. apply no_ball_active. auto.
Qed.

(** The three ways of the life-loss step. *)
Lemma lose_life_outcome (g : Game) :
  length (balls g) = BALLS_MAX ->
  let g1 := set_player (Player.set_life (Player.life (player g) - 1) (player g)) g in
  (((0 < active_balls g)%nat \/ waiting_for_launch g = true) /\ lose_life g = g) \/
  (active_balls g = 0%nat /\ waiting_for_launch g = false /\
   ((Player.life (player g) - 1 <= 0 /\ lose_life g = set_gameState GAME_OVER g1) \/
    (0 < Player.life (player g) - 1 /\
     lose_life g = set_waiting_for_launch true (reset_balls (above_paddle g1) g1)))).
Proof.
  intros Hlen. cbv zeta. pose proof (any_ball_active g Hlen) as Hany.
  unfold lose_life.
  destruct (fold_left _ _ false).
  - left. split; [|done]. left.
    destruct (active_balls g); [|lia]. destruct Hany as [_ Hany]. by discriminate Hany.
  - destruct (waiting_for_launch g); [left; split; [by right|done]|].
    right. split; [by apply Hany|]. split; [done|]. cbn [negb andb]. cbv zeta.
    change (Player.life (player (set_player ?p g))) with (Player.life p).
    cbn [Player.life Player.set_life].
    destruct (Z.leb_spec (Player.life (player g) - 1) 0); [left|right]; done.
Qed.

Lemma ball_book_ext (g g' : Game) :
  balls g' = balls g -> ballsCount g' = ballsCount g ->
  waiting_for_launch g' = waiting_for_launch g -> ball_book g -> ball_book g'.
Proof.
  intros Hb Hc Hw. unfold ball_book.
  by rewrite (active_balls_ext g' g Hb), Hb, Hc, Hw.
Qed.

Lemma ball_book_keeps (w : t_writes) (g g' : Game) :
  keeps w g g' -> w_balls w = false -> w_ballsCount w = false -> w_waiting w = false ->
  ball_book g -> ball_book g'.
Proof. intros [] ? ? ?. apply ball_book_ext; auto. Qed.

Lemma ball_book_apply_powerup (t : t_powerup_type) (g : Game) :
  ball_book g -> ball_book (apply_powerup t g).
Proof.
  intros Hbk. destruct t; cbv beta iota delta [apply_powerup]; try done.
  destruct Hbk as (Hlen & Hcap & Hw).
  destruct (waiting_for_launch g) eqn:Hwg.
  - rewrite multi_ball_idle; [|apply active_balls_zero; apply Hw].
    unfold ball_book. by rewrite Hwg.
  - pose proof (cloned_multi_ball (seq 0 BALLS_MAX) g Hlen) as [].
    pose proof (k_waiting _ _ _ (keeps_multi_ball (seq 0 BALLS_MAX) g) eq_refl) as Hwait.
    unfold ball_book. rewrite Hwait, Hwg, cl_length0.
    split; [done|]. split; lia.
Qed.

(** The bookkeeping over an un-paused frame. *)
Lemma simulate_ball_book (tune : t_tuning) (inp : Input) (g : Game) :
  ball_book g ->
  let g' := simulate tune inp g in
  ball_book g' /\
  (gameState g' = GAME_PLAYING -> waiting_for_launch g' = false ->
   (1 <= active_balls g')%nat).
Proof.
  intros Hbk. cbv zeta. unfold simulate. cbv zeta.
  assert (Hd : keeps W_no_balls g (expand_decay inp (move_player inp g))) by keeps_go.
  apply (fun H => ball_book_keeps W_no_balls _ _ H eq_refl eq_refl eq_refl Hbk) in Hd.
  clear Hbk. revert Hd. generalize (expand_decay inp (move_player inp g)).
  intros d (Hlen & Hcap & Hw).
  (* the launch *)
  assert (Hla : ball_book (launch_ball tune inp d)).
  { pose proof (launch_ball_spec tune inp d ltac:(rewrite Hlen; unfold BALLS_MAX; lia)) as Hl.
    pose proof (k_ballsCount _ _ _ (keeps_launch_ball tune inp d) eq_refl) as Hc.
    cbv zeta in Hl. revert Hl Hc. generalize (launch_ball tune inp d). intros l Hl Hc.
    destruct Hl as [[_ ->]|[(Hoff & _ & Hwl & Hballs)|(Hoff & _ & Hwl & s & _ & Hballs)]].
    - done.
    - unfold ball_book. rewrite Hwl, Hc, Hballs, length_insert.
      assert (Ha : active_balls l = active_balls d).
      { rewrite <- (active_balls_set_ball_same 0 (Ball.set_pos (above_paddle d) (ball d 0)) d)
          by done.
        apply active_balls_ext. exact Hballs. }
      by rewrite Ha.
    - unfold ball_book. rewrite Hwl, Hc, Hballs, length_insert.
      assert (Ha : active_balls l = S (active_balls d)).
      { rewrite <- (active_balls_set_ball_on 0
                      (Ball.mk (above_paddle d)
                         (Vector2.mk (flt (launch_spd_x tune * s)) (flt (launch_spd_y tune)))
                         (Ball.radius (ball d 0)) true) d);
          [|rewrite Hlen; unfold BALLS_MAX; lia|done|done].
        apply active_balls_ext. exact Hballs. }
      rewrite Ha. split; [done|]. split; [done|].
      destruct (waiting_for_launch d); lia. }
  clear Hlen Hcap Hw. revert Hla. generalize (launch_ball tune inp d).
  intros l (Hlen & Hcap & Hw).
  (* the balls *)
  assert (Hx : ball_book (update_balls tune l)).
  { pose proof (update_balls_count tune l Hlen) as Hu. cbv zeta in Hu.
    pose proof (k_waiting _ _ _ (keeps_update_balls tune l) eq_refl) as Hwx.
    revert Hu Hwx. generalize (update_balls tune l). intros x (Hxl & Hxc & Hxd) Hwx.
    unfold ball_book. rewrite Hwx. split; [congruence|]. split; [lia|].
    destruct (waiting_for_launch l); lia. }
  clear Hlen Hcap Hw. revert Hx. generalize (update_balls tune l).
  intros x Hx.
  (* the life-loss step *)
  assert (Hlo : ball_book (lose_life x) /\
                (gameState (lose_life x) = GAME_PLAYING ->
                 waiting_for_launch (lose_life x) = false ->
                 (1 <= active_balls (lose_life x))%nat)).
  { destruct Hx as (Hlen & Hcap & Hw).
    pose proof (lose_life_outcome x Hlen) as Ho. cbv zeta in Ho.
    destruct Ho as [[Hsome ->]|(Hzero & Hwait & [[_ ->]|[_ ->]])].
    - split; [done|]. intros _ Hwx. destruct Hsome as [Hsome|Hsome]; [lia|congruence].
    - split; [done|]. intros [=].
    - split; [|intros _ [=]].
      set (x1 := set_player _ x).
      destruct (reset_balls_spec (above_paddle x1) x1 Hlen) as (Heq & Hnone & _ & Hl).
      revert Heq Hnone Hl. generalize (reset_balls (above_paddle x1) x1).
      intros r Heq Hnone Hl. unfold ball_book.
      change (waiting_for_launch (set_waiting_for_launch true r)) with true.
      change (balls (set_waiting_for_launch true r)) with (balls r).
      change (ballsCount (set_waiting_for_launch true r)) with (ballsCount r).
      change (active_balls (set_waiting_for_launch true r)) with (active_balls r).
      assert (Hc : ballsCount r = 1) by (by rewrite Heq).
      rewrite Hc. split; [done|]. split; [lia|]. split; [|done].
      by apply active_balls_zero. }
  clear Hx. revert Hlo. generalize (lose_life x). intros lo [Hlo Hlive].
  (* the powerups *)
  assert (Hp : ball_book (update_powerups lo) /\
               (active_balls lo <= active_balls (update_powerups lo))%nat).
  { apply (update_powerups_rule
             (fun h => ball_book h /\ (active_balls lo <= active_balls h)%nat)).
    - done.
    - intros t h [Hh Hle]. split; [by apply ball_book_apply_powerup|].
      destruct t; cbv beta iota delta [apply_powerup]; try done.
      destruct Hh as (Hlen & _).
      pose proof (cloned_multi_ball (seq 0 BALLS_MAX) h Hlen) as []. lia.
    - done. }
  pose proof (k_waiting _ _ _ (keeps_update_powerups lo) eq_refl) as Hpw.
  pose proof (k_gameState _ _ _ (keeps_update_powerups lo) eq_refl) as Hps.
  revert Hp Hpw Hps. generalize (update_powerups lo). intros p [Hp Hle] Hpw Hps.
  (* the win check *)
  pose proof (gameState_check_win p) as Hws.
  destruct (keeps_check_win p) as [].
  split; [apply (ball_book_keeps W_check_win _ _ (keeps_check_win p) eq_refl eq_refl eq_refl Hp)|].
  intros Hplay Hwait.
  rewrite (active_balls_ext (check_win p) p) by auto.
  rewrite k_waiting0 in Hwait by done.
  destruct Hws as [Hws|Hws]; [|congruence].
  rewrite Hws in Hplay. etrans; [|exact Hle]. apply Hlive; congruence.
Qed.

(** X8: the ball counter in reachable states. It never exceeds 3. While a
    ball waits for its launch no ball is in flight and one ball is counted;
    otherwise the counter never exceeds the number of balls in flight (it
    may fall short of it), and while the game is on a ball is in flight. *)
Theorem ball_bookkeeping (tune : t_tuning) (g : Game) :
  reachable tune g ->
  ballsCount g <= 3 /\
  (waiting_for_launch g = true -> active_balls g = 0%nat /\ ballsCount g = 1) /\
  (waiting_for_launch g = false -> ballsCount g <= Z.of_nat (active_balls g)) /\
  (gameState g = GAME_PLAYING -> waiting_for_launch g = false ->
   (1 <= active_balls g)%nat).
Proof.
  intros Hg.
  assert (H : ball_book g /\
              (gameState g = GAME_PLAYING -> waiting_for_launch g = false ->
               (1 <= active_balls g)%nat)).
  { revert g Hg.
    apply (reachable_rule tune (fun g => ball_book g /\
             (gameState g = GAME_PLAYING -> waiting_for_launch g = false ->
              (1 <= active_balls g)%nat))).
    - intros g s Hwf _. pose proof (init_game_spec g Hwf) as Hspec. cbv zeta in Hspec.
      revert Hspec. generalize (init_game g).
      intros h ((Hlen & _) & _ & _ & Hnone & Hc & _ & _ & _ & _ & _ & Hw & _).
      apply active_balls_zero in Hnone.
      unfold ball_book.
      change (waiting_for_launch (set_gameState s h)) with (waiting_for_launch h).
      change (balls (set_gameState s h)) with (balls h).
      change (ballsCount (set_gameState s h)) with (ballsCount h).
      change (active_balls (set_gameState s h)) with (active_balls h).
      rewrite Hw, Hc, Hnone. split; [|congruence]. split; [done|]. split; [lia|done].
    - done.
    - intros g [Hbk _] _. split; [exact Hbk|]. intros [=].
    - intros inp g _ _ [Hbk _]. apply (simulate_ball_book tune inp g Hbk). }
  destruct H as [(_ & Hcap & Hw) Hlive].
  split; [exact Hcap|]. split; [|split; [|exact Hlive]].
  - intros Hwait. by rewrite Hwait in Hw.
  - intros Hwait. by rewrite Hwait in Hw.
Qed.

Lemma ball_bookkeeping_witness :
  reachable Arkanoid_c relaunch_state /\ ballsCount relaunch_state <= 3.
Proof.
  assert (H : reachable Arkanoid_c relaunch_state)
    by (apply reach_frame, reachable_run, reachable_fresh).
  split; [exact H|].
  exact (proj1 (ball_bookkeeping Arkanoid_c _ H)).
Defined.

(** * The shape of a ball in flight *)

Lemma Qred_inject_Z (z : Z) : Qred (inject_Z z) = inject_Z z.
Proof.
  unfold Qred, inject_Z.
  pose proof (Z.ggcd_gcd z 1) as Hg. pose proof (Z.ggcd_correct_divisors z 1) as Hd.
  destruct (Z.ggcd z 1) as [d [aa bb]]. simpl in Hg, Hd.
  rewrite Z.gcd_1_r in Hg. subst d. destruct Hd as [Ha Hb].
  assert (bb = 1) as -> by lia. assert (aa = z) as -> by lia. done.
Qed.

Lemma flt_mul (a b : Z) : flt a *. flt b = flt (a * b).
Proof.
  unfold F.mul, F.of_int.
  change (inject_Z a * inject_Z b)%Q with (inject_Z (a * b)). apply Qred_inject_Z.
Qed.

Lemma ball_ok_flip (tune : t_tuning) (a x : Ball.t) :
  ball_ok tune a ->
  Ball.radius x = Ball.radius a ->
  Vector2.y (Ball.spd x) = Vector2.y (Ball.spd a) \/
  Vector2.y (Ball.spd x) = flip (Vector2.y (Ball.spd a)) ->
  ball_ok tune x.
Proof.
  intros [Hr Hv] Hxr Hxv. split; [congruence|].
  destruct Hxv as [->| ->]; [done|]. unfold flip.
  destruct Hv as [->| ->]; rewrite flt_mul; [right|left]; f_equal; lia.
Qed.

Lemma balls_ok_ext (tune : t_tuning) (h h' : Game) :
  balls h' = balls h -> balls_ok tune h -> balls_ok tune h'.
Proof.
  intros Heq (Hl & H0 & Hk). unfold balls_ok.
  rewrite Heq, (ball_ext h' h 0 Heq). split; [done|]. split; [done|].
  intros k. rewrite (ball_ext h' h k Heq). apply Hk.
Qed.

(** A ball written to a slot: the ball of the slot moved, or a ball fit for
    flight. *)
Lemma balls_ok_set_ball (tune : t_tuning) (b : nat) (x : Ball.t) (h : Game) :
  balls_ok tune h ->
  (Ball.radius x = Ball.radius (ball h b) /\
   (Ball.active x = true ->
    Ball.active (ball h b) = true /\
    (Vector2.y (Ball.spd x) = Vector2.y (Ball.spd (ball h b)) \/
     Vector2.y (Ball.spd x) = flip (Vector2.y (Ball.spd (ball h b)))))) \/
  ball_ok tune x ->
  balls_ok tune (set_ball b x h).
Proof.
  intros (Hl & H0 & Hk) Hx.
  split; [unfold set_ball; simpl; by rewrite length_insert|]. split.
  - destruct (ball_set_ball_cases b 0 x h) as [[<- ->]| ->]; [|done].
    destruct Hx as [[-> _]|[Hr _]]; done.
  - intros k. destruct (ball_set_ball_cases b k x h) as [[-> ->]| ->]; [|apply Hk].
    intros Hact. destruct Hx as [[Hr Hv]|Hok]; [|done].
    destruct (Hv Hact) as [Hold Hvy].
    by apply (ball_ok_flip tune (ball h b)); [apply Hk| |].
Qed.

Lemma balls_ok_steady (tune : t_tuning) (b : nat) (x : Ball.t) (h : Game) :
  balls_ok tune h -> steady (ball h b) x -> balls_ok tune (set_ball b x h).
Proof.
  intros Hh (Hr & Ha & Hv). apply balls_ok_set_ball; [done|]. left.
  split; [done|]. intros Hact. split; [congruence|done].
Qed.

Lemma balls_ok_update_ball (tune : t_tuning) (b : nat) (g : Game) :
  balls_ok tune g -> balls_ok tune (update_ball tune b g).
Proof.
  intros Hg. unfold update_ball. destruct (negb _); [done|]. cbv zeta.
  assert (Hset : forall h x, balls_ok tune h -> steady (ball h b) x ->
                         balls_ok tune (set_ball b x h))
    by (intros h x; apply balls_ok_steady).
  apply (rule_ball_bricks (balls_ok tune) b (balls_ok_ext tune) Hset).
  unfold ball_lost.
  assert (Hf : balls_ok tune (ball_paddle tune b (ball_walls b (ball_move b g)))).
  { apply (rule_ball_paddle (balls_ok tune) b Hset).
    apply (rule_ball_walls (balls_ok tune) b Hset).
    by apply (rule_ball_move (balls_ok tune) b Hset). }
  revert Hf. generalize (ball_paddle tune b (ball_walls b (ball_move b g))).
  intros f Hf. destruct (_ >. _); [|done]. cbv zeta.
  apply (balls_ok_ext tune (set_ball b (Ball.set_active false (ball f b)) f)); [done|].
  apply balls_ok_set_ball; [done|]. left. split; [done|]. intros [=].
Qed.

Lemma balls_ok_update_balls (tune : t_tuning) (g : Game) :
  balls_ok tune g -> balls_ok tune (update_balls tune g).
Proof.
  unfold update_balls. generalize (seq 0 BALLS_MAX). intros l. revert g.
  induction l as [|b l IH]; intros g Hg; [done|]. simpl.
  by apply IH, balls_ok_update_ball.
Qed.

Lemma balls_ok_launch_ball (tune : t_tuning) (inp : Input) (g : Game) :
  balls_ok tune g -> balls_ok tune (launch_ball tune inp g).
Proof.
  intros Hg. pose proof Hg as (Hl & H0 & _).
  pose proof (launch_ball_spec tune inp g ltac:(rewrite Hl; unfold BALLS_MAX; lia)) as H.
  cbv zeta in H. revert H. generalize (launch_ball tune inp g). intros l H.
  destruct H as [[_ ->]|[(Hoff & _ & _ & Hballs)|(Hoff & _ & _ & s & _ & Hballs)]].
  - done.
  - apply (balls_ok_ext tune
             (set_ball 0 (Ball.set_pos (above_paddle g) (ball g 0)) g)); [done|].
    apply balls_ok_set_ball; [done|]. left. split; [done|].
    simpl. intros Hact. congruence.
  - apply (balls_ok_ext tune
             (set_ball 0 (Ball.mk (above_paddle g)
                            (Vector2.mk (flt (launch_spd_x tune * s))
                                        (flt (launch_spd_y tune)))
                            (Ball.radius (ball g 0)) true) g)); [done|].
    apply balls_ok_set_ball; [done|]. right. split; [done|]. by left.
Qed.

Lemma balls_ok_lose_life (tune : t_tuning) (g : Game) :
  balls_ok tune g -> balls_ok tune (lose_life g).
Proof.
  intros Hg. pose proof Hg as (Hl & _).
  pose proof (lose_life_outcome g Hl) as Ho. cbv zeta in Ho.
  destruct Ho as [[_ ->]|(_ & _ & [[_ ->]|[_ ->]])]; [done|done|].
  set (g1 := set_player _ g).
  destruct (reset_balls_spec (above_paddle g1) g1 Hl) as (_ & Hnone & Hb0 & Hlen).
  revert Hnone Hb0 Hlen. generalize (reset_balls (above_paddle g1) g1).
  intros r Hnone Hb0 Hlen.
  split; [exact Hlen|]. split.
  - change (ball (set_waiting_for_launch true r) 0) with (ball r 0). by rewrite Hb0.
  - intros k. change (ball (set_waiting_for_launch true r) k) with (ball r k).
    by rewrite Hnone.
Qed.

Lemma balls_ok_multi_ball (tune : t_tuning) (idxs : list nat) (g : Game) :
  balls_ok tune g -> balls_ok tune (multi_ball idxs g).
Proof.
  revert g. induction idxs as [|i rest IH]; intros g Hg; cbn [multi_ball]; [done|].
  destruct (_ <? 3); [|done]. apply IH.
  destruct (Ball.active (ball g i)) eqn:Hi; [|done].
  destruct (multi_ball_slot_cases i (seq 0 BALLS_MAX) g)
    as [->|(j & Hj & Hfree & ->)]; [done|].
  pose proof Hg as (Hl & H0 & Hk).
  assert (Hjl : (j < length (balls g))%nat) by (apply elem_of_seq in Hj; lia).
  pose proof (clone_ball_spec i j g Hjl Hfree) as H. cbv zeta in H.
  revert H. generalize (clone_ball i j g).
  intros c (_ & Hcl & _ & Hother & s & Hs & Hclone).
  destruct (Hk i Hi) as [Hr Hv].
  assert (Hok : ball_ok tune (ball c j)).
  { rewrite Hclone. split; [done|]. simpl.
    destruct Hs as [->| ->], Hv as [->| ->]; rewrite flt_mul;
      [left|right|right|left]; f_equal; lia. }
  split; [congruence|]. split.
  - destruct (decide (j = 0%nat)) as [->|Hne]; [apply Hok|].
    by rewrite Hother.
  - intros k Hact. destruct (decide (k = j)) as [->|Hne]; [exact Hok|].
    rewrite Hother in Hact |- * by done. by apply Hk.
Qed.

Lemma balls_ok_apply_powerup (tune : t_tuning) (t : t_powerup_type) (g : Game) :
  balls_ok tune g -> balls_ok tune (apply_powerup t g).
Proof.
  intros Hg. destruct t; cbv beta iota delta [apply_powerup]; try done.
  by apply balls_ok_multi_ball.
Qed.

Lemma balls_ok_keeps (tune : t_tuning) (w : t_writes) (g g' : Game) :
  keeps w g g' -> w_balls w = false -> balls_ok tune g -> balls_ok tune g'.
Proof. intros [] Hw. apply balls_ok_ext. auto. Qed.

Lemma balls_ok_simulate (tune : t_tuning) (inp : Input) (g : Game) :
  balls_ok tune g -> balls_ok tune (simulate tune inp g).
Proof.
  intros Hg. unfold simulate. cbv zeta.
  apply (balls_ok_keeps tune W_check_win _ _ (keeps_check_win _) eq_refl).
  apply (update_powerups_rule (balls_ok tune)); [done|apply balls_ok_apply_powerup|].
  apply balls_ok_lose_life, balls_ok_update_balls, balls_ok_launch_ball.
  apply (balls_ok_keeps tune W_expand_decay _ _ (keeps_expand_decay _ _) eq_refl).
  by apply (balls_ok_keeps tune W_move_player _ _ (keeps_move_player _ _) eq_refl).
Qed.

(** X9: every ball in flight has radius 12 and moves vertically at the
    speed of the launch, up or down: bounces and clones change the sign
    only. The ball of slot 0 has radius 12 also while it waits. *)
Theorem ball_radius_and_vertical_speed (tune : t_tuning) (g : Game) (i : nat) :
  reachable tune g ->
  Ball.radius (ball g 0) = 12%Q /\
  (Ball.active (ball g i) = true ->
   Ball.radius (ball g i) = 12%Q /\
   (Vector2.y (Ball.spd (ball g i)) = flt (launch_spd_y tune) \/
    Vector2.y (Ball.spd (ball g i)) = flt (- launch_spd_y tune))).
Proof.
  intros Hg.
  assert (H : balls_ok tune g).
  { revert g Hg. apply (reachable_rule tune (balls_ok tune)).
    - intros g s Hwf _. pose proof (init_game_spec g Hwf) as Hspec. cbv zeta in Hspec.
      revert Hspec. generalize (init_game g).
      intros h ((Hlen & _) & _ & _ & Hnone & _ & Hb0 & _).
      split; [exact Hlen|]. split.
      + change (ball (set_gameState s h) 0) with (ball h 0). by rewrite Hb0.
      + intros k. change (ball (set_gameState s h) k) with (ball h k). by rewrite Hnone.
    - done.
    - done.
    - intros inp g _ _. apply balls_ok_simulate. }
  destruct H as (_ & H0 & Hk). split; [exact H0|]. apply Hk.
Qed.

Lemma ball_radius_and_vertical_speed_witness :
  reachable Arkanoid_c relaunch_state /\ Ball.radius (ball relaunch_state 0) = 12%Q.
Proof.
  assert (H : reachable Arkanoid_c relaunch_state)
    by (apply reach_frame, reachable_run, reachable_fresh).
  split; [exact H|].
  exact (proj1 (ball_radius_and_vertical_speed Arkanoid_c _ 3 H)).
Defined.

(** * The grid *)

Lemma fresh_bricks_rect (y x : nat) :
  (y < LINES_OF_BRICKS)%nat -> (x < BRICKS_PER_LINE)%nat ->
  Brick.rect ((fresh_bricks !!! y) !!! x) =
  Rectangle.mk (flt (96 * Z.of_nat x + 7)) (flt (38 * Z.of_nat y + 70)) 84 28.
Proof.
  intros Hy Hx. unfold LINES_OF_BRICKS in Hy. unfold BRICKS_PER_LINE in Hx.
  do 5 (destruct y as [|y]; [do 10 (destruct x as [|x]; [by vm_compute|]); lia|]). lia.
Qed.

(** X10: in every reachable state the brick of row [y] and column [x] is the
    rectangle 84 wide and 28 high whose corner is at (96 x + 7, 38 y + 70):
    the layout [init_game] computes is never changed, the bricks of a row
    are 12 apart and the rows 10. *)
Theorem brick_layout (tune : t_tuning) (g : Game) (y x : nat) :
  reachable tune g ->
  (y < LINES_OF_BRICKS)%nat -> (x < BRICKS_PER_LINE)%nat ->
  Brick.rect (brick g y x) =
  Rectangle.mk (flt (96 * Z.of_nat x + 7)) (flt (38 * Z.of_nat y + 70)) 84 28.
Proof.
  intros Hg Hy Hx. rewrite <- (fresh_bricks_rect y x Hy Hx). revert g Hg.
  apply (reachable_rule tune
           (fun g => Brick.rect (brick g y x) = Brick.rect ((fresh_bricks !!! y) !!! x))).
  - intros g s Hwf _. pose proof (init_game_spec g Hwf) as Hspec. cbv zeta in Hspec.
    revert Hspec. generalize (init_game g).
    intros h (_ & _ & _ & _ & _ & _ & Hbr & _).
    unfold brick. change (bricks (set_gameState s h)) with (bricks h). by rewrite Hbr.
  - done.
  - done.
  - intros inp g _ _ <-. apply (fr_rect _ _ (frame_simulate tune inp g)).
Qed.

Lemma brick_layout_witness :
  reachable Arkanoid_c expand_state /\
  (4 < LINES_OF_BRICKS)%nat /\ (9 < BRICKS_PER_LINE)%nat /\
  Brick.rect (brick expand_state 4 9) =
  Rectangle.mk (flt (96 * Z.of_nat 9 + 7)) (flt (38 * Z.of_nat 4 + 70)) 84 28.
Proof.
  assert (H : reachable Arkanoid_c expand_state) by apply reachable_run, reachable_fresh.
  assert (Hy : (4 < LINES_OF_BRICKS)%nat) by (unfold LINES_OF_BRICKS; lia).
  assert (Hx : (9 < BRICKS_PER_LINE)%nat) by (unfold BRICKS_PER_LINE; lia).
  split; [exact H|]. split; [exact Hy|]. split; [exact Hx|].
  exact (brick_layout Arkanoid_c _ 4 9 H Hy Hx).
Defined.

(** * When a life is lost *)

(** X11: the life-loss step does something exactly when no ball is in
    flight and the launch flag is off; with a ball in flight, or with the
    ball still waiting on the paddle, the state is left as it is. *)
Theorem lose_life_only_without_balls (g : Game) :
  length (balls g) = BALLS_MAX ->
  lose_life g = g <-> (0 < active_balls g)%nat \/ waiting_for_launch g = true.
Proof.
  intros Hlen. pose proof (lose_life_outcome g Hlen) as Ho. cbv zeta in Ho.
  pose proof (lose_life_life g) as Hl.
  destruct Ho as [[Hsome Heq]|(Hzero & Hwait & Hcase)]; [done|].
  split.
  - intros Heq. exfalso. destruct Hl as [Hl|[Hl _]].
    + destruct Hcase as [[_ Hc]|[_ Hc]]; rewrite Hc in Heq.
      * apply (f_equal (fun h => Player.life (player h))) in Heq. simpl in Heq. lia.
      * apply (f_equal waiting_for_launch) in Heq. simpl in Heq. congruence.
    + rewrite Heq in Hl. lia.
  - intros [Hsome|Hw]; [lia|congruence].
Qed.

Lemma lose_life_only_without_balls_witness :
  length (balls second_loss_state) = BALLS_MAX /\
  (lose_life second_loss_state = second_loss_state <->
   (0 < active_balls second_loss_state)%nat \/
   waiting_for_launch second_loss_state = true).
Proof.
  assert (H : length (balls second_loss_state) = BALLS_MAX) by (vm_compute; reflexivity).
  split; [exact H|].
  exact (lose_life_only_without_balls second_loss_state H).
Defined.

(** * init_game *)

(** X12: [init_game] is idempotent: nothing it computes depends on what a
    run of it has changed, so that setting up a game twice is setting it up
    once. *)
Theorem init_game_idempotent (g : Game) :
  well_formed g -> init_game (init_game g) = init_game g.
Proof. intros Hwf. explode_game g Hwf. by vm_compute. Qed.

Lemma init_game_idempotent_witness :
  well_formed expand_state /\ init_game (init_game expand_state) = init_game expand_state.
Proof.
  assert (H : well_formed expand_state) by (vm_compute; by repeat split).
  split; [exact H|].
  exact (init_game_idempotent expand_state H).
Defined.

(** * The fall of a powerup *)

Lemma powerup_ext (g h : Game) (i : nat) :
  powerups g = powerups h -> powerup g i = powerup h i.
Proof. unfold powerup. by intros ->. Qed.

Lemma powerup_beyond (g : Game) (i : nat) :
  (length (powerups g) <= i)%nat -> Powerup.active (powerup g i) = false.
Proof. intros Hi. unfold powerup. rewrite list_lookup_total_alt, lookup_ge_None_2; done. Qed.

Lemma powerup_set_powerup_cases (i k : nat) (p : Powerup.t) (g : Game) :
  (k = i /\ powerup (set_powerup i p g) k = p) \/
  powerup (set_powerup i p g) k = powerup g k.
Proof.
  unfold powerup, set_powerup. simpl.
  destruct (decide (i = k)) as [->|Hne];
    [|right; by apply list_lookup_total_insert_ne].
  destruct (decide (k < length (powerups g))%nat) as [Hlt|Hge].
  - left. split; [done|]. by apply list_lookup_total_insert_eq.
  - right. rewrite list_insert_ge by lia. done.
Qed.

Lemma spawn_slot_spec (slots : list nat) (pos : Vector2.t) (type : t_powerup_type)
    (g : Game) :
  spawn_slot slots pos type g = g \/
  exists i, Powerup.active (powerup g i) = false /\
            spawn_slot slots pos type g =
            set_powerup i (Powerup.mk pos (Vector2.mk 0 2) type true) g.
Proof.
  induction slots as [|i rest IH]; simpl; [by left|].
  destruct (Powerup.active (powerup g i)) eqn:Hi; simpl; [exact IH|].
  right. by exists i.
Qed.

(** What holds before the loop over the balls and survives the spawning of
    a powerup in a free slot holds after it. *)
Section Spawn.

Variable Q : Game -> Prop.
Hypothesis Q_ext : forall h h', powerups h' = powerups h -> Q h -> Q h'.
Hypothesis Q_spawn : forall h i pos type,
  Q h -> Powerup.active (powerup h i) = false ->
  Q (set_powerup i (Powerup.mk pos (Vector2.mk 0 2) type true) h).

Lemma rule_spawn_powerup (pos : Vector2.t) (g : Game) : Q g -> Q (spawn_powerup pos g).
Proof.
  intros Hg. unfold spawn_powerup, rand.
  destruct (spawn_slot_spec (seq 0 POWERUPS_MAX) pos
              (powerup_of_roll (Z.rem (rnd g (rnd_pos g) mod (RAND_MAX + 1)) 100))
              (set_rnd_pos (S (rnd_pos g)) g)) as [->|(i & Hi & ->)].
  - by apply (Q_ext g).
  - apply Q_spawn; [by apply (Q_ext g)|exact Hi].
Qed.

Lemma rule_hit_brick (b yy xx : nat) (g : Game) : Q g -> Q (hit_brick b yy xx g).
Proof.
  intros Hg. unfold hit_brick. destruct (_ && _); [|done].
  cbv zeta. unfold GetRandomValue. destruct (_ <=? 22).
  - apply rule_spawn_powerup. by apply (Q_ext g).
  - by apply (Q_ext g).
Qed.

Lemma rule_update_ball (tune : t_tuning) (b : nat) (g : Game) :
  Q g -> Q (update_ball tune b g).
Proof.
  intros Hg. unfold update_ball. destruct (negb _); [done|]. cbv zeta.
  assert (Hk : keeps W_ball_pool g
                 (ball_lost b (ball_paddle tune b (ball_walls b (ball_move b g)))))
    by keeps_go.
  apply (k_powerups _ _ _) in Hk; [|done]. apply (Q_ext _ _ Hk) in Hg.
  clear Hk. revert Hg.
  generalize (ball_lost b (ball_paddle tune b (ball_walls b (ball_move b g)))).
  intros h Hh. rewrite ball_bricks_scan. revert h Hh. generalize scan_order.
  induction l as [|c l IH]; intros h Hh; [done|]. simpl. by apply IH, rule_hit_brick.
Qed.

Lemma rule_update_balls (tune : t_tuning) (g : Game) : Q g -> Q (update_balls tune g).
Proof.
  unfold update_balls. generalize (seq 0 BALLS_MAX). intros l. revert g.
  induction l as [|b l IH]; intros g Hg; [done|]. simpl. by apply IH, rule_update_ball.
Qed.

End Spawn.

(** One step of the powerup pass, seen from the pool. *)
Lemma update_powerup_slot (j : nat) (h : Game) :
  (Powerup.active (powerup h j) = false /\ update_powerup j h = h) \/
  (Powerup.active (powerup h j) = true /\
   exists a, powerups (update_powerup j h) =
             <[j := Powerup.set_active a (fallen (powerup h j))]> (powerups h)).
Proof.
  destruct (Powerup.active (powerup h j)) eqn:Hact.
  - right. split; [done|].
    assert (Hj : (j < length (powerups h))%nat).
    { destruct (decide (j < length (powerups h))%nat) as [?|Hge]; [done|].
      rewrite powerup_beyond in Hact by lia. done. }
    unfold update_powerup. rewrite Hact. cbv [negb]. cbv zeta.
    fold (fallen (powerup h j)).
    set (h1 := set_powerup j (fallen (powerup h j)) h).
    assert (H1 : powerup h1 j = fallen (powerup h j)).
    { unfold powerup, h1, set_powerup. simpl. by apply list_lookup_total_insert_eq. }
    assert (Hon : fallen (powerup h j) = Powerup.set_active true (fallen (powerup h j))).
    { unfold fallen, Powerup.set_active, Powerup.set_pos. simpl. by rewrite Hact. }
    destruct (CheckCollisionRecs _ _).
    + exists false.
      pose proof (k_powerups _ _ _ (keeps_apply_powerup (Powerup.type (powerup h1 j)) h1)
                    eq_refl) as Hk.
      revert Hk. generalize (apply_powerup (Powerup.type (powerup h1 j)) h1).
      intros h2 Hk.
      assert (Hk' : powerups h2 = <[j := fallen (powerup h j)]> (powerups h))
        by (by rewrite Hk).
      clear Hk H1. clearbody h1.
      destruct (_ >. _); unfold powerup, set_powerup; simpl; rewrite !Hk';
        rewrite ?list_insert_insert_eq;
        rewrite ?list_lookup_total_insert_eq by (rewrite ?length_insert; done);
        rewrite ?list_insert_insert_eq; done.
    + destruct (_ >. _).
      * exists false. unfold set_powerup. simpl. fold (powerup h1 j). rewrite H1.
        unfold h1, set_powerup. simpl. by rewrite list_insert_insert_eq.
      * exists true. unfold h1, set_powerup. simpl. by rewrite <- Hon.
  - left. split; [done|]. unfold update_powerup. by rewrite Hact.
Qed.

(** The powerup pass, seen from slot [i]. *)
Lemma update_powerups_slot (i : nat) (l : list nat) :
  NoDup l -> forall h : Game,
  let h' := fold_left (fun g j => update_powerup j g) l h in
  (i ∈ l -> Powerup.active (powerup h i) = true ->
   exists a, powerup h' i = Powerup.set_active a (fallen (powerup h i))) /\
  (i ∉ l \/ Powerup.active (powerup h i) = false -> powerup h' i = powerup h i).
Proof.
  induction 1 as [|j l Hj Hnd IH]; intros h; cbv zeta.
  - split; [by intros ?%not_elem_of_nil|done].
  - simpl fold_left. specialize (IH (update_powerup j h)). cbv zeta in IH.
    destruct IH as [IHin IHout].
    destruct (update_powerup_slot j h) as [[Hoff Heq]|(Hon & a & Hpool)].
    + rewrite Heq in IHin, IHout. rewrite Heq. split.
      * intros [->|Hi]%elem_of_cons Hact; [congruence|auto].
      * intros [Hni|Hoff']; [|auto]. apply IHout. left.
        intros Hi. apply Hni. by right.
    + assert (Hlt : (j < length (powerups h))%nat).
      { destruct (decide (j < length (powerups h))%nat) as [?|Hge]; [done|].
        rewrite powerup_beyond in Hon by lia. done. }
      assert (Hslot : forall k, powerup (update_powerup j h) k =
                        if decide (k = j)
                        then Powerup.set_active a (fallen (powerup h j))
                        else powerup h k).
      { intros k. unfold powerup at 1. rewrite Hpool. destruct (decide (k = j)) as [->|Hne].
        - by apply list_lookup_total_insert_eq.
        - by apply list_lookup_total_insert_ne. }
      revert IHin IHout Hslot. generalize (update_powerup j h). intros h1 IHin IHout Hslot.
      split.
      * intros [->|Hi]%elem_of_cons Hact.
        -- exists a. rewrite IHout by (by left). rewrite Hslot.
           by rewrite decide_True.
        -- assert (Hne : i <> j) by (intros ->; done).
           pose proof (Hslot i) as Hs. rewrite decide_False in Hs by done.
           rewrite <- Hs. apply IHin; [done|]. by rewrite Hs.
      * intros Hcase.
        assert (Hne : i <> j).
        { intros ->. destruct Hcase as [Hni|Hoff]; [|congruence]. apply Hni. left. }
        pose proof (Hslot i) as Hs. rewrite decide_False in Hs by done.
        rewrite <- Hs. apply IHout. destruct Hcase as [Hni|Hoff].
        -- left. intros Hi. apply Hni. by right.
        -- right. by rewrite Hs.
Qed.

Lemma powerups_ok_ext (h h' : Game) :
  powerups h' = powerups h -> powerups_ok h -> powerups_ok h'.
Proof. intros Heq Hh i. rewrite (powerup_ext h' h i Heq). apply Hh. Qed.

Lemma powerups_ok_keeps (w : t_writes) (g g' : Game) :
  keeps w g g' -> w_powerups w = false -> powerups_ok g -> powerups_ok g'.
Proof. intros [] Hw. apply powerups_ok_ext. auto. Qed.

Lemma powerups_ok_spawn (h : Game) (i : nat) (pos : Vector2.t) (type : t_powerup_type) :
  powerups_ok h -> Powerup.active (powerup h i) = false ->
  powerups_ok (set_powerup i (Powerup.mk pos (Vector2.mk 0 2) type true) h).
Proof.
  intros Hh _ k.
  destruct (powerup_set_powerup_cases i k (Powerup.mk pos (Vector2.mk 0 2) type true) h)
    as [[_ ->]| ->]; [done|apply Hh].
Qed.

Lemma powerups_ok_update_powerups (g : Game) :
  powerups_ok g -> powerups_ok (update_powerups g).
Proof.
  intros Hg i. unfold update_powerups.
  destruct (update_powerups_slot i (seq 0 POWERUPS_MAX) (NoDup_seq _ _) g) as [Hin Hout].
  cbv zeta in Hin, Hout.
  destruct (decide (i ∈ seq 0 POWERUPS_MAX)) as [Hi|Hi];
    [destruct (Powerup.active (powerup g i)) eqn:Hact|].
  - destruct (Hin Hi eq_refl) as [a ->]. intros _. by apply Hg.
  - rewrite Hout by (by right). congruence.
  - rewrite Hout by (by left). apply Hg.
Qed.

(** The powerups over an un-paused frame. *)
Lemma simulate_powerups (tune : t_tuning) (inp : Input) (g : Game) (i : nat) :
  length (powerups g) = POWERUPS_MAX ->
  powerups_ok g ->
  let g' := simulate tune inp g in
  powerups_ok g' /\
  (Powerup.active (powerup g i) = true ->
   exists a, powerup g' i = Powerup.set_active a (fallen (powerup g i))).
Proof.
  intros Hlen Hok. cbv zeta. unfold simulate. cbv zeta.
  assert (Hl : keeps W_simulate g (launch_ball tune inp (expand_decay inp (move_player inp g)))
               /\ powerups (launch_ball tune inp (expand_decay inp (move_player inp g))) =
                  powerups g).
  { split; [keeps_go|].
    rewrite (k_powerups _ _ _ (keeps_launch_ball _ _ _)) by done.
    rewrite (k_powerups _ _ _ (keeps_expand_decay _ _)) by done.
    by rewrite (k_powerups _ _ _ (keeps_move_player _ _)). }
  destruct Hl as [_ Hl]. revert Hl.
  generalize (launch_ball tune inp (expand_decay inp (move_player inp g))). intros l Hl.
  assert (Hx : powerups_ok (update_balls tune l) /\
               (Powerup.active (powerup g i) = true ->
                powerup (update_balls tune l) i = powerup g i)).
  { split.
    - apply (rule_update_balls powerups_ok powerups_ok_ext powerups_ok_spawn).
      by apply (powerups_ok_ext g).
    - intros Hact.
      apply (rule_update_balls (fun h => powerup h i = powerup g i)).
      + intros h h' Heq <-. by apply powerup_ext.
      + intros h k pos type Hh Hfree.
        destruct (powerup_set_powerup_cases k i
                    (Powerup.mk pos (Vector2.mk 0 2) type true) h) as [[-> _]| ->];
          [congruence|done].
      + by apply powerup_ext. }
  revert Hx. generalize (update_balls tune l). intros x [Hx Hxi].
  pose proof (k_powerups _ _ _ (keeps_lose_life x) eq_refl) as Hlo.
  revert Hlo. generalize (lose_life x). intros lo Hlo.
  pose proof (k_powerups _ _ _ (keeps_check_win (update_powerups lo)) eq_refl) as Hw.
  split.
  - apply (powerups_ok_ext _ _ Hw), powerups_ok_update_powerups.
    by apply (powerups_ok_ext x).
  - intros Hact. rewrite (powerup_ext _ _ i Hw).
    destruct (update_powerups_slot i (seq 0 POWERUPS_MAX) (NoDup_seq _ _) lo) as [Hin _].
    cbv zeta in Hin. rewrite (powerup_ext lo x i Hlo), (Hxi Hact) in Hin.
    apply Hin; [|done]. apply elem_of_seq.
    destruct (decide (i < length (powerups g))%nat) as [?|Hge]; [lia|].
    rewrite powerup_beyond in Hact by lia. done.
Qed.

Lemma reachable_powerups_ok (tune : t_tuning) (g : Game) :
  reachable tune g -> powerups_ok g.
Proof.
  revert g. apply (reachable_rule tune powerups_ok).
  - intros g s Hwf _. pose proof (init_game_spec g Hwf) as Hspec. cbv zeta in Hspec.
    revert Hspec. generalize (init_game g).
    intros h (_ & _ & _ & _ & _ & _ & _ & Hnone & _).
    intros i. change (powerup (set_gameState s h) i) with (powerup h i).
    by rewrite Hnone.
  - done.
  - done.
  - intros inp g ((_ & Hlen & _) & _) _ Hok.
    apply (simulate_powerups tune inp g 0 Hlen Hok).
Qed.

(** X13: powerups fall straight down, 2 a frame. In every reachable state,
    whatever the phase, a powerup that is on its way has the velocity
    (0, 2). A powerup that is on its way when a frame of the game starts
    is, if that frame ends un-paused, in the same slot with the same type,
    as far to the right as it was and 2 further down, collected or lost or
    still on its way. *)
Theorem powerup_falls (tune : t_tuning) (g : Game) :
  reachable tune g ->
  (forall i, Powerup.active (powerup g i) = true ->
             Powerup.spd (powerup g i) = Vector2.mk 0 2) /\
  (forall inp i,
     gameState g = GAME_PLAYING ->
     pause (update_game tune inp g) = false ->
     Powerup.active (powerup g i) = true ->
     exists a, powerup (update_game tune inp g) i =
               Powerup.mk (Vector2.mk (Vector2.x (Powerup.pos (powerup g i)))
                                      (Vector2.y (Powerup.pos (powerup g i)) +. 2))
                          (Vector2.mk 0 2) (Powerup.type (powerup g i)) a).
Proof.
  intros Hg.
  pose proof (reachable_powerups_ok tune g Hg) as Hok.
  destruct (reachable_invariant tune g Hg) as ((_ & Hlen & _) & _).
  split; [exact Hok|]. intros inp i Hst Hp Hact.
  assert (Hsim : forall h, powerups h = powerups g ->
            exists a, powerup (simulate tune inp h) i =
              Powerup.mk (Vector2.mk (Vector2.x (Powerup.pos (powerup g i)))
                                     (Vector2.y (Powerup.pos (powerup g i)) +. 2))
                         (Vector2.mk 0 2) (Powerup.type (powerup g i)) a).
  { intros h Heq.
    destruct (simulate_powerups tune inp h i) as [_ Hfall].
    - by rewrite Heq.
    - by apply (powerups_ok_ext g).
    - rewrite (powerup_ext h g i Heq) in Hfall. destruct (Hfall Hact) as [a ->].
      exists a. unfold fallen, Powerup.set_active, Powerup.set_pos. simpl.
      by rewrite (Hok i Hact). }
  revert Hp. unfold update_game. rewrite Hst. cbv zeta.
  destruct (key_p inp).
  - destruct (negb (pause (set_pause _ g))) eqn:E.
    + intros _. by apply Hsim.
    + intros Hp. apply negb_false_iff in E. congruence.
  - destruct (negb (pause g)) eqn:E.
    + intros _. by apply Hsim.
    + intros Hp. apply negb_false_iff in E. congruence.
Qed.

Lemma powerup_falls_witness :
  let g := relaunch_before in
  let g' := update_game Arkanoid_c hold_left g in
  (reachable Arkanoid_c g /\ gameState g = GAME_PLAYING /\ pause g' = false /\
   Powerup.active (powerup g 0) = true) /\
  Powerup.spd (powerup g 0) = Vector2.mk 0 2 /\
  exists a, powerup g' 0 =
            Powerup.mk (Vector2.mk (Vector2.x (Powerup.pos (powerup g 0)))
                                   (Vector2.y (Powerup.pos (powerup g 0)) +. 2))
                       (Vector2.mk 0 2) (Powerup.type (powerup g 0)) a.
Proof.
  cbv zeta.
  assert (H : reachable Arkanoid_c relaunch_before) by apply reachable_run, reachable_fresh.
  assert (Hst : gameState relaunch_before = GAME_PLAYING) by (vm_compute; reflexivity).
  assert (Hp : pause (update_game Arkanoid_c hold_left relaunch_before) = false)
    by (vm_compute; reflexivity).
  assert (Hact : Powerup.active (powerup relaunch_before 0) = true)
    by (vm_compute; reflexivity).
  destruct (powerup_falls Arkanoid_c relaunch_before H) as [Hspd Hfall].
  split; [exact (conj H (conj Hst (conj Hp Hact)))|].
  split; [exact (Hspd 0%nat Hact)|].
  exact (Hfall hold_left 0%nat Hst Hp Hact).
Defined.

(** * The launch *)

(** X14: the launch step touches the ball of slot 0 only, and only while it
    is not in flight: it is put on the middle of the paddle, 2 above it;
    SPACE then sends it off upwards with the launch speed, to the left or
    to the right as the random draw says, and clears the launch flag. With
    the ball of slot 0 in flight SPACE does nothing. *)
Theorem launch_ball_effect (tune : t_tuning) (inp : Input) (g : Game) :
  (0 < length (balls g))%nat ->
  let g' := launch_ball tune inp g in
  (forall k, k <> 0%nat -> ball g' k = ball g k) /\
  ballsCount g' = ballsCount g /\
  (Ball.active (ball g 0) = true -> g' = g) /\
  (Ball.active (ball g 0) = false -> key_space inp = false ->
   ball g' 0 = Ball.set_pos (above_paddle g) (ball g 0) /\
   waiting_for_launch g' = waiting_for_launch g) /\
  (Ball.active (ball g 0) = false -> key_space inp = true ->
   waiting_for_launch g' = false /\
   exists s, (s = 1 \/ s = -1) /\
     ball g' 0 = Ball.mk (above_paddle g)
                   (Vector2.mk (flt (launch_spd_x tune * s)) (flt (launch_spd_y tune)))
                   (Ball.radius (ball g 0)) true).
Proof.
  intros Hlen. cbv zeta.
  pose proof (launch_ball_spec tune inp g Hlen) as H. cbv zeta in H.
  pose proof (k_ballsCount _ _ _ (keeps_launch_ball tune inp g) eq_refl) as Hc.
  revert H Hc. generalize (launch_ball tune inp g). intros l H Hc.
  destruct H as [[Hon ->]|[(Hoff & Hsp & Hw & Hballs)|(Hoff & Hsp & Hw & s & Hs & Hballs)]].
  - split; [done|]. split; [done|]. split; [done|]. split; congruence.
  - split; [|split; [done|split; [congruence|split; [|congruence]]]].
    + intros k Hk. unfold ball. rewrite Hballs. by apply list_lookup_total_insert_ne.
    + intros _ _. split; [|done]. unfold ball at 1. rewrite Hballs.
      by apply list_lookup_total_insert_eq.
  - split; [|split; [done|split; [congruence|split; [congruence|]]]].
    + intros k Hk. unfold ball. rewrite Hballs. by apply list_lookup_total_insert_ne.
    + intros _ _. split; [done|]. exists s. split; [done|]. unfold ball at 1.
      rewrite Hballs. by apply list_lookup_total_insert_eq.
Qed.

Lemma launch_ball_effect_witness :
  (0 < length (balls (fresh [0%Z])))%nat /\
  (forall k, k <> 0%nat ->
     ball (launch_ball Arkanoid_c press_space (fresh [0])) k = ball (fresh [0]) k).
Proof.
  assert (H : (0 < length (balls (fresh [0%Z])))%nat) by (vm_compute; lia).
  split; [exact H|].
  exact (proj1 (launch_ball_effect Arkanoid_c press_space (fresh [0]) H)).
Defined.

(** * How a game is lost *)

Lemma update_powerups_idle (g : Game) :
  active_balls g = 0%nat ->
  balls (update_powerups g) = balls g /\
  waiting_for_launch (update_powerups g) = waiting_for_launch g.
Proof.
  intros Hz.
  apply (update_powerups_rule
           (fun h => balls h = balls g /\ waiting_for_launch h = waiting_for_launch g));
    [done| |done].
  intros t h [Hb Hw]. destruct t; cbv beta iota delta [apply_powerup]; try done.
  rewrite multi_ball_idle; [done|].
  apply active_balls_zero. by rewrite (active_balls_ext h g Hb).
Qed.

(** The end of a frame that ends the game. *)
Lemma simulate_game_over (tune : t_tuning) (inp : Input) (g : Game) :
  well_formed g ->
  gameState g = GAME_PLAYING ->
  1 <= Player.life (player g) ->
  let g' := simulate tune inp g in
  gameState g' = GAME_OVER ->
  Player.life (player g) = 1 /\
  active_balls g' = 0%nat /\
  waiting_for_launch g' = false /\
  active_bricks g' <> 0%nat.
Proof.
  intros Hwf Hst Hlife. cbv zeta. intros Hover.
  pose proof (simulate_phase tune inp g Hst) as Hph. cbv zeta in Hph.
  destruct Hph as [[Hwin _]|[_ Hbricks]]; [congruence|].
  revert Hover Hbricks. unfold simulate. cbv zeta.
  destruct (keeps_physics tune inp g) as [].
  assert (Hs : sframe g (update_balls tune (launch_ball tune inp
                 (expand_decay inp (move_player inp g))))) by sframe_go.
  apply sframe_well_formed in Hs; [|done]. destruct Hs as (Hlen & _).
  revert k_life0 k_gameState0 Hlen.
  generalize (update_balls tune (launch_ball tune inp (expand_decay inp (move_player inp g)))).
  intros x Hlx Hsx Hlen. specialize (Hlx eq_refl). specialize (Hsx eq_refl).
  pose proof (lose_life_outcome x Hlen) as Ho. cbv zeta in Ho.
  pose proof (k_gameState _ _ _ (keeps_update_powerups (lose_life x)) eq_refl) as Hps.
  pose proof (gameState_check_win (update_powerups (lose_life x))) as Hws.
  pose proof (k_balls _ _ _ (keeps_check_win (update_powerups (lose_life x))) eq_refl) as Hwb.
  pose proof (k_waiting _ _ _ (keeps_check_win (update_powerups (lose_life x))) eq_refl)
    as Hww.
  intros Hover Hbricks.
  assert (Hlost : gameState (lose_life x) = GAME_OVER).
  { destruct Hws as [Hws|Hws]; congruence. }
  destruct Ho as [[_ Heq]|(Hzero & Hwait & [[Hle Heq]|[_ Heq]])].
  - rewrite Heq in Hlost. congruence.
  - split; [lia|].
    assert (Hzero' : active_balls (lose_life x) = 0%nat) by (by rewrite Heq).
    destruct (update_powerups_idle (lose_life x) Hzero') as [Hpb Hpw].
    rewrite (active_balls_ext _ _ Hwb), (active_balls_ext _ _ Hpb), Hww, Hpw.
    split; [exact Hzero'|]. split; [by rewrite Heq|exact Hbricks].
  - pose proof (k_gameState _ _ _ (keeps_reset_balls
                  (above_paddle (set_player (Player.set_life (Player.life (player x) - 1)
                                                             (player x)) x))
                  (set_player (Player.set_life (Player.life (player x) - 1) (player x)) x))
                  eq_refl) as Hr.
    rewrite Heq in Hlost. simpl in Hlost, Hr. congruence.
Qed.

(** X15: a game is lost with the last life only. If a frame of the game
    ends in [GAME_OVER], then one life was left when it started; at its end
    no ball is in flight, the launch flag is off (nothing can be launched any
    more) and bricks are left on the board. *)
Theorem game_over_on_last_life (tune : t_tuning) (inp : Input) (g : Game) :
  reachable tune g ->
  gameState g = GAME_PLAYING ->
  let g' := update_game tune inp g in
  gameState g' = GAME_OVER ->
  Player.life (player g) = 1 /\
  active_balls g' = 0%nat /\
  waiting_for_launch g' = false /\
  active_bricks g' <> 0%nat.
Proof.
  intros Hg Hst. cbv zeta.
  destruct (reachable_lives tune g Hg) as [_ Hlife]. specialize (Hlife Hst).
  destruct (reachable_invariant tune g Hg) as (Hwf & _).
  unfold update_game. rewrite Hst. cbv zeta.
  destruct (key_p inp).
  - destruct (negb (pause (set_pause _ g))).
    + by apply (simulate_game_over tune inp (set_pause (negb (pause g)) g)).
    + simpl. congruence.
  - destruct (negb (pause g)); [|congruence].
    by apply simulate_game_over.
Qed.

Lemma game_over_on_last_life_witness :
  reachable Arkanoid_c (run Arkanoid_c (press_enter :: removelast losing_run) (fresh [1; 99; 1])) /\
  gameState (run Arkanoid_c (press_enter :: removelast losing_run) (fresh [1; 99; 1]))
    = GAME_PLAYING /\
  gameState (update_game Arkanoid_c hold_left
               (run Arkanoid_c (press_enter :: removelast losing_run) (fresh [1; 99; 1])))
    = GAME_OVER /\
  Player.life (player (run Arkanoid_c (press_enter :: removelast losing_run)
                         (fresh [1; 99; 1]))) = 1.
Proof.
  assert (H : reachable Arkanoid_c
                (run Arkanoid_c (press_enter :: removelast losing_run) (fresh [1; 99; 1])))
    by apply reachable_run, reachable_fresh.
  assert (Hst : gameState (run Arkanoid_c (press_enter :: removelast losing_run)
                             (fresh [1; 99; 1])) = GAME_PLAYING)
    by (vm_compute; reflexivity).
  assert (Hover : gameState (update_game Arkanoid_c hold_left
                    (run Arkanoid_c (press_enter :: removelast losing_run)
                       (fresh [1; 99; 1]))) = GAME_OVER)
    by (vm_compute; reflexivity).
  split; [exact H|]. split; [exact Hst|]. split; [exact Hover|].
  exact (proj1 (game_over_on_last_life Arkanoid_c hold_left _ H Hst Hover)).
Defined.

(** * Pictures *)

Lemma fold_left_append {A B : Type} (f : A -> list B) (l : list A) (pic : list B) :
  fold_left (fun pic x => pic ++ f x) l pic = pic ++ (l ≫= f).
Proof.
  revert pic. induction l as [|x l IH]; intros pic; simpl.
  - by rewrite app_nil_r.
  - rewrite IH. change ((x :: l) ≫= f) with (f x ++ (l ≫= f)). by rewrite app_assoc.
Qed.

Lemma fold_left_append_if {A B : Type} (c : A -> bool) (f : A -> list B) (l : list A)
    (pic : list B) :
  fold_left (fun pic x => if c x then pic ++ f x else pic) l pic =
  pic ++ (l ≫= fun x => if c x then f x else []).
Proof.
  rewrite <- fold_left_append. apply fold_left_pointwise.
  intros a x. destruct (c x); [done|by rewrite app_nil_r].
Qed.

Lemma filter_bind_if {A B : Type} (P : B -> Prop) `{!forall y, Decision (P y)}
    (c : A -> bool) (d : A -> B) (l : list A) :
  (forall x, P (d x)) ->
  filter P (l ≫= fun x => if c x then [d x] else []) = d <$> filter (fun x => c x = true) l.
Proof.
  intros Hd. induction l as [|x l IH]; [done|].
  change ((x :: l) ≫= ?f) with (f x ++ (l ≫= f)). rewrite filter_app, IH, filter_cons.
  destruct (c x) eqn:Hc.
  - rewrite decide_True by done. rewrite filter_cons, decide_True by done. done.
  - rewrite decide_False by done. done.
Qed.

Lemma filter_bind_none {A B : Type} (P : B -> Prop) `{!forall y, Decision (P y)}
    (f : A -> list B) (l : list A) :
  (forall x y, y ∈ f x -> ~ P y) -> filter P (l ≫= f) = [].
Proof.
  intros Hf. induction l as [|x l IH]; [done|].
  change ((x :: l) ≫= f) with (f x ++ (l ≫= f)). rewrite filter_app, IH, app_nil_r.
  apply (proj1 (length_zero_iff_nil _)), length_filter_zero. intros y Hy. by apply (Hf x).
Qed.

Lemma filter_none {B : Type} (P : B -> Prop) `{!forall y, Decision (P y)} (l : list B) :
  (forall y, y ∈ l -> ~ P y) -> filter P l = [].
Proof. intros Hl. by apply (proj1 (length_zero_iff_nil _)), length_filter_zero. Qed.

Ltac kinds_go :=
  let Hy := fresh in
  intros ? Hy; apply list_elem_of_bind in Hy as (? & Hy & _);
  repeat match type of Hy with
         | context [if ?c then _ else _] => destruct c
         | context [draw_powerup_icon ?t _] => destruct t; cbn [draw_powerup_icon] in Hy
         end;
  repeat (apply elem_of_cons in Hy as [->|Hy]; [done|]);
  by apply not_elem_of_nil in Hy.

Lemma lives_bar_kind (g : Game) (d : t_draw) :
  d ∈ lives_bar g -> is_ball d = false /\ is_brick d = false.
Proof. revert d. unfold lives_bar. kinds_go. Qed.

Lemma ball_circles_kind (g : Game) (d : t_draw) : d ∈ ball_circles g -> is_brick d = false.
Proof. revert d. unfold ball_circles. kinds_go. Qed.

Lemma brick_rects_kind (g : Game) (d : t_draw) : d ∈ brick_rects g -> is_ball d = false.
Proof. revert d. unfold brick_rects. kinds_go. Qed.

Lemma powerup_icons_kind (g : Game) (d : t_draw) :
  d ∈ powerup_icons g -> is_ball d = false /\ is_brick d = false.
Proof. revert d. unfold powerup_icons. kinds_go. Qed.

Ltac other_kind H :=
  let d := fresh in let Hd := fresh in
  intros d Hd; apply H in Hd; destruct_and?; congruence.

Ltac no_such_call H := apply filter_none; other_kind H.

Section Pictures.

Variable MeasureText : string -> Z -> Z.
Variable TextFormat : string -> Z -> string.
Variable stripe : Z -> Color.
Variable score_color : Color.

(** The background holds neither balls nor bricks. *)
Lemma draw_background_plain (P : t_draw -> Prop) `{!forall y, Decision (P y)} :
  (forall x y w h c, ~ P (DrawRectangle x y w h c)) ->
  filter P (draw_background stripe) = [].
Proof.
  intros HP. unfold draw_background. rewrite fold_left_append, app_nil_l.
  apply filter_bind_none. intros k y [->|Hy]%elem_of_cons; [apply HP|].
  by apply not_elem_of_nil in Hy.
Qed.

(** The parts of the picture of a game that is on. *)
Lemma draw_playing_parts (g : Game) :
  draw_playing MeasureText TextFormat score_color g =
  [DrawRectangleV (Player.pos (player g)) (Player.size (player g))
                  (if Player.expanded (player g) then YELLOW else DARKBLUE)] ++
  lives_bar g ++ ball_circles g ++ brick_rects g ++ powerup_icons g ++
  [DrawText (TextFormat "SCORE: %04i" (score g)) (screenWidth - 170) 20 28 score_color] ++
  (if pause g
   then [DrawText "GAME PAUSED"
                  (Z.quot screenWidth 2 - Z.quot (MeasureText "GAME PAUSED" 48) 2)
                  (Z.quot screenHeight 2 - 48) 48 GRAY]
   else []).
Proof.
  unfold draw_playing, lives_bar, ball_circles, brick_rects, powerup_icons. cbv zeta.
  rewrite (fold_left_append_if (fun i => Powerup.active (powerup g i))
             (fun i => draw_powerup_icon (Powerup.type (powerup g i))
                                         (Powerup.pos (powerup g i)))).
  assert (Hbricks : forall pic,
            fold_left (fun pic yy =>
                         fold_left (fun pic xx =>
                                      if Brick.active (brick g yy xx)
                                      then pic ++ [DrawRectangleRec (Brick.rect (brick g yy xx))
                                                                    (brick_color yy xx)]
                                      else pic)
                                   (seq 0 BRICKS_PER_LINE) pic)
                      (seq 0 LINES_OF_BRICKS) pic =
            pic ++ (scan_order ≫= fun c =>
                      if Brick.active (brick g c.1 c.2)
                      then [DrawRectangleRec (Brick.rect (brick g c.1 c.2))
                                             (brick_color c.1 c.2)] else [])).
  { intros pic.
    rewrite <- (fold_left_append_if (fun c => Brick.active (brick g c.1 c.2))
                  (fun c => [DrawRectangleRec (Brick.rect (brick g c.1 c.2))
                                              (brick_color c.1 c.2)])).
    unfold scan_order. rewrite fold_left_bind.
    apply fold_left_pointwise. intros a yy. by rewrite fold_left_bind. }
  rewrite Hbricks.
  rewrite (fold_left_append_if (fun b => Ball.active (ball g b))
             (fun b => [DrawCircleV (Ball.pos (ball g b)) (Ball.radius (ball g b)) MAROON])).
  rewrite fold_left_append.
  destruct (pause g); rewrite <- ?app_assoc; [done|]. by rewrite app_nil_r.
Qed.

Lemma draw_title_screen_plain (P : t_draw -> Prop) `{!forall y, Decision (P y)} :
  (forall x y w h c, ~ P (DrawRectangle x y w h c)) ->
  (forall t x y sz c, ~ P (DrawText t x y sz c)) ->
  filter P (draw_title_screen MeasureText stripe) = [].
Proof.
  intros Hrect Htext. unfold draw_title_screen. cbv zeta.
  rewrite fold_left_append, !filter_app, draw_background_plain by done.
  rewrite !filter_cons, !decide_False by apply Htext. rewrite filter_nil.
  apply filter_none. intros y (i & Hy & _)%list_elem_of_bind.
  apply list_elem_of_singleton in Hy as ->. apply Htext.
Qed.

Lemma brick_color_alternates (yy xx : nat) :
  brick_color yy (S xx) <> brick_color yy xx /\
  brick_color (S yy) xx <> brick_color yy xx.
Proof.
  unfold brick_color.
  replace (Z.of_nat yy + Z.of_nat (S xx)) with (Z.of_nat yy + Z.of_nat xx + 1) by lia.
  replace (Z.of_nat (S yy) + Z.of_nat xx) with (Z.of_nat yy + Z.of_nat xx + 1) by lia.
  assert (H0 : 0 <= Z.of_nat yy + Z.of_nat xx) by lia.
  revert H0. generalize (Z.of_nat yy + Z.of_nat xx). intros n Hn.
  rewrite !Z.rem_mod_nonneg, !Zmod_even, Z.even_add by lia.
  by destruct (Z.even n).
Qed.

Lemma active_slots (g : Game) :
  length (balls g) = BALLS_MAX ->
  length (filter (fun b => Ball.active (ball g b) = true) (seq 0 BALLS_MAX)) = active_balls g.
Proof.
  intros Hlen. unfold active_balls, ball.
  apply list_of_length_5 in Hlen as (a & b & c & d & e & ->).
  destruct a as [? ? ? []], b as [? ? ? []], c as [? ? ? []], d as [? ? ? []],
    e as [? ? ? []]; reflexivity.
Qed.

(** X16: the picture shows the balls in flight and the bricks on the board,
    and no others. While the game is on, the picture has one circle for each
    slot whose ball is in flight, in the order of the slots, with the centre
    and the radius of the ball; and one rectangle for each brick on the
    board, row by row, with the rectangle of the brick, [ORANGE] where row
    plus column is even and [GRAY] where it is odd, so that bricks next to
    each other differ in colour. On the title screen and the end screens
    neither balls nor bricks are drawn. *)
Theorem picture_shows_balls_and_bricks (g : Game) :
  let pic := draw_game MeasureText TextFormat stripe score_color g in
  (gameState g = GAME_PLAYING ->
   filter (fun d => is_ball d = true) pic =
     ((fun b => DrawCircleV (Ball.pos (ball g b)) (Ball.radius (ball g b)) MAROON) <$>
      filter (fun b => Ball.active (ball g b) = true) (seq 0 BALLS_MAX)) /\
   filter (fun d => is_brick d = true) pic =
     ((fun c => DrawRectangleRec (Brick.rect (brick g c.1 c.2)) (brick_color c.1 c.2)) <$>
      filter (fun c => Brick.active (brick g c.1 c.2) = true) scan_order) /\
   length (filter (fun d => is_brick d = true) pic) = active_bricks g /\
   (length (balls g) = BALLS_MAX ->
    length (filter (fun d => is_ball d = true) pic) = active_balls g)) /\
  (gameState g <> GAME_PLAYING ->
   filter (fun d => is_ball d = true) pic = [] /\
   filter (fun d => is_brick d = true) pic = []) /\
  (forall yy xx, brick_color yy (S xx) <> brick_color yy xx /\
                 brick_color (S yy) xx <> brick_color yy xx).
Proof.
  cbv zeta.
  assert (Hbg_ball : filter (fun d => is_ball d = true) (draw_background stripe) = [])
    by (by apply draw_background_plain).
  assert (Hbg_brick : filter (fun d => is_brick d = true) (draw_background stripe) = [])
    by (by apply draw_background_plain).
  split; [|split].
  - intros Hst. unfold draw_game. rewrite Hst. cbv zeta.
    rewrite draw_playing_parts, !filter_app, Hbg_ball, Hbg_brick.
    clear Hbg_ball Hbg_brick.
    assert (H1 : filter (fun d => is_ball d = true) (lives_bar g) = [])
      by no_such_call (lives_bar_kind g).
    assert (H2 : filter (fun d => is_brick d = true) (lives_bar g) = [])
      by no_such_call (lives_bar_kind g).
    assert (H3 : filter (fun d => is_brick d = true) (ball_circles g) = [])
      by no_such_call (ball_circles_kind g).
    assert (H4 : filter (fun d => is_ball d = true) (brick_rects g) = [])
      by no_such_call (brick_rects_kind g).
    assert (H5 : filter (fun d => is_ball d = true) (powerup_icons g) = [])
      by no_such_call (powerup_icons_kind g).
    assert (H6 : filter (fun d => is_brick d = true) (powerup_icons g) = [])
      by no_such_call (powerup_icons_kind g).
    assert (H7 : filter (fun d => is_ball d = true) (ball_circles g) =
                 ((fun b => DrawCircleV (Ball.pos (ball g b)) (Ball.radius (ball g b))
                                        MAROON) <$>
                  filter (fun b => Ball.active (ball g b) = true) (seq 0 BALLS_MAX)))
      by (by apply filter_bind_if).
    assert (H8 : filter (fun d => is_brick d = true) (brick_rects g) =
                 ((fun c => DrawRectangleRec (Brick.rect (brick g c.1 c.2))
                                             (brick_color c.1 c.2)) <$>
                  filter (fun c => Brick.active (brick g c.1 c.2) = true) scan_order))
      by (by apply (filter_bind_if _ (fun c => Brick.active (brick g c.1 c.2)))).
    assert (H9 : forall P : t_draw -> Prop, forall Hdec : (forall y, Decision (P y)),
              (forall t x y sz c, ~ P (DrawText t x y sz c)) ->
              filter P (if pause g
                        then [DrawText "GAME PAUSED"
                                (Z.quot screenWidth 2 -
                                 Z.quot (MeasureText "GAME PAUSED" 48) 2)
                                (Z.quot screenHeight 2 - 48) 48 GRAY]
                        else []) = []).
    { intros P Hdec HP. destruct (pause g); [|done].
      by rewrite filter_cons, decide_False by apply HP. }
    rewrite H1, H2, H3, H4, H5, H6, H7, H8, !H9 by done.
    rewrite !filter_cons, !decide_False, !filter_nil by done.
    rewrite !app_nil_r. cbn [app].
    split; [done|]. split; [done|]. split.
    + unfold active_bricks. by rewrite length_fmap.
    + intros Hlen. by rewrite length_fmap, active_slots.
  - intros Hst. unfold draw_game. cbv zeta.
    destruct (gameState g); [|exfalso; apply Hst; reflexivity| |];
      rewrite !filter_app, Hbg_ball, Hbg_brick; clear Hbg_ball Hbg_brick.
    + by rewrite !draw_title_screen_plain.
    + by rewrite !filter_cons, !decide_False, !filter_nil.
    + by rewrite !filter_cons, !decide_False, !filter_nil.
  - apply brick_color_alternates.
Qed.

Variable tune : t_tuning.

(** The picture of a frame: the calls between [BeginDrawing] and
    [EndDrawing]. *)
Lemma frames_run (inps : list Input) (g : Game) (pics : list (list t_draw)) :
  fold_left (fun '(g, pics) inp =>
               let '(g, pic) :=
                 update_draw_frame MeasureText TextFormat stripe score_color tune inp g in
               (g, pics ++ [pic]))
            inps (g, pics) =
  (run tune inps g,
   pics ++ ((fun k => [BeginDrawing] ++
                      draw_game MeasureText TextFormat stripe score_color
                                (run tune (take (S k) inps) g) ++ [EndDrawing]) <$>
            seq 0 (length inps))).
Proof.
  revert g pics. induction inps as [|inp inps IH]; intros g pics.
  - simpl. by rewrite app_nil_r.
  - cbn [fold_left]. unfold update_draw_frame at 2. cbv zeta. rewrite IH.
    cbn [length]. rewrite <- cons_seq, <- fmap_S_seq, fmap_cons, <- list_fmap_compose.
    rewrite <- app_assoc. done.
Qed.

(** What [main] returns. *)
Lemma main_frames (r : nat -> Z) (inps : list Input) :
  main MeasureText TextFormat stripe score_color tune r inps =
  (0, run tune inps (init_game (boot r)),
   (fun k => [BeginDrawing] ++
             draw_game MeasureText TextFormat stripe score_color
                       (run tune (take (S k) inps) (init_game (boot r))) ++
             [EndDrawing]) <$> seq 0 (length inps)).
Proof. unfold main. cbv zeta. by rewrite frames_run. Qed.

(** The balls, the bricks and the score on the picture of a game that is on. *)
Lemma playing_picture (g : Game) :
  gameState g = GAME_PLAYING ->
  let pic := draw_game MeasureText TextFormat stripe score_color g in
  length (filter (fun d => is_brick d = true) pic) = active_bricks g /\
  (length (filter (fun d => is_ball d = true) pic) <= BALLS_MAX)%nat /\
  DrawText (TextFormat "SCORE: %04i" (score g)) (screenWidth - 170) 20 28 score_color ∈ pic.
Proof.
  intros Hst. cbv zeta. unfold draw_game. rewrite Hst. cbv zeta.
  rewrite draw_playing_parts.
  split; [|split].
  - rewrite !filter_app, draw_background_plain by done.
    rewrite (filter_none _ (lives_bar g)) by other_kind (lives_bar_kind g).
    rewrite (filter_none _ (ball_circles g)) by other_kind (ball_circles_kind g).
    rewrite (filter_none _ (powerup_icons g)) by other_kind (powerup_icons_kind g).
    unfold brick_rects.
    rewrite (filter_bind_if _ (fun c => Brick.active (brick g c.1 c.2))) by done.
    rewrite !filter_cons, !decide_False, filter_nil by done.
    destruct (pause g);
      rewrite ?filter_cons, ?decide_False, ?filter_nil, ?app_nil_r by done;
      cbn [app]; by rewrite length_fmap.
  - rewrite !filter_app, draw_background_plain by done.
    rewrite (filter_none _ (lives_bar g)) by other_kind (lives_bar_kind g).
    rewrite (filter_none _ (brick_rects g)) by other_kind (brick_rects_kind g).
    rewrite (filter_none _ (powerup_icons g)) by other_kind (powerup_icons_kind g).
    unfold ball_circles.
    rewrite (filter_bind_if _ (fun b => Ball.active (ball g b))) by done.
    rewrite !filter_cons, !decide_False, filter_nil by done.
    destruct (pause g);
      rewrite ?filter_cons, ?decide_False, ?filter_nil, ?app_nil_r by done;
      cbn [app]; rewrite length_fmap; (etrans; [apply length_filter|]);
      by rewrite length_seq.
  - rewrite !elem_of_app. right. do 5 right. left. by apply list_elem_of_singleton.
Qed.

(** Outside the game neither balls nor bricks are drawn. *)
Lemma idle_picture (g : Game) :
  gameState g <> GAME_PLAYING ->
  let pic := draw_game MeasureText TextFormat stripe score_color g in
  filter (fun d => is_ball d = true) pic = [] /\
  filter (fun d => is_brick d = true) pic = [].
Proof.
  intros Hst. cbv zeta. unfold draw_game. cbv zeta.
  destruct (gameState g); [|done| |];
    rewrite !filter_app, !draw_background_plain by done.
  - by rewrite !draw_title_screen_plain.
  - by rewrite !filter_cons, !decide_False, !filter_nil.
  - by rewrite !filter_cons, !decide_False, !filter_nil.
Qed.

(** X17: what [main] shows. [main] draws one picture in each frame. Every
    one of them has at most 50 brick rectangles and at most 5 ball circles,
    and balls only together with bricks; and whenever bricks are on the
    picture, the score written on it is 100 times the number of bricks that
    are missing from the 50. *)
Theorem score_on_screen (r : nat -> Z) (inps : list Input) :
  let pics := (main MeasureText TextFormat stripe score_color tune r inps).2 in
  length pics = length inps /\
  Forall (fun pic =>
            let shown := length (filter (fun d => is_brick d = true) pic) in
            let flying := length (filter (fun d => is_ball d = true) pic) in
            (shown <= 50)%nat /\ (flying <= 5)%nat /\
            (flying <> 0%nat -> shown <> 0%nat) /\
            (shown <> 0%nat ->
             DrawText (TextFormat "SCORE: %04i" (100 * (50 - Z.of_nat shown)))
                      (screenWidth - 170) 20 28 score_color ∈ pic)) pics.
Proof.
  cbv zeta. rewrite main_frames. cbn [snd].
  split; [by rewrite length_fmap, length_seq|].
  apply Forall_fmap, Forall_forall. intros k _. cbn [compose].
  assert (Hg : reachable tune (run tune (take (S k) inps) (init_game (boot r))))
    by apply reachable_run, reach_main.
  revert Hg. generalize (run tune (take (S k) inps) (init_game (boot r))). intros g Hg.
  rewrite !filter_app, !filter_cons, !decide_False, !filter_nil by done.
  rewrite !app_nil_r. cbn [app].
  destruct (decide (gameState g = GAME_PLAYING)) as [Hst|Hst].
  - destruct (playing_picture g Hst) as (Hbricks & Hballs & Hscore).
    pose proof (reachable_tally tune g Hg) as Htally.
    destruct (reachable_invariant tune g Hg) as (_ & _ & _ & Hleft).
    pose proof (active_bricks_le g) as Hle. specialize (Hleft Hst).
    rewrite Hbricks. unfold tally in Htally.
    split; [done|]. split; [exact Hballs|]. split; [done|]. intros _.
    replace (100 * (50 - Z.of_nat (active_bricks g))) with (score g) by lia.
    rewrite elem_of_cons, elem_of_app. right. by left.
  - destruct (idle_picture g Hst) as [-> ->]. simpl. repeat split; try lia; done.
Qed.

End Pictures.

(** * Frames in which nothing happens *)

(** X18: a paused game is frozen, and so are the title screen and the end
    screens: while the game is paused, frames in which P is not pressed
    leave every global as it is (no ball moves, no powerup falls, the
    expansion timer does not run); outside the game so do frames in which
    neither SPACE nor ENTER is pressed. *)
Theorem frozen_frames (tune : t_tuning) (inps : list Input) (g : Game) :
  (gameState g = GAME_PLAYING -> pause g = true ->
   Forall (fun inp => key_p inp = false) inps -> run tune inps g = g) /\
  (gameState g <> GAME_PLAYING ->
   Forall (fun inp => confirms inp = false) inps -> run tune inps g = g).
Proof.
  split.
  - intros Hst Hp. induction 1 as [|inp inps Hinp _ IH]; [done|].
    simpl. replace (update_game tune inp g) with g; [exact IH|].
    unfold update_game. by rewrite Hst, Hinp, Hp.
  - intros Hst. induction 1 as [|inp inps Hinp _ IH]; [done|].
    simpl. replace (update_game tune inp g) with g; [exact IH|].
    unfold confirms in Hinp. unfold update_game. rewrite (orb_comm (key_enter inp)).
    destruct (gameState g); [|done| |]; by rewrite Hinp.
Qed.
